(** * ai-recommender: the recommendation endpoint and its JSON extractor

    A shallow embedding of [server/index.js] (the Express endpoint
    [/api/recommend], with [webSearch], [askGemini] and
    [extractJSONFromText]) and of the submit handler and catalog of
    [src/components/AIProductRecommender.jsx].

    Conventions of the embedding.
    - A JavaScript string is the list of its UTF-16 code units ([jsstring]).
    - A JavaScript number is an exact decimal ([number]); the rounding and
      the overflow of IEEE doubles are not modelled, and a statement that
      would depend on the overflow is made for values whose numbers are in
      range ([finite_numbers]).
    - A value produced by [JSON.parse] is a [json]; [undefined] is [None] in
      [jsval := option json].
    - Exceptions are explicit: a computation that may throw returns a
      [result].
    - The two outbound [fetch] calls are answered by the environment: their
      outcomes are inputs of the model ([world]), whatever URL or prompt
      is sent.
    - The [products] of a request are taken at the type the page sends
      them with, a list of [product] records.
    - The two regular expressions of the server are written as the scans
      they perform; the comments at [fenced_exec] and [price_match_at] say
      why no backtracking is left. *)

From Stdlib Require Import Ascii String.
From Stdlib Require Import List NArith ZArith Bool Lia.
From Stdlib Require Import DecimalN DecimalPos.
From Stdlib Require Import Permutation Sorted.
Import ListNotations.

Set Implicit Arguments.

(* ================================================================== *)
(** * Strings *)
(* ================================================================== *)

Module JsString.

Local Open Scope N_scope.

Definition code_unit := N.
Definition jsstring := list code_unit.

Definition ch (a : ascii) : code_unit := N_of_ascii a.

(** The code units of an ASCII literal. *)
Fixpoint str (s : string) : jsstring :=
  match s with
  | EmptyString => []
  | String a r => ch a :: str r
  end.

Arguments ch a%_char.
Arguments str s%_string.

Definition quote_mark : code_unit := 34.
Definition backslash : code_unit := 92.
Definition backtick : code_unit := 96.
Definition lbrace : code_unit := 123.
Definition rbrace : code_unit := 125.
Definition newline : code_unit := 10.

Fixpoint str_eqb (a b : jsstring) : bool :=
  match a, b with
  | [], [] => true
  | x :: a', y :: b' => N.eqb x y && str_eqb a' b'
  | _, _ => false
  end.

(** [WhiteSpace] and [LineTerminator] of ECMAScript: what [String.prototype.trim]
    removes and what [\s] matches. *)
Definition is_js_space (c : code_unit) : bool :=
  ((9 <=? c) && (c <=? 13)) || (c =? 32) || (c =? 160) || (c =? 5760)
  || ((8192 <=? c) && (c <=? 8202)) || (c =? 8232) || (c =? 8233)
  || (c =? 8239) || (c =? 8287) || (c =? 12288) || (c =? 65279).

Definition is_digit (c : code_unit) : bool := (48 <=? c) && (c <=? 57).

Fixpoint drop_while (p : code_unit -> bool) (s : jsstring) : jsstring :=
  match s with
  | [] => []
  | c :: r => if p c then drop_while p r else s
  end.

Fixpoint take_while (p : code_unit -> bool) (s : jsstring) : jsstring :=
  match s with
  | [] => []
  | c :: r => if p c then c :: take_while p r else []
  end.

(** [s.trim()] *)
Definition trim (s : jsstring) : jsstring :=
  rev (drop_while is_js_space (rev (drop_while is_js_space s))).

Fixpoint starts_with (p s : jsstring) : bool :=
  match p, s with
  | [], _ => true
  | x :: p', y :: s' => N.eqb x y && starts_with p' s'
  | _ :: _, [] => false
  end.

(** [s.includes(t)] *)
Fixpoint includes (s t : jsstring) : bool :=
  starts_with t s ||
  match s with
  | [] => false
  | _ :: r => includes r t
  end.

(** [s.indexOf(c)] for a one-unit needle; [None] is [-1]. *)
Fixpoint indexOf (s : jsstring) (c : code_unit) : option nat :=
  match s with
  | [] => None
  | x :: r => if N.eqb x c then Some 0%nat
              else match indexOf r c with
                   | Some i => Some (S i)
                   | None => None
                   end
  end.

(** [s.lastIndexOf(c)] for a one-unit needle; [None] is [-1]. *)
Fixpoint lastIndexOf (s : jsstring) (c : code_unit) : option nat :=
  match s with
  | [] => None
  | x :: r => match lastIndexOf r c with
              | Some i => Some (S i)
              | None => if N.eqb x c then Some 0%nat else None
              end
  end.

(** [s.slice(i, j)] for [0 <= i], [0 <= j] *)
Definition slice (s : jsstring) (i j : nat) : jsstring :=
  firstn (j - i)%nat (skipn i s).

(** [s[i] === c] ([s[i]] is [undefined] out of range, and then differs). *)
Definition unit_at_is (s : jsstring) (i : nat) (c : code_unit) : bool :=
  match nth_error s i with
  | Some x => N.eqb x c
  | None => false
  end.

(** The first occurrence of [pat] in [s]: what precedes it and what
    follows it. *)
Fixpoint split_at_first (pat s : jsstring) : option (jsstring * jsstring) :=
  if starts_with pat s then Some ([], skipn (length pat) s)
  else match s with
       | [] => None
       | c :: r => match split_at_first pat r with
                   | Some (pre, post) => Some (c :: pre, post)
                   | None => None
                   end
       end.

(** [s.toLowerCase()] on the Basic Latin and Latin-1 letters; code units
    above U+00FF are kept as they are (their case mappings are tables of
    the Unicode database, not of this program). *)
Definition lower_unit (c : code_unit) : code_unit :=
  if ((65 <=? c) && (c <=? 90))
     || ((192 <=? c) && (c <=? 222) && negb (c =? 215))
  then c + 32 else c.

Definition toLowerCase (s : jsstring) : jsstring := map lower_unit s.

(** [parts.join(sep)] on strings *)
Fixpoint join (sep : jsstring) (parts : list jsstring) : jsstring :=
  match parts with
  | [] => []
  | [p] => p
  | p :: rest => p ++ sep ++ join sep rest
  end.

(** [s.split(/\s+/)]: the pieces between maximal runs of white space (empty
    pieces at the two ends included).  [cur] is the piece being read,
    reversed. *)
Fixpoint split_ws_from (s : jsstring) (cur : jsstring) : list jsstring :=
  match s with
  | [] => [rev cur]
  | c :: r =>
      if is_js_space c then
        match r with
        | [] => [rev cur; []]
        | d :: _ =>
            if is_js_space d then split_ws_from r cur
            else rev cur :: split_ws_from r []
        end
      else split_ws_from r (c :: cur)
  end.

Definition split_ws (s : jsstring) : list jsstring := split_ws_from s [].

End JsString.
Export JsString.

(* ================================================================== *)
(** * Numbers and JSON values *)
(* ================================================================== *)

Module Json.

Local Open Scope N_scope.

(** A number is [0] ([digits = []]) or [(-1)^negative * d1...dk * 10^(pointpos - k)]
    with the [digits] [d1...dk] written as the code units ['0'..'9'], [d1]
    and [dk] not ['0'].  [pointpos] is the [n] of [Number::toString]. *)
Record number := mkNumber {
  negative : bool;
  digits : jsstring;
  pointpos : Z
}.

Definition num_zero : number := mkNumber false [] 0.

Definition digit_of_unit (c : code_unit) (u : Decimal.uint) : Decimal.uint :=
  match c - 48 with
  | 0 => Decimal.D0 u
  | 1 => Decimal.D1 u
  | 2 => Decimal.D2 u
  | 3 => Decimal.D3 u
  | 4 => Decimal.D4 u
  | 5 => Decimal.D5 u
  | 6 => Decimal.D6 u
  | 7 => Decimal.D7 u
  | 8 => Decimal.D8 u
  | _ => Decimal.D9 u
  end.

Fixpoint uint_of_digits (ds : jsstring) : Decimal.uint :=
  match ds with
  | [] => Decimal.Nil
  | c :: r => digit_of_unit c (uint_of_digits r)
  end.

Fixpoint digits_of_uint (u : Decimal.uint) : jsstring :=
  match u with
  | Decimal.Nil => []
  | Decimal.D0 r => 48 :: digits_of_uint r
  | Decimal.D1 r => 49 :: digits_of_uint r
  | Decimal.D2 r => 50 :: digits_of_uint r
  | Decimal.D3 r => 51 :: digits_of_uint r
  | Decimal.D4 r => 52 :: digits_of_uint r
  | Decimal.D5 r => 53 :: digits_of_uint r
  | Decimal.D6 r => 54 :: digits_of_uint r
  | Decimal.D7 r => 55 :: digits_of_uint r
  | Decimal.D8 r => 56 :: digits_of_uint r
  | Decimal.D9 r => 57 :: digits_of_uint r
  end.

(** The value of a run of decimal digits, and the decimal digits of a
    natural number. *)
Definition digits_to_N (ds : jsstring) : N := N.of_uint (uint_of_digits ds).
Definition N_to_digits (n : N) : jsstring := digits_of_uint (N.to_uint n).

Definition is_zero_digit (c : code_unit) : bool := c =? 48.
Definition strip_zeros : jsstring -> jsstring := drop_while is_zero_digit.

(** The number written [intd.fracd e exp] (sign apart), in normal form. *)
Definition mk_number (neg : bool) (intd fracd : jsstring) (exp : Z) : number :=
  let all := intd ++ fracd in
  let sig := strip_zeros all in
  match rev (strip_zeros (rev sig)) with
  | [] => num_zero
  | ds => mkNumber neg ds
            (Z.of_nat (length intd) - Z.of_nat (length all - length sig) + exp)
  end.

Definition num_of_N (n : N) : number := mk_number false (N_to_digits n) [] 0.

(** [x <= m] for an integer [m] *)
Definition num_leb_Z (x : number) (m : Z) : bool :=
  let v := Z.of_N (digits_to_N (digits x)) in
  let v := if negative x then (- v)%Z else v in
  let e := (pointpos x - Z.of_nat (length (digits x)))%Z in
  if (0 <=? e)%Z then (v * 10 ^ e <=? m)%Z else (v <=? m * 10 ^ (- e))%Z.

(** [Number::toString] (radix 10) of the positive number with the
    significant digits [ds] and the point position [n] *)
Definition magnitude_to_string (ds : jsstring) (n : Z) : jsstring :=
  match ds with
  | [] => [48]
  | d1 :: rest =>
      let k := Z.of_nat (length ds) in
      if ((k <=? n) && (n <=? 21))%Z then
        ds ++ repeat 48 (Z.to_nat (n - k))
      else if ((0 <? n) && (n <=? 21))%Z then
        firstn (Z.to_nat n) ds ++ [46] ++ skipn (Z.to_nat n) ds
      else if ((-6 <? n) && (n <=? 0))%Z then
        [48; 46] ++ repeat 48 (Z.to_nat (- n)) ++ ds
      else
        let e := (n - 1)%Z in
        let exponent :=
          [101; if (e <? 0)%Z then 45 else 43] ++ N_to_digits (Z.abs_N e) in
        match rest with
        | [] => [d1] ++ exponent
        | _ => [d1; 46] ++ rest ++ exponent
        end
  end.

(** [Number::toString(x)] (radix 10) *)
Definition number_to_string (x : number) : jsstring :=
  match digits x with
  | [] => [48]
  | _ :: _ =>
      if negative x then 45 :: magnitude_to_string (digits x) (pointpos x)
      else magnitude_to_string (digits x) (pointpos x)
  end.

Unset Elimination Schemes.

Inductive json :=
| JNull
| JBool (b : bool)
| JNum (n : number)
| JStr (s : jsstring)
| JArr (items : list json)
| JObj (members : list (jsstring * json)).

Set Elimination Schemes.

(** A JavaScript value reaching this program: a JSON value or [undefined]. *)
Definition jsval := option json.

(** [o[k]] on an object literal read by [JSON.parse]: a later member with
    the same key overrides an earlier one. *)
Fixpoint lookup (k : jsstring) (kvs : list (jsstring * json)) : jsval :=
  match kvs with
  | [] => None
  | (k', v) :: r =>
      match lookup k r with
      | Some x => Some x
      | None => if str_eqb k' k then Some v else None
      end
  end.

(** [ToBoolean] *)
Definition truthy (v : json) : bool :=
  match v with
  | JNull => false
  | JBool b => b
  | JNum n => match digits n with [] => false | _ => true end
  | JStr s => match s with [] => false | _ => true end
  | JArr _ => true
  | JObj _ => true
  end.

Definition truthy_val (v : jsval) : bool :=
  match v with
  | None => false
  | Some x => truthy x
  end.

(** [Array.isArray(v)] *)
Definition Array_isArray (v : jsval) : bool :=
  match v with
  | Some (JArr _) => true
  | _ => false
  end.

(** ** JSON.parse *)

Definition is_json_ws (c : code_unit) : bool :=
  (c =? 32) || (c =? 9) || (c =? 10) || (c =? 13).

Definition skip_ws : jsstring -> jsstring := drop_while is_json_ws.

Definition hex_val (c : code_unit) : option N :=
  if is_digit c then Some (c - 48)
  else if (97 <=? c) && (c <=? 102) then Some (c - 87)
  else if (65 <=? c) && (c <=? 70) then Some (c - 55)
  else None.

Definition hex4 (a b c d : code_unit) : option code_unit :=
  match hex_val a, hex_val b, hex_val c, hex_val d with
  | Some x, Some y, Some z, Some w => Some (((x * 16 + y) * 16 + z) * 16 + w)
  | _, _, _, _ => None
  end.

(** The unit denoted by the one-letter escape [\e] *)
Definition simple_escape (e : code_unit) : option code_unit :=
  if e =? 34 then Some 34
  else if e =? 92 then Some 92
  else if e =? 47 then Some 47
  else if e =? 98 then Some 8
  else if e =? 102 then Some 12
  else if e =? 110 then Some 10
  else if e =? 114 then Some 13
  else if e =? 116 then Some 9
  else None.

(** A string literal, after its opening quote: its value and what follows
    the closing quote. *)
Fixpoint parse_string_body (s : jsstring) : option (jsstring * jsstring) :=
  match s with
  | [] => None
  | c :: r =>
      if c =? 34 then Some ([], r)
      else if c =? 92 then
        match r with
        | [] => None
        | e :: r' =>
            if e =? 117 then
              match r' with
              | h1 :: h2 :: h3 :: h4 :: r'' =>
                  match hex4 h1 h2 h3 h4, parse_string_body r'' with
                  | Some u, Some (v, rest) => Some (u :: v, rest)
                  | _, _ => None
                  end
              | _ => None
              end
            else
              match simple_escape e, parse_string_body r' with
              | Some u, Some (v, rest) => Some (u :: v, rest)
              | _, _ => None
              end
        end
      else if c <? 32 then None
      else match parse_string_body r with
           | Some (v, rest) => Some (c :: v, rest)
           | None => None
           end
  end.

(** [. digits] or nothing *)
Definition parse_frac (s : jsstring) : option (jsstring * jsstring) :=
  match s with
  | c :: r =>
      if c =? 46 then
        match take_while is_digit r with
        | [] => None
        | ds => Some (ds, drop_while is_digit r)
        end
      else Some ([], s)
  | [] => Some ([], [])
  end.

(** [e], an optional sign, digits; or nothing *)
Definition parse_exp (s : jsstring) : option (Z * jsstring) :=
  match s with
  | c :: r =>
      if (c =? 101) || (c =? 69) then
        let '(neg, r1) :=
          match r with
          | d :: r' => if d =? 43 then (false, r')
                       else if d =? 45 then (true, r') else (false, r)
          | [] => (false, r)
          end in
        match take_while is_digit r1 with
        | [] => None
        | ds => let e := Z.of_N (digits_to_N ds) in
                Some (if neg then (- e)%Z else e, drop_while is_digit r1)
        end
      else Some (0%Z, s)
  | [] => Some (0%Z, [])
  end.

(** A number literal after its sign: [0] or a digit [1..9] followed by
    digits, an optional fraction, an optional exponent. *)
Definition parse_magnitude (neg : bool) (s : jsstring) : option (number * jsstring) :=
  match s with
  | [] => None
  | c :: r =>
      let intpart :=
        if c =? 48 then Some ([c], r)
        else if is_digit c then
          Some (c :: take_while is_digit r, drop_while is_digit r)
        else None in
      match intpart with
      | None => None
      | Some (intd, s2) =>
          match parse_frac s2 with
          | None => None
          | Some (fracd, s3) =>
              match parse_exp s3 with
              | None => None
              | Some (e, s4) => Some (mk_number neg intd fracd e, s4)
              end
          end
      end
  end.

(** A number literal: an optional minus sign and a magnitude *)
Definition parse_number (s : jsstring) : option (number * jsstring) :=
  match s with
  | c :: r => if c =? 45 then parse_magnitude true r else parse_magnitude false s
  | [] => None
  end.

Definition parse_literal (lit : jsstring) (v : json) (s : jsstring)
  : option (json * jsstring) :=
  if starts_with lit s then Some (v, skipn (length lit) s) else None.

(** A value, after optional white space; the [fuel] bounds the nesting of
    the calls, [JSON_parse] gives enough of it. *)
Fixpoint parse_value (fuel : nat) (s : jsstring) {struct fuel}
  : option (json * jsstring) :=
  match fuel with
  | O => None
  | S f =>
      match skip_ws s with
      | [] => None
      | c :: r =>
          if c =? 123 then
            match skip_ws r with
            | [] => None
            | d :: r' =>
                if d =? 125 then Some (JObj [], r')
                else match parse_members f (d :: r') with
                     | Some (kvs, rest) => Some (JObj kvs, rest)
                     | None => None
                     end
            end
          else if c =? 91 then
            match skip_ws r with
            | [] => None
            | d :: r' =>
                if d =? 93 then Some (JArr [], r')
                else match parse_elements f (d :: r') with
                     | Some (l, rest) => Some (JArr l, rest)
                     | None => None
                     end
            end
          else if c =? 34 then
            match parse_string_body r with
            | Some (v, rest) => Some (JStr v, rest)
            | None => None
            end
          else if (c =? 45) || is_digit c then
            match parse_number (c :: r) with
            | Some (n, rest) => Some (JNum n, rest)
            | None => None
            end
          else if c =? 116 then parse_literal (str "true") (JBool true) (c :: r)
          else if c =? 102 then parse_literal (str "false") (JBool false) (c :: r)
          else if c =? 110 then parse_literal (str "null") JNull (c :: r)
          else None
      end
  end

(** The elements of a non-empty array, up to its closing bracket *)
with parse_elements (fuel : nat) (s : jsstring) {struct fuel}
  : option (list json * jsstring) :=
  match fuel with
  | O => None
  | S f =>
      match parse_value f s with
      | None => None
      | Some (v, r) =>
          match skip_ws r with
          | [] => None
          | c :: r' =>
              if c =? 44 then
                match parse_elements f r' with
                | Some (l, rest) => Some (v :: l, rest)
                | None => None
                end
              else if c =? 93 then Some ([v], r')
              else None
          end
      end
  end

(** The members of a non-empty object, up to its closing brace *)
with parse_members (fuel : nat) (s : jsstring) {struct fuel}
  : option (list (jsstring * json) * jsstring) :=
  match fuel with
  | O => None
  | S f =>
      match skip_ws s with
      | [] => None
      | q :: r0 =>
          if q =? 34 then
            match parse_string_body r0 with
            | None => None
            | Some (k, r1) =>
                match skip_ws r1 with
                | [] => None
                | c :: r2 =>
                    if c =? 58 then
                      match parse_value f r2 with
                      | None => None
                      | Some (v, r3) =>
                          match skip_ws r3 with
                          | [] => None
                          | d :: r4 =>
                              if d =? 44 then
                                match parse_members f r4 with
                                | Some (kvs, rest) => Some ((k, v) :: kvs, rest)
                                | None => None
                                end
                              else if d =? 125 then Some ([(k, v)], r4)
                              else None
                          end
                      end
                    else None
                end
            end
          else None
      end
  end.

(** [JSON.parse(s)]; [None] is the [SyntaxError]. *)
Definition JSON_parse (s : jsstring) : option json :=
  match parse_value (2 * length s + 2) s with
  | Some (v, r) => match skip_ws r with
                   | [] => Some v
                   | _ :: _ => None
                   end
  | None => None
  end.

(** ** JSON.stringify *)

Definition hex_digit (n : N) : code_unit := if n <? 10 then 48 + n else 87 + n.

Definition unicode_escape (c : code_unit) : jsstring :=
  [92; 117; hex_digit ((c / 4096) mod 16); hex_digit ((c / 256) mod 16);
   hex_digit ((c / 16) mod 16); hex_digit (c mod 16)].

Definition escape_unit (c : code_unit) : jsstring :=
  if c =? 8 then [92; 98]
  else if c =? 9 then [92; 116]
  else if c =? 10 then [92; 110]
  else if c =? 12 then [92; 102]
  else if c =? 13 then [92; 114]
  else if c =? 34 then [92; 34]
  else if c =? 92 then [92; 92]
  else if c <? 32 then unicode_escape c
  else [c].

Definition is_high_surrogate (c : code_unit) : bool := (55296 <=? c) && (c <=? 56319).
Definition is_low_surrogate (c : code_unit) : bool := (56320 <=? c) && (c <=? 57343).

(** No lone surrogate: every high surrogate is followed by a low one, and
    every low one follows a high one. *)
Fixpoint well_formed_utf16 (s : jsstring) : bool :=
  match s with
  | [] => true
  | c :: r =>
      if is_high_surrogate c then
        match r with
        | d :: r' => is_low_surrogate d && well_formed_utf16 r'
        | [] => false
        end
      else negb (is_low_surrogate c) && well_formed_utf16 r
  end.

(** The inside of [QuoteJSONString]: a surrogate pair is kept, a lone
    surrogate is escaped. *)
Fixpoint quote_units (s : jsstring) : jsstring :=
  match s with
  | [] => []
  | c :: r =>
      if is_high_surrogate c then
        match r with
        | d :: r' =>
            if is_low_surrogate d then c :: d :: quote_units r'
            else unicode_escape c ++ quote_units r
        | [] => unicode_escape c
        end
      else if is_low_surrogate c then unicode_escape c ++ quote_units r
      else escape_unit c ++ quote_units r
  end.

Definition quote (s : jsstring) : jsstring := [34] ++ quote_units s ++ [34].

(** [JSON.stringify(v)] of a JSON value, without indentation.  The members
    of an object are written in the order and number [JSON.parse] read
    them (JavaScript writes a repeated key once, and index-like keys
    first); no property of this program depends on it. *)
Fixpoint JSON_stringify (v : json) : jsstring :=
  match v with
  | JNull => str "null"
  | JBool true => str "true"
  | JBool false => str "false"
  | JNum n => number_to_string n
  | JStr s => quote s
  | JArr l => [91] ++ join [44] (map JSON_stringify l) ++ [93]
  | JObj kvs =>
      [123] ++ join [44] (map (fun kv => quote (fst kv) ++ [58] ++ JSON_stringify (snd kv)) kvs)
      ++ [125]
  end.

(** Whether [ToString(v)] returns.  An object read by [JSON.parse] holds no
    function: when it has an own [toString] key, its [toString] is not
    callable and its [valueOf], own or inherited, gives no primitive, so
    that [ToPrimitive] throws a [TypeError]; without that key
    [Object.prototype.toString] answers.  An array joins the strings of
    its elements ([null] counts as the empty string), and throws when one
    of them does. *)
Fixpoint stringable (v : json) : bool :=
  match v with
  | JArr l => forallb stringable l
  | JObj kvs => match lookup (str "toString") kvs with
                | Some _ => false
                | None => true
                end
  | _ => true
  end.

(** What [ToString(v)] returns when it returns (see [stringable]; the
    conversion itself is [ToString] below). *)
Fixpoint js_String (v : json) : jsstring :=
  match v with
  | JNull => str "null"
  | JBool true => str "true"
  | JBool false => str "false"
  | JNum n => number_to_string n
  | JStr s => s
  | JArr l => join [44] (map (fun x => match x with JNull => [] | _ => js_String x end) l)
  | JObj _ => str "[object Object]"
  end.

End Json.
Export Json.

(* ================================================================== *)
(** * The server: server/index.js *)
(* ================================================================== *)

Module Server.

Local Open Scope N_scope.

(** ** Exceptions *)

(** A thrown [Error] object: its [name] and its [message]. *)
Record exn := Exn { exn_name : jsstring; exn_message : jsstring }.

(** [String(err)], that is [Error.prototype.toString]: the name alone when
    the message is empty, the message alone when the name is. *)
Definition exn_to_string (e : exn) : jsstring :=
  match exn_name e, exn_message e with
  | [], msg => msg
  | name, [] => name
  | name, msg => name ++ str ": " ++ msg
  end.

Definition Error (msg : jsstring) : exn := Exn (str "Error") msg.

(** The [TypeError] of a property read on [null] (the wording is V8's). *)
Definition TypeError_read (k : jsstring) : exn :=
  Exn (str "TypeError")
      (str "Cannot read properties of null (reading '" ++ k ++ str "')").

(** The [SyntaxError] of [JSON.parse] (the wording is the engine's). *)
Definition SyntaxError_json : exn :=
  Exn (str "SyntaxError") (str "Unexpected token in JSON").

Inductive result (A : Type) :=
| Ok (a : A)
| Throw (e : exn).

Arguments Ok {A} a.
Arguments Throw {A} e.

Definition bind {A B} (m : result A) (f : A -> result B) : result B :=
  match m with
  | Ok a => f a
  | Throw e => Throw e
  end.

Notation "x <- m ;; k" := (bind m (fun x => k))
  (at level 61, m at next level, right associativity).

(** ** Property reads *)

(** [v.k] for [v] other than [null]; no name read by this program is a
    property of a number, a boolean, a string or an array, but for
    [String.prototype.link], a function, which [JSON.stringify] leaves out
    as it does [undefined]. *)
Definition prop (v : json) (k : jsstring) : jsval :=
  match v with
  | JObj kvs => lookup k kvs
  | _ => None
  end.

(** [v.k], which throws on [null] *)
Definition get (v : json) (k : jsstring) : result jsval :=
  match v with
  | JNull => Throw (TypeError_read k)
  | _ => Ok (prop v k)
  end.

(** [a || b] *)
Definition js_or (a b : jsval) : jsval := if truthy_val a then a else b.

(** The [TypeError] of [ToPrimitive] (the wording is V8's). *)
Definition TypeError_primitive : exn :=
  Exn (str "TypeError") (str "Cannot convert object to primitive value").

(** [ToString(v)]: what [String(v)], a template literal and
    [encodeURIComponent(v)] apply to [v]. *)
Definition ToString (v : json) : result jsstring :=
  if stringable v then Ok (js_String v) else Throw TypeError_primitive.

(** [String(v)] for a value that may be [undefined] *)
Definition String_of (v : jsval) : result jsstring :=
  match v with
  | Some x => ToString x
  | None => Ok (str "undefined")
  end.

(** ** Configuration and environment *)

(** [process.env.SERPAPI_KEY] and [process.env.GEMINI_API_KEY] *)
Record config := {
  SERPAPI_KEY : option jsstring;
  GEMINI_KEY : option jsstring
}.

(** [!key] is false *)
Definition configured (key : option jsstring) : bool :=
  match key with
  | Some (_ :: _) => true
  | _ => false
  end.

(** What a [fetch] comes to: a response of some status with its body text,
    a rejection (network failure), or nothing before the timeout. *)
Inductive fetch_outcome :=
| Responded (status : N) (text : jsstring)
| Rejected (err : exn)
| TimedOut.

Record world := {
  search_fetch : fetch_outcome;
  model_fetch : fetch_outcome
}.

(** [timeoutPromise(p, ms)]: the race of [p] against the timer *)
Definition timeoutPromise (p : fetch_outcome) : result (N * jsstring) :=
  match p with
  | Responded st txt => Ok (st, txt)
  | Rejected err => Throw err
  | TimedOut => Throw (Error (str "timeout"))
  end.

(** [r.ok] *)
Definition response_ok (st : N) : bool := (200 <=? st) && (st <=? 299).

(** [r.json()] *)
Definition response_json (txt : jsstring) : result json :=
  match JSON_parse txt with
  | Some v => Ok v
  | None => Throw SyntaxError_json
  end.

Definition error_value (msg : jsstring) : json := JObj [(str "error", JStr msg)].

(** ** webSearch

    [query] determines the URL of the request; [encodeURIComponent], which
    stands before the [try], converts [query] to a string, which may throw
    a [TypeError], and throws a [URIError] on a lone surrogate. *)
Definition URIError : exn := Exn (str "URIError") (str "URI malformed").

Definition webSearch (cfg : config) (w : world) (query : json) : result json :=
  if negb (configured (SERPAPI_KEY cfg)) then
    Ok (error_value (str "SERPAPI_KEY not configured"))
  else
    q <- ToString query ;;
    if negb (well_formed_utf16 q) then Throw URIError
    else
      Ok match timeoutPromise (search_fetch w) with
         | Throw err => error_value (str "SerpApi fetch error: " ++ exn_to_string err)
         | Ok (st, txt) =>
             if negb (response_ok st) then
               error_value (str "SerpApi HTTP " ++ N_to_digits st ++ str ": " ++ txt)
             else
               match response_json txt with
               | Ok json => json
               | Throw err => error_value (str "SerpApi fetch error: " ++ exn_to_string err)
               end
         end.

(** ** askGemini

    [prompt] only determines the body of the request; the status of the
    response is not looked at. *)
Definition askGemini (cfg : config) (w : world) (prompt : jsstring) : result json :=
  if negb (configured (GEMINI_KEY cfg)) then
    Throw (Error (str "GEMINI_API_KEY not set in server environment."))
  else
    match (r <- timeoutPromise (model_fetch w) ;; response_json (snd r)) with
    | Ok json => Ok json
    | Throw err => Throw (Error (str "Gemini call failed: " ++ exn_message err))
    end.

(** ** extractJSONFromText *)

Definition fence : jsstring := [backtick; backtick; backtick].

(** [(?:json)?] under the [i] flag *)
Definition skip_json_tag (s : jsstring) : jsstring :=
  if starts_with (str "json") (toLowerCase (firstn 4 s)) then skipn 4 s else s.

(** One [fencedRegex.exec(text)], on the part [s] of the text from
    [lastIndex] on: the group [m[1]] and the part of the text after the
    match, or [None] for [null].

    The regular expression is [```(?:json)?\s*([\s\S]*?)```] with the flags
    [ig].  A match starts at the first [```] of [s]; after it the optional tag
    and the white space are taken greedily, and the lazy group ends at the
    next [```].  Giving back white space or the tag cannot help to find a
    closing fence (neither holds a backtick), and a later start cannot
    succeed where the first one fails, so that no backtracking is left. *)
Definition fenced_exec (s : jsstring) : option (jsstring * jsstring) :=
  match split_at_first fence s with
  | None => None
  | Some (_, after) =>
      split_at_first fence (drop_while is_js_space (skip_json_tag after))
  end.

(** The groups [m[1]] of the successive [exec] calls of the [while] loop. *)
Fixpoint fenced_matches_from (fuel : nat) (s : jsstring) : list jsstring :=
  match fuel with
  | O => []
  | S f =>
      match fenced_exec s with
      | None => []
      | Some (m1, rest) => m1 :: fenced_matches_from f rest
      end
  end.

Definition fenced_matches (text : jsstring) : list jsstring :=
  fenced_matches_from (length text) text.

(** The first candidate that [JSON.parse] accepts: the [try { return ... }
    catch { }] in a loop. *)
Fixpoint first_parse (candidates : list jsstring) : option json :=
  match candidates with
  | [] => None
  | c :: r => match JSON_parse c with
              | Some v => Some v
              | None => first_parse r
              end
  end.

(** [for (let j = lastBrace; j > i; j--)], with [j = i + n] *)
Fixpoint scan_close (text : jsstring) (i n : nat) : option json :=
  match n with
  | O => None
  | S n' =>
      let j := (i + n)%nat in
      if unit_at_is text j rbrace then
        match JSON_parse (slice text i (j + 1)) with
        | Some v => Some v
        | None => scan_close text i n'
        end
      else scan_close text i n'
  end.

(** [for (let i = ...; i < lastBrace; i++)], with [count = lastBrace - i] *)
Fixpoint scan_open (text : jsstring) (lastBrace i count : nat) : option json :=
  match count with
  | O => None
  | S c =>
      if unit_at_is text i lbrace then
        match scan_close text i (lastBrace - i) with
        | Some v => Some v
        | None => scan_open text lastBrace (S i) c
        end
      else scan_open text lastBrace (S i) c
  end.

(** Step 2 of the extractor, the span from the first [{] to the last [}] *)
Definition extract_braces (text : jsstring) : json :=
  match indexOf text lbrace, lastIndexOf text rbrace with
  | Some firstBrace, Some lastBrace =>
      if (firstBrace <? lastBrace)%nat then
        match JSON_parse (slice text firstBrace (lastBrace + 1)) with
        | Some v => v
        | None =>
            match scan_open text lastBrace firstBrace (lastBrace - firstBrace) with
            | Some v => v
            | None => JNull
            end
        end
      else JNull
  | _, _ => JNull
  end.

(** [extractJSONFromText(text)]; the result [JNull] is [null], whether it
    was parsed or nothing was found. *)
Definition extractJSONFromText (text : json) : json :=
  match text with
  | JStr (c :: s) =>
      match first_parse (map trim (fenced_matches (c :: s))) with
      | Some v => v
      | None => extract_braces (c :: s)
      end
  | _ => JNull
  end.

End Server.
Export Server.

(* ================================================================== *)
(** * The endpoint POST /api/recommend *)
(* ================================================================== *)

Module Endpoint.

Local Open Scope N_scope.

Notation "x <- m ;; k" := (bind m (fun x => k))
  (at level 61, m at next level, right associativity).

(** ** Data *)

Record product := {
  id : jsstring;
  name : jsstring;
  price : number;
  category : jsstring;
  features : list jsstring
}.

(** [req.body], destructured: [query] is what the body holds under that key
    ([None] when it holds nothing), [products] is taken at the type the
    client sends it with. *)
Record request := {
  query : jsval;
  products : list product
}.

(** The object pushed on [snippets]; a field that is [undefined] is [None]. *)
Record snippet := {
  title : jsval;
  snippet_text : jsval;
  link : jsval
}.

Record response := {
  status : N;
  body : json
}.

(** What [JSON.stringify] keeps of an object literal: the members that are
    not [undefined]. *)
Fixpoint object_of (fields : list (jsstring * jsval)) : list (jsstring * json) :=
  match fields with
  | [] => []
  | (k, Some v) :: r => (k, v) :: object_of r
  | (_, None) :: r => object_of r
  end.

Definition snippet_json (s : snippet) : json :=
  JObj (object_of [(str "title", title s);
                   (str "snippet", snippet_text s);
                   (str "link", link s)]).

Definition product_json (p : product) : json :=
  JObj [(str "id", JStr (id p));
        (str "name", JStr (name p));
        (str "price", JNum (price p));
        (str "category", JStr (category p));
        (str "features", JArr (map JStr (features p)))].

(** ** Snippets *)

(** [{ title: item.title, snippet: item.snippet || item.description || "",
       link: item.link || item.source }] *)
Definition snippet_of_item (item : json) : result snippet :=
  t <- get item (str "title") ;;
  s <- get item (str "snippet") ;;
  d <- get item (str "description") ;;
  l <- get item (str "link") ;;
  src <- get item (str "source") ;;
  Ok {| title := t;
        snippet_text := js_or (js_or s d) (Some (JStr []));
        link := js_or l src |}.

Fixpoint map_result {A B} (f : A -> result B) (l : list A) : result (list B) :=
  match l with
  | [] => Ok []
  | x :: r => y <- f x ;; ys <- map_result f r ;; Ok (y :: ys)
  end.

(** The "Build snippets (best-effort)" block *)
Definition build_snippets (web : json) : result (list snippet) :=
  if truthy web && truthy_val (prop web (str "organic_results"))
     && Array_isArray (prop web (str "organic_results")) then
    match prop web (str "organic_results") with
    | Some (JArr items) => map_result snippet_of_item (firstn 5 items)
    | _ => Ok []
    end
  else if truthy web && truthy_val (prop web (str "error")) then
    Ok [ {| title := Some (JStr (str "search-error"));
            snippet_text := prop web (str "error");
            link := None |} ]
  else Ok [].

(** ** The prompt

    The template literal converts [query] to a string, which may throw;
    the two [JSON.stringify] calls do not throw on these values. *)

Definition nl : jsstring := [newline].
Definition dq : jsstring := [quote_mark].

Definition build_prompt (query : json) (products : list product)
           (snippets : list snippet) : result jsstring :=
  q <- ToString query ;;
  Ok (nl ++ str "You are an assistant that recommends products from a small catalog." ++ nl
      ++ str "User request: " ++ dq ++ q ++ dq ++ nl
      ++ nl
      ++ str "Catalog: " ++ JSON_stringify (JArr (map product_json products)) ++ nl
      ++ nl
      ++ str "Web snippets: " ++ JSON_stringify (JArr (map snippet_json snippets)) ++ nl
      ++ nl
      ++ str "INSTRUCTIONS:" ++ nl
      ++ str "Return ONLY a JSON object in a fenced code block with keys:" ++ nl
      ++ str "{ " ++ dq ++ str "recommended_ids" ++ dq ++ str ": [ " ++ dq ++ str "p1" ++ dq
      ++ str ", " ++ dq ++ str "p2" ++ dq ++ str " ], " ++ dq ++ str "reason" ++ dq ++ str ": "
      ++ dq ++ str "short explanation" ++ dq ++ str ", " ++ dq ++ str "sources" ++ dq
      ++ str ": [ { " ++ dq ++ str "title" ++ dq ++ str ": " ++ dq ++ str "..." ++ dq ++ str ", "
      ++ dq ++ str "link" ++ dq ++ str ": " ++ dq ++ str "..." ++ dq ++ str " } ] }" ++ nl
      ++ nl
      ++ str "Respond with a fenced JSON block like:" ++ nl
      ++ nl
      ++ fence ++ str "json" ++ nl
      ++ str "{ " ++ dq ++ str "recommended_ids" ++ dq ++ str ": [...], " ++ dq ++ str "reason"
      ++ dq ++ str ": " ++ dq ++ str "..." ++ dq ++ str ", " ++ dq ++ str "sources" ++ dq
      ++ str ": [...] }" ++ nl
      ++ fence ++ nl
      ++ nl
      ++ str "Do not include any other text." ++ nl).

(** ** Text candidates *)

(** One [c] of [cand.content]: [c.text] when it is a string, else [c] when
    it is a string. *)
Definition content_part (c : json) : result (list json) :=
  t <- get c (str "text") ;;
  Ok match t with
     | Some (JStr s) => [JStr s]
     | _ => match c with
            | JStr _ => [c]
            | _ => []
            end
     end.

Fixpoint concat_result {A} (f : A -> result (list json)) (l : list A)
  : result (list json) :=
  match l with
  | [] => Ok []
  | x :: r => ys <- f x ;; zs <- concat_result f r ;; Ok (ys ++ zs)
  end.

(** The body of [for (const cand of gem.candidates)] *)
Definition candidate_texts (cand : json) : result (list json) :=
  content <- get cand (str "content") ;;
  from_content <-
    (if truthy_val content then
       match content with
       | Some (JArr cs) => concat_result content_part cs
       | Some (JStr s) => Ok [JStr s]
       | _ => Ok []
       end
     else Ok []) ;;
  display <- get cand (str "display") ;;
  from_display <-
    (if truthy_val display then s <- String_of display ;; Ok [JStr s] else Ok []) ;;
  text <- get cand (str "text") ;;
  from_text <-
    (if truthy_val text then s <- String_of text ;; Ok [JStr s] else Ok []) ;;
  Ok (from_content ++ from_display ++ from_text).

(** [if (c.text) textCandidates.push(c.text)] *)
Definition push_truthy_text (c : json) : result (list json) :=
  t <- get c (str "text") ;;
  Ok match t with
     | Some v => if truthy v then [v] else []
     | None => []
     end.

(** The body of [for (const out of gem.output)] *)
Definition output_texts (out : json) : result (list json) :=
  content <- get out (str "content") ;;
  from_content <-
    (match content with
     | Some (JArr cs) => concat_result push_truthy_text cs
     | _ => Ok []
     end) ;;
  from_text <- push_truthy_text out ;;
  Ok (from_content ++ from_text).

(** [textCandidates], once the whole response is pushed on it *)
Definition collect_text_candidates (gem : json) : result (list json) :=
  from_candidates <-
    (match prop gem (str "candidates") with
     | Some (JArr cands) => concat_result candidate_texts cands
     | _ => Ok []
     end) ;;
  from_output <-
    (match prop gem (str "output") with
     | Some (JArr outs) => concat_result output_texts outs
     | _ => Ok []
     end) ;;
  Ok (from_candidates ++ from_output ++ [JStr (JSON_stringify gem)]).

(** [for (const txt of textCandidates) { parsed = extractJSONFromText(txt);
    if (parsed) break; }], [parsed] being the value before the loop *)
Fixpoint try_candidates (textCandidates : list json) (parsed : json) : json :=
  match textCandidates with
  | [] => parsed
  | txt :: rest =>
      let parsed := extractJSONFromText txt in
      if truthy parsed then parsed else try_candidates rest parsed
  end.

(** [parsed && Array.isArray(parsed.recommended_ids)] *)
Definition accepted (parsed : json) : bool :=
  truthy parsed && Array_isArray (prop parsed (str "recommended_ids")).

(** ** The fallback heuristic *)

(** [/(under|below|<)\s*\$?(\d{1,6})/] at the start of [s]: the group 2.
    Each piece is deterministic here: the three words exclude one another,
    white space and [$] given back cannot be a digit. *)
Definition price_match_at (s : jsstring) : option jsstring :=
  let after_word :=
    if starts_with (str "under") s then Some (skipn 5 s)
    else if starts_with (str "below") s then Some (skipn 5 s)
    else if starts_with (str "<") s then Some (skipn 1 s)
    else None in
  match after_word with
  | None => None
  | Some r =>
      let r1 := drop_while is_js_space r in
      let r2 := match r1 with
                | c :: r' => if c =? 36 then r' else r1
                | [] => r1
                end in
      match firstn 6 (take_while is_digit r2) with
      | [] => None
      | ds => Some ds
      end
  end.

(** [lower.match(...)], the leftmost match: its group 2 *)
Fixpoint price_match (s : jsstring) : option jsstring :=
  match price_match_at s with
  | Some ds => Some ds
  | None => match s with
            | [] => None
            | _ :: r => price_match r
            end
  end.

(** [lower.split(/\s+/).filter(Boolean)] *)
Definition tokens_of (lower : jsstring) : list jsstring :=
  filter (fun t => match t with [] => false | _ => true end) (split_ws lower).

(** The test of the comparator for one token and one product *)
Definition token_hits (p : product) (t : jsstring) : bool :=
  includes (toLowerCase (name p)) t
  || includes (category p) t
  || includes (toLowerCase (join (str " ") (features p))) t.

(** [sa] (or [sb]) at the end of the [forEach] *)
Definition score (tokens : list jsstring) (p : product) : nat :=
  length (filter (token_hits p) tokens).

(** The comparator: [sb - sa] *)
Definition compare_products (tokens : list jsstring) (a b : product) : Z :=
  (Z.of_nat (score tokens b) - Z.of_nat (score tokens a))%Z.

(** [Array.prototype.sort] is stable and, with a comparator that orders by
    a key, yields the one stable arrangement; it is written here as an
    insertion from the right. *)
Fixpoint insert_sorted {A} (cmp : A -> A -> Z) (x : A) (l : list A) : list A :=
  match l with
  | [] => [x]
  | y :: r => if (cmp x y <=? 0)%Z then x :: y :: r
              else y :: insert_sorted cmp x r
  end.

Fixpoint sort_by {A} (cmp : A -> A -> Z) (l : list A) : list A :=
  match l with
  | [] => []
  | x :: r => insert_sorted cmp x (sort_by cmp r)
  end.

Definition fallback_reason : jsstring :=
  str "Fallback heuristic (Gemini did not return machine-readable JSON).".

(** [fallbackIds], from [const lower = query.toLowerCase()] on *)
Definition fallback_ids (lower : jsstring) (products : list product) : list jsstring :=
  let maxPrice := option_map digits_to_N (price_match lower) in
  let filtered :=
    match maxPrice with
    | Some m => filter (fun p => num_leb_Z (price p) (Z.of_N m)) products
    | None => products
    end in
  let tokens := tokens_of lower in
  map id (firstn 3 (sort_by (compare_products tokens) filtered)).

Definition fallback_body (ids : list jsstring) (snippets : list snippet)
           (textCandidates : list json) : json :=
  JObj [(str "recommended_ids", JArr (map JStr ids));
        (str "reason", JStr fallback_reason);
        (str "sources", JArr (map snippet_json snippets));
        (str "debug",
         JObj [(str "gemini_candidates_tried", JArr (firstn 3 textCandidates))])].

(** [query.toLowerCase()]: only a string has the method. *)
Definition query_toLowerCase (query : json) : result jsstring :=
  match query with
  | JStr s => Ok (toLowerCase s)
  | _ => Throw (Exn (str "TypeError") (str "query.toLowerCase is not a function"))
  end.

(** ** The handler *)

(** What follows the search: the prompt, the model call, the extraction and
    the fallback. *)
Definition after_search (cfg : config) (w : world) (query : json)
           (products : list product) (snippets : list snippet) : result response :=
  prompt <- build_prompt query products snippets ;;
  gem <- askGemini cfg w prompt ;;
  textCandidates <- collect_text_candidates gem ;;
  let parsed := try_candidates textCandidates JNull in
  if accepted parsed then Ok {| status := 200; body := parsed |}
  else
    lower <- query_toLowerCase query ;;
    Ok {| status := 200;
          body := fallback_body (fallback_ids lower products) snippets textCandidates |}.

(** The body of the [try] *)
Definition recommend_try (cfg : config) (w : world) (req : request) : result response :=
  match query req with
  | None => Ok {| status := 400; body := error_value (str "missing query") |}
  | Some query =>
      if negb (truthy query) then
        Ok {| status := 400; body := error_value (str "missing query") |}
      else
        web <- webSearch cfg w query ;;
        snippets <- build_snippets web ;;
        after_search cfg w query (products req) snippets
  end.

(** [app.post("/api/recommend", ...)], with its [catch] *)
Definition api_recommend (cfg : config) (w : world) (req : request) : response :=
  match recommend_try cfg w req with
  | Ok r => r
  | Throw err => {| status := 500; body := error_value (exn_to_string err) |}
  end.

End Endpoint.
Export Endpoint.

(* ================================================================== *)
(** * The client: src/components/AIProductRecommender.jsx *)
(* ================================================================== *)

Module Client.

Local Open Scope N_scope.

Definition PRODUCTS : list product :=
  [ {| id := str "p1"; name := str "PocketPhone A1"; price := num_of_N 299;
       category := str "phone"; features := [str "5.5in"; str "64GB"; str "dual-sim"] |};
    {| id := str "p2"; name := str "PocketPhone Pro"; price := num_of_N 549;
       category := str "phone"; features := [str "6.2in"; str "128GB"; str "fast-charge"] |};
    {| id := str "p3"; name := str "BudgetPhone B2"; price := num_of_N 199;
       category := str "phone"; features := [str "5.0in"; str "32GB"] |};
    {| id := str "p4"; name := str "CameraZoom X"; price := num_of_N 699;
       category := str "camera"; features := [str "50MP"; str "optical-zoom"] |};
    {| id := str "p5"; name := str "WorkTablet T1"; price := num_of_N 429;
       category := str "tablet"; features := [str "10in"; str "64GB"] |};
    {| id := str "p6"; name := str "Lifestyle Earbuds"; price := num_of_N 89;
       category := str "audio"; features := [str "noise-cancel"; str "bluetooth 5.2"] |} ].

(** What [handleRecommend] does with the text of the input field: it shows
    an error and stops, or it posts a request. *)
Inductive client_action :=
| SetError (msg : jsstring)
| Post (req : request).

Definition handleRecommend (query : jsstring) : client_action :=
  match trim query with
  | [] => SetError (str "Enter something like: I want a phone under $500")
  | _ :: _ => Post {| query := Some (JStr query); products := PRODUCTS |}
  end.

End Client.
Export Client.

(* ================================================================== *)
(** * Concrete scenarios used by the statements below *)
(* ================================================================== *)

Module Scenario.

Local Open Scope N_scope.

Definition synthetic_snippet (msg : jsstring) : snippet :=
  {| title := Some (JStr (str "search-error"));
     snippet_text := Some (JStr msg);
     link := None |}.

(** The message of the [{error}] value that [webSearch] returns for a failed
    call. *)
Definition search_error_message (o : fetch_outcome) : jsstring :=
  match o with
  | Responded st txt => str "SerpApi HTTP " ++ N_to_digits st ++ str ": " ++ txt
  | Rejected err => str "SerpApi fetch error: " ++ exn_to_string err
  | TimedOut => str "SerpApi fetch error: Error: timeout"
  end.

(** A failure of the search provider: a status outside 200..299, a rejected
    [fetch], or the timeout. *)
Inductive search_failure : fetch_outcome -> Prop :=
| failure_status st txt : response_ok st = false -> search_failure (Responded st txt)
| failure_network err : search_failure (Rejected err)
| failure_timeout : search_failure TimedOut.

(** A hard failure of the model call: no key, or the timeout. *)
Definition model_hard_failure (cfg : config) (w : world) : Prop :=
  configured (GEMINI_KEY cfg) = false \/ model_fetch w = TimedOut.

Definition is_error_body (b : json) : Prop := exists msg, b = error_value msg.

Definition both_keys : config :=
  {| SERPAPI_KEY := Some (str "serp-key"); GEMINI_KEY := Some (str "gemini-key") |}.


Definition no_model_key : config :=
  {| SERPAPI_KEY := Some (str "serp-key"); GEMINI_KEY := None |}.

Definition phone_query : jsstring := str "I want a phone under $500".

Definition phone_request : request :=
  {| query := Some (JStr phone_query); products := PRODUCTS |}.

(** A model response that is plain prose, in the shape
    [{candidates: [{content: "..."}]}]. *)
Definition prose_response : json :=
  JObj [(str "candidates",
         JArr [JObj [(str "content", JStr (str "Sorry, I cannot help with that."))]])].

(** A model response with two candidate texts: valid JSON of another shape
    first, a recommendation second. *)
Definition two_candidates : json :=
  JObj [(str "candidates",
         JArr [JObj [(str "text", JStr (JSON_stringify (JObj [(str "note", JStr (str "hi"))])))];
               JObj [(str "text",
                      JStr (JSON_stringify
                              (JObj [(str "recommended_ids", JArr [JStr (str "p1")])])))]])].

(** The body of an error response of the model provider. *)
Definition provider_error : json :=
  JObj [(str "error",
         JObj [(str "code", JNum (num_of_N 400));
               (str "message", JStr (str "API key not valid."));
               (str "status", JStr (str "INVALID_ARGUMENT"))])].

(** A body that is JSON but breaks the walk over the candidates. *)
Definition broken_candidates : json :=
  JObj [(str "candidates", JArr [JNull])].

(** A body that is itself a recommendation. *)
Definition recommendation_body : json :=
  JObj [(str "recommended_ids", JArr [JStr (str "p2")])].

Definition world_of (search model : fetch_outcome) : world :=
  {| search_fetch := search; model_fetch := model |}.

Definition responds (st : N) (v : json) : fetch_outcome :=
  Responded st (JSON_stringify v).

End Scenario.
Export Scenario.

Module Paths.

(** Whether the model's answer yields an accepted value (the path that
    returns [parsed]); the prompt plays no part in it. *)
Definition model_accepted (cfg : config) (w : world) : bool :=
  match bind (askGemini cfg w []) collect_text_candidates with
  | Ok textCandidates => accepted (try_candidates textCandidates JNull)
  | Throw _ => false
  end.

(** No fence starts inside [x], also when a fence follows [x]. *)
Definition fence_free (x : jsstring) : Prop :=
  includes (x ++ [backtick; backtick]) fence = false.

(** The text made of fenced blocks, each given with the text before its
    opening fence and with what stands between its fences, and of the text
    [post] after the last of them. *)
Fixpoint fenced_text (blocks : list (jsstring * jsstring)) (post : jsstring)
  : jsstring :=
  match blocks with
  | [] => post
  | (pre, inner) :: r => pre ++ fence ++ inner ++ fence ++ fenced_text r post
  end.

(** What the loop hands to [JSON.parse] for the block [inner]: the optional
    tag is skipped, the rest is trimmed. *)
Definition block_candidate (inner : jsstring) : jsstring :=
  trim (skip_json_tag inner).

End Paths.
Export Paths.

Module Wellformed.

Local Open Scope N_scope.

(** The normal form of a number: see [number]. *)
Definition wf_number (x : number) : bool :=
  match digits x with
  | [] => negb (negative x) && (pointpos x =? 0)%Z
  | d :: _ =>
      forallb is_digit (digits x) && negb (d =? 48)
      && negb (last (digits x) 48 =? 48)
  end.

(** A JSON value whose numbers are in normal form, as [JSON.parse] yields
    them. *)
Fixpoint wf_json (v : json) : bool :=
  match v with
  | JNum n => wf_number n
  | JArr l => forallb wf_json l
  | JObj kvs => forallb (fun kv => wf_json (snd kv)) kvs
  | _ => true
  end.

(** What may follow a number literal: not a digit, a point or an
    exponent mark. *)
Definition ends_number (rest : jsstring) : bool :=
  match rest with
  | [] => true
  | c :: _ => negb (is_digit c || (c =? 46) || (c =? 101) || (c =? 69))
  end.

Definition not_digit_next (rest : jsstring) : bool :=
  match rest with
  | [] => true
  | c :: _ => negb (is_digit c)
  end.

(** A unit put before what was read, if anything was. *)
Definition cons_parsed (c : code_unit) (p : option (jsstring * jsstring))
  : option (jsstring * jsstring) :=
  match p with
  | Some (v, rest) => Some (c :: v, rest)
  | None => None
  end.

(** The fuel that [parse_value] needs to read a value back. *)
Fixpoint fuel_of (v : json) : nat :=
  match v with
  | JArr l => S (fold_right (fun x acc => S (Nat.max (fuel_of x) acc)) O l)
  | JObj kvs => S (fold_right (fun kv acc => S (Nat.max (fuel_of (snd kv)) acc)) O kvs)
  | _ => 1
  end.

Definition elements_fuel (l : list json) : nat :=
  fold_right (fun x acc => S (Nat.max (fuel_of x) acc)) O l.

Definition members_fuel (kvs : list (jsstring * json)) : nat :=
  fold_right (fun kv acc => S (Nat.max (fuel_of (snd kv)) acc)) O kvs.

(** One member as [JSON.stringify] writes it *)
Definition member_text (kv : jsstring * json) : jsstring :=
  quote (fst kv) ++ [58] ++ JSON_stringify (snd kv).

(** A value in normal form is read back from its print followed by [rest],
    with any fuel from [fuel_of] on. *)
Definition reads_back (v : json) : Prop :=
  wf_json v = true ->
  forall fuel (rest : jsstring),
    (fuel_of v <= fuel)%nat -> ends_number rest = true ->
    parse_value fuel (JSON_stringify v ++ rest) = Some (v, rest).

(** A number below 10^308 in magnitude.  The engine holds a number as a
    double and reads a literal beyond the range of the doubles as
    [Infinity], which [JSON.stringify] writes as [null]; no rounding takes
    a number below 10^308 there. *)
Definition in_range (x : number) : bool := (pointpos x <=? 308)%Z.

(** A JSON value all of whose numbers are in that range. *)
Fixpoint finite_numbers (v : json) : bool :=
  match v with
  | JNum n => in_range n
  | JArr l => forallb finite_numbers l
  | JObj kvs => forallb (fun kv => finite_numbers (snd kv)) kvs
  | _ => true
  end.

(** A comparator that orders by a key, highest first, as the handler's
    does with the score: [key b - key a]. *)
Definition by_key {A} (key : A -> nat) (a b : A) : Z :=
  (Z.of_nat (key b) - Z.of_nat (key a))%Z.

Definition descending_by {A} (key : A -> nat) (a b : A) : Prop :=
  (key b <= key a)%nat.

End Wellformed.
Export Wellformed.

(* ================================================================== *)
(** * The page against the endpoint, and the notions of the further
      properties *)
(* ================================================================== *)

Module Page.

Local Open Scope N_scope.

(** What the hooks [recommendations], [loading], [explanation] and [error]
    hold. *)
Record ui := {
  recommendations : list product;
  loading : bool;
  explanation : jsval;
  error : option jsstring
}.

(** [p.id === id], for the [id] read from the response *)
Definition id_is (v : json) (p : product) : bool :=
  match v with
  | JStr s => str_eqb (id p) s
  | _ => false
  end.

(** [.filter(Boolean)] on what [find] gave: a product or [undefined] *)
Fixpoint filter_Boolean {A} (l : list (option A)) : list A :=
  match l with
  | [] => []
  | Some x :: r => x :: filter_Boolean r
  | None :: r => filter_Boolean r
  end.

(** [recs] *)
Definition recs (data : json) : result (list product) :=
  ids <- get data (str "recommended_ids") ;;
  Ok match ids with
     | Some (JArr l) => filter_Boolean (map (fun v => find (id_is v) PRODUCTS) l)
     | _ => []
     end.

(** The body of the [try] once the [fetch] has settled, [fetched] being the
    status and the body text of the response, or the rejection: what is
    passed to [setRecommendations] and to [setExplanation]. *)
Definition after_fetch (fetched : result (N * jsstring))
  : result (list product * jsval) :=
  resp <- fetched ;;
  if negb (response_ok (fst resp)) then
    Throw (Error (str "Server error: " ++ N_to_digits (fst resp) ++ str " " ++ snd resp))
  else
    data <- response_json (snd resp) ;;
    found <- recs data ;;
    reason <- get data (str "reason") ;;
    Ok (found, js_or reason (Some (JStr []))).

(** The state that [handleRecommend] leaves, from [setLoading(true)] to the
    [finally]. *)
Definition show (st : ui) (fetched : result (N * jsstring)) : ui :=
  match after_fetch fetched with
  | Ok (recs, why) =>
      {| recommendations := recs; loading := false;
         explanation := why; error := None |}
  | Throw err =>
      {| recommendations := recommendations st; loading := false;
         explanation := explanation st; error := Some (exn_message err) |}
  end.

(** [res.status(s).json(v)], as the [fetch] of the page receives it *)
Definition send (r : response) : result (N * jsstring) :=
  Ok (status r, JSON_stringify (body r)).

(** [handleRecommend] on the text of the input field, against the
    endpoint: the request reaches the handler as the page made it, the
    answer comes back as [send] gives it. *)
Definition submit (cfg : config) (w : world) (st : ui) (text : jsstring) : ui :=
  match handleRecommend text with
  | SetError msg =>
      {| recommendations := recommendations st; loading := loading st;
         explanation := explanation st; error := Some msg |}
  | Post req => show st (send (api_recommend cfg w req))
  end.

End Page.
Export Page.

Module Notions.

(** [filtered], before it is sorted *)
Definition filtered (lower : jsstring) (products : list product) : list product :=
  match option_map digits_to_N (price_match lower) with
  | Some m => filter (fun p => num_leb_Z (price p) (Z.of_N m)) products
  | None => products
  end.

(** [filtered], once sorted *)
Definition ranked (lower : jsstring) (products : list product) : list product :=
  sort_by (compare_products (tokens_of lower)) (filtered lower products).

(** [sub] is a part of [s]: some units of [s] that follow one another. *)
Definition part_of (sub s : jsstring) : Prop := exists a b, s = a ++ sub ++ b.

(** The slice of [text] from a [{] at [i] to a [}] at [j] is read by
    [JSON.parse] as [v]. *)
Definition braces_parse (text : jsstring) (i j : nat) (v : json) : Prop :=
  unit_at_is text i lbrace = true
  /\ unit_at_is text j rbrace = true
  /\ JSON_parse (slice text i (j + 1)) = Some v.

Definition not_space (c : code_unit) : bool := negb (is_js_space c).

(** The message with which the model call fails once it goes out: its
    [fetch] is rejected or times out, or the body of the answer is not
    JSON; [None] when it returns. *)
Definition model_call_failure (w : world) : option jsstring :=
  match model_fetch w with
  | Rejected err => Some (exn_message err)
  | TimedOut => Some (str "timeout")
  | Responded _ text =>
      match JSON_parse text with
      | Some _ => None
      | None => Some (exn_message SyntaxError_json)
      end
  end.

(** A candidate of the shape of [generateContent]: its [content] is an
    object, and it has no [display] and no [text] that counts. *)
Definition content_object (cand : json) : Prop :=
  exists kvs o,
    cand = JObj kvs
    /\ lookup (str "content") kvs = Some (JObj o)
    /\ truthy_val (lookup (str "display") kvs) = false
    /\ truthy_val (lookup (str "text") kvs) = false.

Definition wf_val (v : jsval) : bool :=
  match v with
  | Some x => wf_json x
  | None => true
  end.

Definition wf_snippet (s : snippet) : bool :=
  wf_val (title s) && wf_val (snippet_text s) && wf_val (link s).

End Notions.
Export Notions.

(* ================================================================== *)
(** * Properties *)
(* ================================================================== *)

Local Open Scope N_scope.
Unset Implicit Arguments.

(** ** Small facts on lists and strings *)

Lemma insert_sorted_In {A} (cmp : A -> A -> Z) x y l :
  In y (insert_sorted cmp x l) -> y = x \/ In y l.
Proof.
  induction l as [|z l IH]; simpl.
  - intros [H|[]]; auto.
  - destruct (cmp x z <=? 0)%Z; simpl.
    + intros [H|[H|H]]; auto.
    + intros [H|H]; auto. destruct (IH H); auto.
Qed.

Lemma sort_by_In {A} (cmp : A -> A -> Z) y l :
  In y (sort_by cmp l) -> In y l.
Proof.
  induction l as [|x l IH]; simpl; auto.
  intros H. destruct (insert_sorted_In _ _ _ _ H); auto.
Qed.

Lemma firstn_In {A} n (l : list A) x : In x (firstn n l) -> In x l.
Proof.
  revert l; induction n; intros [|y l]; simpl; try tauto.
  intros [H|H]; auto.
Qed.

Lemma fallback_ids_length lower prods :
  (length (fallback_ids lower prods) <= 3)%nat.
Proof.
  unfold fallback_ids. rewrite length_map. apply firstn_le_length.
Qed.

Lemma fallback_ids_from_catalog lower prods i :
  In i (fallback_ids lower prods) -> exists p, In p prods /\ id p = i.
Proof.
  unfold fallback_ids. intros H.
  apply in_map_iff in H. destruct H as [p [Hid Hp]].
  exists p. split; auto.
  apply firstn_In, sort_by_In in Hp.
  destruct (option_map digits_to_N (price_match lower)); auto.
  apply filter_In in Hp. tauto.
Qed.

Lemma drop_while_suffix p s : exists a, s = a ++ drop_while p s.
Proof.
  induction s as [|c s [a IH]]; simpl.
  - exists []. reflexivity.
  - destruct (p c).
    + exists (c :: a). simpl. f_equal. exact IH.
    + exists []. reflexivity.
Qed.

(** ** Decimal digits *)

Lemma digits_of_uint_digits u : forallb is_digit (digits_of_uint u) = true.
Proof. induction u; simpl; auto. Qed.

Lemma uint_of_digits_of_uint u : uint_of_digits (digits_of_uint u) = u.
Proof. induction u; simpl; try rewrite IHu; reflexivity. Qed.

Lemma digits_to_N_to_digits n : digits_to_N (N_to_digits n) = n.
Proof.
  unfold digits_to_N, N_to_digits. rewrite uint_of_digits_of_uint.
  apply DecimalN.Unsigned.of_to.
Qed.

Lemma N_to_digits_nonempty n : N_to_digits n <> [].
Proof.
  unfold N_to_digits. destruct n as [|p]; simpl; [discriminate|].
  pose proof (DecimalPos.Unsigned.to_uint_nonnil p) as H.
  destruct (Pos.to_uint p); simpl; congruence.
Qed.

Lemma N_to_digits_digits n : forallb is_digit (N_to_digits n) = true.
Proof. apply digits_of_uint_digits. Qed.

(** ** Runs of digits *)

Lemma take_while_digits ds rest :
  forallb is_digit ds = true -> not_digit_next rest = true ->
  take_while is_digit (ds ++ rest) = ds.
Proof.
  intros Hd Hr. induction ds as [|c ds IH]; simpl in *.
  - destruct rest as [|c r]; simpl in *; auto.
    destruct (is_digit c); [discriminate|reflexivity].
  - apply andb_true_iff in Hd. destruct Hd as [-> Hd]. rewrite IH; auto.
Qed.

Lemma drop_while_digits ds rest :
  forallb is_digit ds = true -> not_digit_next rest = true ->
  drop_while is_digit (ds ++ rest) = rest.
Proof.
  intros Hd Hr. induction ds as [|c ds IH]; simpl in *.
  - destruct rest as [|c r]; simpl in *; auto.
    destruct (is_digit c); [discriminate|reflexivity].
  - apply andb_true_iff in Hd. destruct Hd as [-> Hd]. rewrite IH; auto.
Qed.

Lemma ends_number_not_digit rest : ends_number rest = true -> not_digit_next rest = true.
Proof.
  destruct rest as [|c r]; simpl; auto.
  destruct (is_digit c); simpl; auto.
Qed.

(** ** Zeros at both ends *)

Lemma strip_zeros_repeat z s : strip_zeros (repeat 48 z ++ s) = strip_zeros s.
Proof. induction z; simpl; auto. Qed.

Lemma strip_zeros_head d s : (d =? 48) = false -> strip_zeros (d :: s) = d :: s.
Proof. intros H. unfold strip_zeros. simpl. unfold is_zero_digit. rewrite H. reflexivity. Qed.

Lemma rev_repeat {A} (x : A) n : rev (repeat x n) = repeat x n.
Proof.
  induction n; simpl; auto. rewrite IHn.
  clear. induction n; simpl; auto. rewrite IHn. reflexivity.
Qed.

Lemma last_rev_head {A} (l : list A) d : l <> [] -> exists t, rev l = last l d :: t.
Proof.
  intros Hl. destruct (exists_last Hl) as [l' [a ->]].
  rewrite rev_app_distr, last_last. simpl. eauto.
Qed.

Lemma strip_trailing_zeros_normal (ds : jsstring) t :
  ds <> [] -> (last ds 48 =? 48) = false ->
  rev (strip_zeros (rev (ds ++ repeat 48 t))) = ds.
Proof.
  intros Hne Hlast.
  rewrite rev_app_distr, rev_repeat, strip_zeros_repeat.
  destruct (last_rev_head ds 48 Hne) as [tl Htl].
  revert Hlast Htl. generalize (last ds 48). intros l Hl Htl.
  rewrite Htl, (strip_zeros_head _ _ Hl).
  transitivity (rev (rev ds)); [f_equal; symmetry; exact Htl | apply rev_involutive].
Qed.

(** The normal form computed by [mk_number] when the digits are significant
    digits [ds] between [z] leading and [t] trailing zeros. *)
Lemma mk_number_normal neg (intd fracd : jsstring) e (ds : jsstring) z t :
  ds <> [] ->
  (hd 48 ds =? 48) = false ->
  (last ds 48 =? 48) = false ->
  intd ++ fracd = repeat 48 z ++ ds ++ repeat 48 t ->
  mk_number neg intd fracd e
  = mkNumber neg ds (Z.of_nat (length intd) - Z.of_nat z + e).
Proof.
  intros Hne Hhd Hlast Hall. unfold mk_number. cbv zeta. rewrite Hall.
  rewrite strip_zeros_repeat.
  assert (Hs : strip_zeros (ds ++ repeat 48 t) = ds ++ repeat 48 t).
  { destruct ds as [|d ds']; [congruence|]. apply strip_zeros_head. exact Hhd. }
  rewrite Hs, (strip_trailing_zeros_normal ds t Hne Hlast).
  destruct ds as [|d ds']; [congruence|].
  f_equal. rewrite !length_app, repeat_length. lia.
Qed.

Lemma mk_number_zero neg e : mk_number neg [48] [] e = num_zero.
Proof. reflexivity. Qed.

(** ** Number literals read back *)

Lemma parse_frac_absent rest :
  ends_number rest = true -> parse_frac rest = Some ([], rest).
Proof.
  destruct rest as [|c r]; simpl; auto.
  intros H. apply negb_true_iff in H.
  apply orb_false_iff in H. destruct H as [H _].
  apply orb_false_iff in H. destruct H as [H _].
  apply orb_false_iff in H. destruct H as [_ H].
  rewrite H. reflexivity.
Qed.

Lemma parse_exp_absent rest :
  ends_number rest = true -> parse_exp rest = Some (0%Z, rest).
Proof.
  destruct rest as [|c r]; simpl; auto.
  intros H. apply negb_true_iff in H.
  apply orb_false_iff in H. destruct H as [H H69].
  apply orb_false_iff in H. destruct H as [_ H101].
  rewrite H101, H69. reflexivity.
Qed.

Lemma parse_frac_digits (ds rest : jsstring) :
  ds <> [] -> forallb is_digit ds = true -> not_digit_next rest = true ->
  parse_frac (46 :: ds ++ rest) = Some (ds, rest).
Proof.
  intros Hne Hd Hr. unfold parse_frac. cbn [N.eqb Pos.eqb].
  rewrite (take_while_digits ds rest Hd Hr), (drop_while_digits ds rest Hd Hr).
  destruct ds; [congruence|reflexivity].
Qed.

Lemma parse_exp_digits (e : Z) (rest : jsstring) :
  not_digit_next rest = true ->
  parse_exp (101 :: (if (e <? 0)%Z then 45 else 43) :: N_to_digits (Z.abs_N e) ++ rest)
  = Some (e, rest).
Proof.
  intros Hr. unfold parse_exp. cbn [N.eqb Pos.eqb orb].
  pose proof (N_to_digits_nonempty (Z.abs_N e)) as Hne.
  pose proof (N_to_digits_digits (Z.abs_N e)) as Hd.
  pose proof (digits_to_N_to_digits (Z.abs_N e)) as Hv.
  destruct (Z.ltb_spec e 0) as [Hneg|Hpos]; cbn [N.eqb Pos.eqb];
    rewrite (take_while_digits _ rest Hd Hr), (drop_while_digits _ rest Hd Hr);
    destruct (N_to_digits (Z.abs_N e)) as [|c l] eqn:E; try congruence;
    rewrite Hv; do 2 f_equal; lia.
Qed.

Lemma is_digit_not_minus c : is_digit c = true -> (c =? 45) = false.
Proof.
  unfold is_digit. intros H. apply andb_true_iff in H. destruct H as [H _].
  apply N.leb_le in H. apply N.eqb_neq. lia.
Qed.

Lemma forallb_app_digits (a b : jsstring) :
  forallb is_digit a = true -> forallb is_digit b = true ->
  forallb is_digit (a ++ b) = true.
Proof. intros Ha Hb. rewrite forallb_app, Ha, Hb. reflexivity. Qed.

Lemma forallb_repeat_zero n : forallb is_digit (repeat 48 n) = true.
Proof. induction n; simpl; auto. Qed.

Lemma forallb_firstn_digits n (ds : jsstring) :
  forallb is_digit ds = true -> forallb is_digit (firstn n ds) = true.
Proof.
  revert ds. induction n; intros [|c ds]; simpl; auto.
  intros H. apply andb_true_iff in H. destruct H as [-> H]. simpl. auto.
Qed.

Lemma forallb_skipn_digits n (ds : jsstring) :
  forallb is_digit ds = true -> forallb is_digit (skipn n ds) = true.
Proof.
  revert ds. induction n; intros [|c ds]; simpl; auto.
  intros H. apply andb_true_iff in H. destruct H as [_ H]. auto.
Qed.

(** The magnitude printed by [Number::toString] is read back as it was. *)
Lemma parse_magnitude_to_string neg (ds : jsstring) n (rest : jsstring) :
  ds <> [] ->
  forallb is_digit ds = true ->
  (hd 48 ds =? 48) = false ->
  (last ds 48 =? 48) = false ->
  ends_number rest = true ->
  parse_magnitude neg (magnitude_to_string ds n ++ rest)
  = Some (mkNumber neg ds n, rest).
Proof.
  intros Hne Hd Hhd Hlast Hrest.
  pose proof (ends_number_not_digit rest Hrest) as Hnd.
  destruct ds as [|d1 ds']; [congruence|].
  cbn [hd] in Hhd.
  assert (Hd1 : is_digit d1 = true /\ forallb is_digit ds' = true).
  { cbn [forallb] in Hd. apply andb_true_iff in Hd. exact Hd. }
  destruct Hd1 as [Hd1 Hds'].
  unfold magnitude_to_string.
  set (ds := d1 :: ds') in *.
  set (k := Z.of_nat (length ds)).
  assert (Hk : k = (1 + Z.of_nat (length ds'))%Z) by (unfold k, ds; cbn [length]; lia).
  cbv zeta.
  destruct ((k <=? n) && (n <=? 21))%Z eqn:HA.
  { (* digits followed by zeros *)
    apply andb_true_iff in HA. destruct HA as [HA1 HA2].
    apply Z.leb_le in HA1.
    unfold ds. rewrite <- !app_assoc. cbn [app].
    unfold parse_magnitude. rewrite Hhd, Hd1.
    rewrite app_assoc.
    rewrite (take_while_digits (ds' ++ repeat 48 (Z.to_nat (n - k))) rest),
            (drop_while_digits (ds' ++ repeat 48 (Z.to_nat (n - k))) rest);
      auto using forallb_app_digits, forallb_repeat_zero.
    rewrite (parse_frac_absent rest Hrest), (parse_exp_absent rest Hrest).
    rewrite (mk_number_normal neg _ [] 0%Z ds 0 (Z.to_nat (n - k)));
      try assumption; try discriminate.
    - cbn [length]. rewrite length_app, repeat_length. do 3 f_equal. lia.
    - rewrite app_nil_r. reflexivity. }
  destruct ((0 <? n) && (n <=? 21))%Z eqn:HB.
  { (* digits with a point inside *)
    apply andb_true_iff in HB. destruct HB as [HB1 HB2].
    apply Z.ltb_lt in HB1. apply Z.leb_le in HB2.
    assert (Hnk : (n < k)%Z).
    { apply andb_false_iff in HA. destruct HA as [HA|HA].
      - apply Z.leb_gt in HA. exact HA.
      - apply Z.leb_gt in HA. lia. }
    destruct (Z.to_nat n) as [|m] eqn:Hm; [lia|].
    unfold ds. cbn [firstn skipn]. rewrite <- !app_assoc. cbn [app].
    unfold parse_magnitude. rewrite Hhd, Hd1.
    rewrite take_while_digits, drop_while_digits
      by (auto using forallb_firstn_digits).
    assert (Hsk : skipn m ds' <> []).
    { intros E. apply (f_equal (@length _)) in E. rewrite length_skipn in E.
      cbn [length] in E. lia. }
    rewrite parse_frac_digits by (auto using forallb_skipn_digits).
    rewrite (parse_exp_absent rest Hrest).
    rewrite (mk_number_normal neg _ _ 0%Z ds 0 0); try assumption; try discriminate.
    - cbn [length]. rewrite length_firstn. do 3 f_equal. lia.
    - unfold ds. cbn [repeat app]. rewrite app_nil_r.
      change ((d1 :: firstn m ds') ++ skipn m ds') with (d1 :: (firstn m ds' ++ skipn m ds')).
      rewrite firstn_skipn. reflexivity. }
  destruct ((-6 <? n) && (n <=? 0))%Z eqn:HC.
  { (* a leading 0. *)
    apply andb_true_iff in HC. destruct HC as [HC1 HC2].
    apply Z.leb_le in HC2.
    cbn [app]. unfold parse_magnitude. cbn [N.eqb Pos.eqb].
    assert (Hzd : repeat 48 (Z.to_nat (- n)) ++ ds <> []).
    { unfold ds. destruct (repeat 48 (Z.to_nat (- n))); discriminate. }
    rewrite parse_frac_digits
      by (auto using forallb_app_digits, forallb_repeat_zero).
    rewrite (parse_exp_absent rest Hrest).
    rewrite (mk_number_normal neg _ _ 0%Z ds (S (Z.to_nat (- n))) 0);
      try assumption; try discriminate.
    - cbn [length]. do 3 f_equal. lia.
    - cbn [repeat app]. rewrite app_nil_r. reflexivity. }
  (* exponent notation *)
  destruct ds' as [|d2 ds''].
  - cbn [app]. unfold parse_magnitude. rewrite Hhd, Hd1.
    cbn [take_while drop_while is_digit N.leb N.compare Pos.compare Pos.compare_cont andb].
    change (take_while is_digit (101 :: ?x)) with (@nil code_unit).
    cbn [parse_frac N.eqb Pos.eqb].
    rewrite parse_exp_digits by exact Hnd.
    rewrite (mk_number_normal neg _ _ (n - 1)%Z ds 0 0); try assumption; try discriminate.
    + cbn [length]. do 3 f_equal. lia.
    + reflexivity.
  - cbn [app]. unfold parse_magnitude. rewrite Hhd, Hd1.
    cbn [take_while drop_while is_digit N.leb N.compare Pos.compare Pos.compare_cont andb].
    rewrite <- app_assoc. cbn [app].
    rewrite app_comm_cons.
    rewrite parse_frac_digits by (try assumption; try discriminate; reflexivity).
    rewrite parse_exp_digits by exact Hnd.
    rewrite (mk_number_normal neg _ _ (n - 1)%Z ds 0 0); try assumption; try discriminate.
    + cbn [length]. do 3 f_equal. lia.
    + unfold ds. cbn [repeat app]. rewrite app_nil_r. reflexivity.
Qed.

Lemma magnitude_first (ds : jsstring) n :
  ds <> [] -> forallb is_digit ds = true ->
  exists c t, magnitude_to_string ds n = c :: t /\ is_digit c = true.
Proof.
  intros Hne Hd. destruct ds as [|d1 ds']; [congruence|].
  cbn [forallb] in Hd. apply andb_true_iff in Hd. destruct Hd as [Hd1 _].
  unfold magnitude_to_string. cbv zeta.
  destruct ((Z.of_nat (length (d1 :: ds')) <=? n)%Z && (n <=? 21)%Z);
    [cbn [app]; eauto|].
  destruct ((0 <? n)%Z && (n <=? 21)%Z) eqn:HB.
  { apply andb_true_iff in HB. destruct HB as [HB _]. apply Z.ltb_lt in HB.
    destruct (Z.to_nat n) eqn:Hn; [lia|]. cbn [firstn app]. eauto. }
  destruct ((-6 <? n)%Z && (n <=? 0)%Z); [cbn [app]; eauto|].
  destruct ds'; cbn [app]; eauto.
Qed.

Lemma wf_number_cases x :
  wf_number x = true ->
  x = num_zero
  \/ (digits x <> [] /\ forallb is_digit (digits x) = true
      /\ (hd 48 (digits x) =? 48) = false /\ (last (digits x) 48 =? 48) = false).
Proof.
  unfold wf_number. destruct x as [neg ds n]. cbn [digits negative pointpos].
  destruct ds as [|d ds'].
  - intros H. apply andb_true_iff in H. destruct H as [H1 H2].
    apply negb_true_iff in H1. apply Z.eqb_eq in H2. subst. left. reflexivity.
  - intros H. apply andb_true_iff in H. destruct H as [H H3].
    apply andb_true_iff in H. destruct H as [H1 H2].
    apply negb_true_iff in H2, H3. right. repeat split; auto. discriminate.
Qed.

(** A number in normal form is read back from its [Number::toString]. *)
Lemma parse_number_to_string x (rest : jsstring) :
  wf_number x = true -> ends_number rest = true ->
  parse_number (number_to_string x ++ rest) = Some (x, rest).
Proof.
  intros Hwf Hrest. destruct (wf_number_cases x Hwf) as [->|(Hne & Hd & Hhd & Hlast)].
  - cbn [number_to_string num_zero digits app]. unfold parse_number, parse_magnitude.
    cbn [N.eqb Pos.eqb].
    rewrite (parse_frac_absent rest Hrest), (parse_exp_absent rest Hrest). reflexivity.
  - destruct x as [neg ds n]. cbn [digits] in *.
    unfold number_to_string. cbn [digits negative pointpos].
    destruct ds as [|d ds'] eqn:Eds; [congruence|]. rewrite <- Eds in *.
    destruct neg.
    + cbn [app]. unfold parse_number. cbn [N.eqb Pos.eqb].
      apply parse_magnitude_to_string; auto.
    + destruct (magnitude_first ds n Hne Hd) as (c & t & Hm & Hc).
      pose proof (parse_magnitude_to_string false ds n rest Hne Hd Hhd Hlast Hrest) as H.
      rewrite Hm in *. cbn [app] in *. unfold parse_number.
      rewrite (is_digit_not_minus c Hc). exact H.
Qed.

(** ** String literals read back *)

Lemma hex_val_digit n : n < 16 -> hex_val (hex_digit n) = Some n.
Proof.
  intros Hn. unfold hex_val, hex_digit, is_digit.
  destruct (N.ltb_spec n 10).
  - replace ((48 <=? 48 + n) && (48 + n <=? 57)) with true.
    + f_equal. lia.
    + symmetry. apply andb_true_iff. split; apply N.leb_le; lia.
  - replace ((48 <=? 87 + n) && (87 + n <=? 57)) with false.
    + replace ((97 <=? 87 + n) && (87 + n <=? 102)) with true.
      * f_equal. lia.
      * symmetry. apply andb_true_iff. split; apply N.leb_le; lia.
    + symmetry. apply andb_false_iff. right. apply N.leb_gt. lia.
Qed.

Lemma hex4_unicode c :
  c < 65536 ->
  hex4 (hex_digit ((c / 4096) mod 16)) (hex_digit ((c / 256) mod 16))
       (hex_digit ((c / 16) mod 16)) (hex_digit (c mod 16)) = Some c.
Proof.
  intros Hc. unfold hex4.
  rewrite !hex_val_digit by (apply N.mod_lt; discriminate).
  f_equal.
  pose proof (N.div_mod c 16 ltac:(discriminate)) as H1.
  pose proof (N.div_mod (c / 16) 16 ltac:(discriminate)) as H2.
  pose proof (N.div_mod (c / 256) 16 ltac:(discriminate)) as H3.
  assert (E256 : c / 256 = (c / 16) / 16) by (rewrite N.Div0.div_div; reflexivity).
  assert (E4096 : c / 4096 = (c / 256) / 16) by (rewrite N.Div0.div_div; reflexivity).
  assert (Hs : c / 4096 < 16) by (apply N.Div0.div_lt_upper_bound; exact Hc).
  rewrite (N.mod_small (c / 4096) 16 Hs).
  rewrite <- E256 in H2. rewrite <- E4096 in H3.
  lia.
Qed.

Lemma parse_unicode_escape c (t : jsstring) :
  c < 65536 ->
  parse_string_body (unicode_escape c ++ t) = cons_parsed c (parse_string_body t).
Proof.
  intros Hc. unfold unicode_escape. cbn [app parse_string_body N.eqb Pos.eqb].
  rewrite (hex4_unicode c Hc). reflexivity.
Qed.

Lemma parse_verbatim c (t : jsstring) :
  (c =? 34) = false -> (c =? 92) = false -> (c <? 32) = false ->
  parse_string_body (c :: t) = cons_parsed c (parse_string_body t).
Proof.
  intros H1 H2 H3. cbn [parse_string_body]. rewrite H1, H2, H3. reflexivity.
Qed.

Lemma parse_escape_unit c (t : jsstring) :
  parse_string_body (escape_unit c ++ t) = cons_parsed c (parse_string_body t).
Proof.
  unfold escape_unit.
  repeat match goal with
         | |- context [if N.eqb c ?k then _ else _] =>
             destruct (N.eqb_spec c k) as [->|?]; [reflexivity|]
         end.
  destruct (N.ltb_spec c 32).
  - apply parse_unicode_escape. lia.
  - apply parse_verbatim.
    + apply N.eqb_neq; assumption.
    + apply N.eqb_neq; assumption.
    + apply N.ltb_ge; assumption.
Qed.

Lemma surrogate_bounds c :
  is_high_surrogate c = true \/ is_low_surrogate c = true ->
  c < 65536 /\ (c =? 34) = false /\ (c =? 92) = false /\ (c <? 32) = false.
Proof.
  unfold is_high_surrogate, is_low_surrogate.
  intros [H|H]; apply andb_true_iff in H; destruct H as [H1 H2];
    apply N.leb_le in H1, H2;
    repeat split; try lia; try (apply N.eqb_neq; lia); apply N.ltb_ge; lia.
Qed.

Lemma parse_quote_units_length n : forall (s rest : jsstring),
  (length s <= n)%nat ->
  parse_string_body (quote_units s ++ 34 :: rest) = Some (s, rest).
Proof.
  induction n as [|n IH]; intros s rest Hlen.
  - destruct s; [reflexivity|simpl in Hlen; lia].
  - destruct s as [|c r]; [reflexivity|]. cbn [length] in Hlen.
    cbn [quote_units].
    destruct (is_high_surrogate c) eqn:Hh.
    + destruct (surrogate_bounds c (or_introl Hh)) as (Hc & H34 & H92 & H32).
      destruct r as [|d r'].
      * rewrite (parse_unicode_escape c _ Hc). reflexivity.
      * destruct (is_low_surrogate d) eqn:Hl.
        -- destruct (surrogate_bounds d (or_intror Hl)) as (Hd & D34 & D92 & D32).
           cbn [app]. rewrite (parse_verbatim c _ H34 H92 H32).
           rewrite (parse_verbatim d _ D34 D92 D32).
           rewrite (IH r' rest) by (cbn [length] in Hlen; lia). reflexivity.
        -- rewrite <- app_assoc, (parse_unicode_escape c _ Hc).
           rewrite (IH (d :: r') rest) by lia. reflexivity.
    + destruct (is_low_surrogate c) eqn:Hl.
      * destruct (surrogate_bounds c (or_intror Hl)) as (Hc & _).
        rewrite <- app_assoc, (parse_unicode_escape c _ Hc).
        rewrite (IH r rest) by lia. reflexivity.
      * rewrite <- app_assoc, parse_escape_unit.
        rewrite (IH r rest) by lia. reflexivity.
Qed.

(** A string is read back from its [QuoteJSONString]. *)
Lemma parse_quote (s rest : jsstring) :
  parse_string_body (quote_units s ++ 34 :: rest) = Some (s, rest).
Proof. apply (parse_quote_units_length (length s)). apply le_n. Qed.

(** ** Values read back *)

Lemma json_induction (P : json -> Prop) :
  P JNull ->
  (forall b, P (JBool b)) ->
  (forall n, P (JNum n)) ->
  (forall s, P (JStr s)) ->
  (forall l, Forall P l -> P (JArr l)) ->
  (forall kvs, Forall (fun kv => P (snd kv)) kvs -> P (JObj kvs)) ->
  forall v, P v.
Proof.
  intros Hnull Hbool Hnum Hstr Harr Hobj.
  fix IH 1. intros [|b|n|s|l|kvs];
    [exact Hnull | apply Hbool | apply Hnum | apply Hstr | | ].
  - apply Harr. induction l as [|x l IHl]; constructor; [apply IH|exact IHl].
  - apply Hobj. induction kvs as [|[k x] kvs IHl]; constructor; [apply IH|exact IHl].
Qed.

Lemma number_first x :
  wf_number x = true ->
  exists c t, number_to_string x = c :: t /\ ((c =? 45) || is_digit c) = true.
Proof.
  intros Hwf. destruct (wf_number_cases x Hwf) as [->|(Hne & Hd & _)].
  - exists 48, []. split; reflexivity.
  - unfold number_to_string. destruct (digits x) as [|d ds'] eqn:E; [congruence|].
    rewrite <- E in *.
    destruct (magnitude_first (digits x) (pointpos x) Hne Hd) as (c & t & Hm & Hc).
    destruct (negative x).
    + exists 45, (magnitude_to_string (digits x) (pointpos x)). split; reflexivity.
    + exists c, t. split; [exact Hm|]. rewrite Hc. apply orb_true_r.
Qed.

Lemma number_start_branch c :
  ((c =? 45) || is_digit c) = true ->
  is_json_ws c = false /\ (c =? 123) = false /\ (c =? 91) = false /\ (c =? 34) = false
  /\ (c =? 93) = false /\ (c =? 125) = false.
Proof.
  unfold is_json_ws, is_digit. intros H.
  assert (Hc : c = 45 \/ (48 <= c /\ c <= 57)).
  { apply orb_true_iff in H. destruct H as [H|H].
    - apply N.eqb_eq in H. auto.
    - apply andb_true_iff in H. destruct H as [H1 H2]. apply N.leb_le in H1, H2. auto. }
  repeat split;
    repeat match goal with
           | |- (_ || _) = false => apply orb_false_iff; split
           | |- (_ =? _) = false => apply N.eqb_neq; lia
           end.
Qed.

(** The first unit of a printed value is no white space and closes
    nothing. *)
Lemma stringify_first v :
  wf_json v = true ->
  exists c t, JSON_stringify v = c :: t /\ is_json_ws c = false
              /\ (c =? 93) = false /\ (c =? 125) = false.
Proof.
  destruct v as [|[|]|n|s|l|kvs]; intros Hwf; cbn [JSON_stringify str quote app];
    try (eexists _, _; repeat split; reflexivity).
  cbn [wf_json] in Hwf. destruct (number_first n Hwf) as (c & t & Hn & Hc).
  destruct (number_start_branch c Hc) as (H1 & _ & _ & _ & H2 & H3).
  exists c, t. auto.
Qed.

Lemma skip_ws_first c (t : jsstring) : is_json_ws c = false -> skip_ws (c :: t) = c :: t.
Proof. intros H. unfold skip_ws. cbn [drop_while]. rewrite H. reflexivity. Qed.

Lemma join_cons2 (sep a b : jsstring) r :
  join sep (a :: b :: r) = a ++ sep ++ join sep (b :: r).
Proof. reflexivity. Qed.

Ltac side_conditions := first [assumption | reflexivity | lia].

(** Rewriting with an equation [f a = r] whose left side is found in the
    goal up to conversion only. *)
Ltac rewrite_call H :=
  match type of H with
  | ?f ?a = ?r =>
      match goal with
      | |- context [f ?x] => replace (f x) with r by (symmetry; exact H)
      end
  end.

Lemma parse_elements_join l :
  l <> [] ->
  Forall reads_back l ->
  forallb wf_json l = true ->
  forall fuel (rest : jsstring),
    (elements_fuel l <= fuel)%nat ->
    parse_elements fuel (join [44] (map JSON_stringify l) ++ 93 :: rest)
    = Some (l, rest).
Proof.
  intros Hne HF. induction HF as [|v l Hv HF IH]; [congruence|].
  intros Hwf fuel rest Hfuel. unfold reads_back in Hv.
  cbn [forallb] in Hwf. apply andb_true_iff in Hwf. destruct Hwf as [Hwv Hwl].
  cbn [elements_fuel fold_right] in Hfuel. fold (elements_fuel l) in Hfuel.
  destruct fuel as [|f]; [lia|].
  destruct l as [|v2 l'].
  - cbn [map join parse_elements].
    rewrite Hv by side_conditions. reflexivity.
  - cbn [map]. rewrite join_cons2.
    change (JSON_stringify v2 :: map JSON_stringify l')
      with (map JSON_stringify (v2 :: l')).
    rewrite <- !app_assoc. cbn [parse_elements].
    rewrite Hv by side_conditions.
    cbn [app skip_ws drop_while is_json_ws N.eqb Pos.eqb orb].
    rewrite IH by (first [discriminate | side_conditions]).
    reflexivity.
Qed.

Lemma parse_members_join kvs :
  kvs <> [] ->
  Forall (fun kv => reads_back (snd kv)) kvs ->
  forallb (fun kv => wf_json (snd kv)) kvs = true ->
  forall fuel (rest : jsstring),
    (members_fuel kvs <= fuel)%nat ->
    parse_members fuel (join [44] (map member_text kvs) ++ 125 :: rest)
    = Some (kvs, rest).
Proof.
  intros Hne HF. induction HF as [|[k v] kvs Hv HF IH]; [congruence|].
  intros Hwf fuel rest Hfuel. unfold reads_back in Hv.
  cbn [forallb snd] in Hwf. apply andb_true_iff in Hwf. destruct Hwf as [Hwv Hwl].
  cbn [members_fuel fold_right snd] in Hfuel. fold (members_fuel kvs) in Hfuel.
  cbn [snd] in Hv.
  destruct fuel as [|f]; [lia|].
  destruct kvs as [|kv2 kvs'].
  - cbn [map join]. unfold member_text, quote. cbn [fst snd].
    rewrite <- !app_assoc. cbn [app parse_members].
    cbn [skip_ws drop_while is_json_ws N.eqb Pos.eqb orb].
    rewrite parse_quote.
    cbn [skip_ws drop_while is_json_ws N.eqb Pos.eqb orb].
    rewrite Hv by side_conditions. reflexivity.
  - cbn [map]. rewrite join_cons2.
    change (member_text kv2 :: map member_text kvs')
      with (map member_text (kv2 :: kvs')).
    unfold member_text at 1. unfold quote. cbn [fst snd].
    rewrite <- !app_assoc. cbn [app parse_members].
    cbn [skip_ws drop_while is_json_ws N.eqb Pos.eqb orb].
    rewrite parse_quote.
    cbn [skip_ws drop_while is_json_ws N.eqb Pos.eqb orb].
    rewrite Hv by side_conditions.
    cbn [skip_ws drop_while is_json_ws N.eqb Pos.eqb orb].
    rewrite IH by (first [discriminate | side_conditions]).
    reflexivity.
Qed.

Lemma join_first_element v l :
  wf_json v = true ->
  exists c t, join [44] (map JSON_stringify (v :: l)) = c :: t
              /\ is_json_ws c = false /\ (c =? 93) = false.
Proof.
  intros Hwf. destruct (stringify_first v Hwf) as (c & t & Hs & Hws & H93 & _).
  destruct l as [|v2 l']; [cbn [map join] | cbn [map]; rewrite join_cons2];
    rewrite Hs; cbn [app]; eauto.
Qed.

Lemma join_first_member kv kvs :
  exists t, join [44] (map member_text (kv :: kvs)) = 34 :: t.
Proof.
  destruct kvs as [|kv2 kvs']; [cbn [map join] | cbn [map]; rewrite join_cons2];
    unfold member_text at 1; unfold quote; rewrite <- !app_assoc; cbn [app];
    eexists; reflexivity.
Qed.

Lemma reads_back_all v : reads_back v.
Proof.
  induction v as [|b|n|s|l IHl|kvs IHkvs] using json_induction;
    intros Hwf fuel rest Hfuel Hrest;
    (destruct fuel as [|f]; [cbn [fuel_of] in Hfuel; lia|]).
  - reflexivity.
  - destruct b; reflexivity.
  - cbn [wf_json] in Hwf. cbn [JSON_stringify].
    destruct (number_first n Hwf) as (c & t & Hn & Hc).
    destruct (number_start_branch c Hc) as (Hws & H123 & H91 & H34 & _).
    pose proof (parse_number_to_string n rest Hwf Hrest) as Hp.
    rewrite Hn in *. cbn [app] in *. cbn [parse_value].
    rewrite (skip_ws_first c _ Hws). cbv beta iota.
    rewrite H123, H91, H34, Hc. rewrite_call Hp. reflexivity.
  - cbn [JSON_stringify]. unfold quote. rewrite <- !app_assoc.
    cbn [app parse_value skip_ws drop_while is_json_ws N.eqb Pos.eqb orb].
    rewrite parse_quote. reflexivity.
  - cbn [wf_json] in Hwf. cbn [fuel_of] in Hfuel. fold (elements_fuel l) in Hfuel.
    cbn [JSON_stringify]. rewrite <- !app_assoc.
    cbn [app parse_value skip_ws drop_while is_json_ws N.eqb Pos.eqb orb].
    destruct l as [|v l'].
    + reflexivity.
    + cbn [forallb] in Hwf. pose proof Hwf as Hwf'.
      apply andb_true_iff in Hwf'. destruct Hwf' as [Hwv _].
      destruct (join_first_element v l' Hwv) as (c & t & Hj & Hws & H93).
      pose proof (parse_elements_join (v :: l') ltac:(discriminate) IHl Hwf f rest
                    ltac:(lia)) as Hp.
      rewrite Hj in *. cbn [app] in *.
      fold skip_ws. rewrite (skip_ws_first c _ Hws). cbv beta iota.
      rewrite H93. rewrite_call Hp. reflexivity.
  - cbn [wf_json] in Hwf. cbn [fuel_of] in Hfuel. fold (members_fuel kvs) in Hfuel.
    cbn [JSON_stringify]. fold member_text. rewrite <- !app_assoc.
    cbn [app parse_value skip_ws drop_while is_json_ws N.eqb Pos.eqb orb].
    destruct kvs as [|kv kvs'].
    + reflexivity.
    + destruct (join_first_member kv kvs') as (t & Hj).
      pose proof (parse_members_join (kv :: kvs') ltac:(discriminate) IHkvs Hwf f rest
                    ltac:(lia)) as Hp.
      assert (E : skip_ws (join [44] (map member_text (kv :: kvs')) ++ 125 :: rest)
                  = 34 :: t ++ 125 :: rest) by (rewrite Hj; reflexivity).
      rewrite Hj in Hp. cbn [app] in Hp.
      fold skip_ws. rewrite_call E. cbv beta iota. cbn [N.eqb Pos.eqb].
      rewrite_call Hp. reflexivity.
Qed.

(** ** The fuel that reads a print back *)

Lemma magnitude_nonempty (ds : jsstring) n : magnitude_to_string ds n <> [].
Proof.
  unfold magnitude_to_string. destruct ds as [|d1 ds']; [discriminate|]. cbv zeta.
  destruct ((Z.of_nat (length (d1 :: ds')) <=? n)%Z && (n <=? 21)%Z); [discriminate|].
  destruct ((0 <? n)%Z && (n <=? 21)%Z).
  { destruct (firstn (Z.to_nat n) (d1 :: ds')); discriminate. }
  destruct ((-6 <? n)%Z && (n <=? 0)%Z); [discriminate|].
  destruct ds'; discriminate.
Qed.

Lemma number_to_string_nonempty x : number_to_string x <> [].
Proof.
  unfold number_to_string. destruct (digits x) as [|d ds']; [discriminate|].
  destruct (negative x); [discriminate|]. apply magnitude_nonempty.
Qed.

Lemma stringify_nonempty v : (1 <= length (JSON_stringify v))%nat.
Proof.
  destruct v as [|[|]|n|s|l|kvs]; cbn [JSON_stringify str quote app length]; try lia.
  pose proof (number_to_string_nonempty n). destruct (number_to_string n); simpl; [congruence|lia].
Qed.

Lemma elements_fuel_bound l :
  l <> [] ->
  Forall (fun v => (fuel_of v <= 2 * length (JSON_stringify v))%nat) l ->
  (elements_fuel l <= 2 * length (join [44%N] (map JSON_stringify l)) + 1)%nat.
Proof.
  intros Hne HF. induction HF as [|v l Hv HF IH]; [congruence|].
  cbn [elements_fuel fold_right]. fold (elements_fuel l).
  destruct l as [|v2 l'].
  - cbn [elements_fuel fold_right map join]. lia.
  - specialize (IH ltac:(discriminate)).
    cbn [map]. rewrite join_cons2.
    change (JSON_stringify v2 :: map JSON_stringify l')
      with (map JSON_stringify (v2 :: l')).
    rewrite !length_app. cbn [length]. lia.
Qed.

Lemma members_fuel_bound kvs :
  kvs <> [] ->
  Forall (fun kv => (fuel_of (snd kv) <= 2 * length (JSON_stringify (snd kv)))%nat) kvs ->
  (members_fuel kvs <= 2 * length (join [44%N] (map member_text kvs)) + 1)%nat.
Proof.
  intros Hne HF. induction HF as [|kv kvs Hv HF IH]; [congruence|].
  cbn [members_fuel fold_right]. fold (members_fuel kvs).
  assert (Hm : (length (JSON_stringify (snd kv)) <= length (member_text kv))%nat).
  { unfold member_text. rewrite !length_app. unfold jsstring, code_unit in *. lia. }
  cbv beta in Hv.
  destruct kvs as [|kv2 kvs'].
  - cbn [members_fuel fold_right map join]. lia.
  - specialize (IH ltac:(discriminate)).
    cbn [map]. rewrite join_cons2.
    change (member_text kv2 :: map member_text kvs')
      with (map member_text (kv2 :: kvs')).
    rewrite !length_app. cbn [length]. lia.
Qed.

Lemma fuel_of_bound v : (fuel_of v <= 2 * length (JSON_stringify v))%nat.
Proof.
  induction v as [|b|n|s|l IHl|kvs IHkvs] using json_induction.
  - pose proof (stringify_nonempty JNull). cbn [fuel_of]. lia.
  - pose proof (stringify_nonempty (JBool b)). cbn [fuel_of]. lia.
  - pose proof (stringify_nonempty (JNum n)). cbn [fuel_of]. lia.
  - pose proof (stringify_nonempty (JStr s)). cbn [fuel_of]. lia.
  - cbn [fuel_of JSON_stringify]. fold (elements_fuel l).
    rewrite !length_app. cbn [length].
    destruct l as [|v l']; [cbn; lia|].
    pose proof (elements_fuel_bound (v :: l') ltac:(discriminate) IHl).
    unfold jsstring, code_unit in *. lia.
  - cbn [fuel_of JSON_stringify]. fold (members_fuel kvs). fold member_text.
    rewrite !length_app. cbn [length].
    destruct kvs as [|kv kvs']; [cbn; lia|].
    pose proof (members_fuel_bound (kv :: kvs') ltac:(discriminate) IHkvs).
    unfold jsstring, code_unit in *. lia.
Qed.

(** [JSON.parse(JSON.stringify(v))] is [v]. *)
Lemma JSON_parse_stringify v :
  wf_json v = true -> JSON_parse (JSON_stringify v) = Some v.
Proof.
  intros Hwf. unfold JSON_parse.
  pose proof (reads_back_all v Hwf (2 * length (JSON_stringify v) + 2)%nat []
                ltac:(pose proof (fuel_of_bound v); lia) eq_refl) as H.
  rewrite app_nil_r in H. rewrite H. reflexivity.
Qed.

(** ** What JSON.parse yields is in normal form *)

Lemma forallb_drop_while p q (s : jsstring) :
  forallb p s = true -> forallb p (drop_while q s) = true.
Proof.
  induction s as [|c s IH]; simpl; auto.
  intros H. apply andb_true_iff in H. destruct H as [Hc Hs].
  destruct (q c); auto. simpl. rewrite Hc, Hs. reflexivity.
Qed.

Lemma forallb_rev {A} (p : A -> bool) l : forallb p l = true -> forallb p (rev l) = true.
Proof.
  intros H. apply forallb_forall. intros x Hx. apply in_rev in Hx.
  rewrite forallb_forall in H. auto.
Qed.

Lemma forallb_take_while p (s : jsstring) : forallb p (take_while p s) = true.
Proof.
  induction s as [|c s IH]; simpl; auto.
  destruct (p c) eqn:Hc; simpl; auto. rewrite Hc. exact IH.
Qed.

Lemma strip_zeros_head_nonzero (s : jsstring) :
  match strip_zeros s with
  | [] => True
  | d :: _ => (d =? 48) = false
  end.
Proof.
  unfold strip_zeros. induction s as [|c s IH]; simpl; auto.
  unfold is_zero_digit at 1. destruct (c =? 48) eqn:Hc; auto.
Qed.

Lemma mk_number_wf neg (intd fracd : jsstring) e :
  forallb is_digit intd = true -> forallb is_digit fracd = true ->
  wf_number (mk_number neg intd fracd e) = true.
Proof.
  intros Hi Hf. unfold mk_number. cbv zeta.
  set (sig := strip_zeros (intd ++ fracd)).
  assert (Hsig : forallb is_digit sig = true).
  { apply forallb_drop_while. rewrite forallb_app, Hi, Hf. reflexivity. }
  pose proof (strip_zeros_head_nonzero (intd ++ fracd)) as Hhead. fold sig in Hhead.
  pose proof (strip_zeros_head_nonzero (rev sig)) as Hlast.
  destruct (drop_while_suffix is_zero_digit (rev sig)) as [zs Hzs].
  fold (strip_zeros (rev sig)) in Hzs.
  destruct (strip_zeros (rev sig)) as [|d t] eqn:Hu.
  - reflexivity.
  - assert (Hds : forallb is_digit (rev (d :: t)) = true).
    { apply forallb_rev. rewrite <- Hu. apply forallb_drop_while, forallb_rev, Hsig. }
    assert (Hsplit : sig = rev (d :: t) ++ rev zs).
    { rewrite <- rev_app_distr, <- Hzs, rev_involutive. reflexivity. }
    destruct (rev (d :: t)) as [|h tl] eqn:Hr.
    { apply (f_equal (@length _)) in Hr. rewrite length_rev in Hr. discriminate. }
    unfold wf_number. cbn [digits].
    rewrite Hds. cbn [andb].
    assert (Hh : (h =? 48) = false).
    { rewrite Hsplit in Hhead. exact Hhead. }
    rewrite Hh. cbn [negb andb].
    assert (Hl : last (h :: tl) 48 = d).
    { rewrite <- Hr. cbn [rev]. apply last_last. }
    rewrite Hl, Hlast. reflexivity.
Qed.

Lemma parse_frac_digits_only s ds r :
  parse_frac s = Some (ds, r) -> forallb is_digit ds = true.
Proof.
  unfold parse_frac. destruct s as [|c t].
  - intros H; injection H as <- <-. reflexivity.
  - destruct (c =? 46).
    + pose proof (forallb_take_while is_digit t) as Ht.
      destruct (take_while is_digit t); [discriminate|].
      intros H; injection H as <- <-. exact Ht.
    + intros H; injection H as <- <-. reflexivity.
Qed.

Lemma parse_magnitude_wf neg s n r :
  parse_magnitude neg s = Some (n, r) -> wf_number n = true.
Proof.
  unfold parse_magnitude. destruct s as [|c t]; [discriminate|].
  assert (Hint : forall intd s2,
             (if c =? 48 then Some ([c], t)
              else if is_digit c
                   then Some (c :: take_while is_digit t, drop_while is_digit t)
                   else None) = Some (intd, s2) ->
             forallb is_digit intd = true).
  { intros intd s2. destruct (N.eqb_spec c 48) as [->|_].
    - intros H; injection H as <- <-. reflexivity.
    - destruct (is_digit c) eqn:Hc; [|discriminate].
      intros H; injection H as <- <-. cbn [forallb]. rewrite Hc.
      apply forallb_take_while. }
  destruct (if c =? 48 then _ else _) as [[intd s2]|]; [|discriminate].
  specialize (Hint intd s2 eq_refl).
  destruct (parse_frac s2) as [[fracd s3]|] eqn:Hf; [|discriminate].
  destruct (parse_exp s3) as [[e s4]|]; [|discriminate].
  intros H; injection H as <- <-.
  apply mk_number_wf; auto. eapply parse_frac_digits_only; eauto.
Qed.

Lemma parse_number_wf s n r : parse_number s = Some (n, r) -> wf_number n = true.
Proof.
  unfold parse_number. destruct s as [|c t]; [discriminate|].
  destruct (c =? 45); apply parse_magnitude_wf.
Qed.

Lemma parse_wf fuel :
  (forall s v r, parse_value fuel s = Some (v, r) -> wf_json v = true)
  /\ (forall s l r, parse_elements fuel s = Some (l, r) -> forallb wf_json l = true)
  /\ (forall s kvs r, parse_members fuel s = Some (kvs, r) ->
        forallb (fun kv => wf_json (snd kv)) kvs = true).
Proof.
  induction fuel as [|f (IHv & IHe & IHm)].
  - repeat split; intros; discriminate.
  - split; [|split].
    + intros s v r. cbn [parse_value].
      destruct (skip_ws s) as [|c t]; [discriminate|].
      destruct (c =? 123).
      { destruct (skip_ws t) as [|d t']; [discriminate|].
        destruct (d =? 125); [intros H; injection H as <- <-; reflexivity|].
        destruct (parse_members f (d :: t')) as [[kvs rest]|] eqn:Hm; [|discriminate].
        intros H; injection H as <- <-. cbn [wf_json]. eapply IHm; eauto. }
      destruct (c =? 91).
      { destruct (skip_ws t) as [|d t']; [discriminate|].
        destruct (d =? 93); [intros H; injection H as <- <-; reflexivity|].
        destruct (parse_elements f (d :: t')) as [[l rest]|] eqn:He; [|discriminate].
        intros H; injection H as <- <-. cbn [wf_json]. eapply IHe; eauto. }
      destruct (c =? 34).
      { destruct (parse_string_body t) as [[x rest]|]; [|discriminate].
        intros H; injection H as <- <-. reflexivity. }
      destruct ((c =? 45) || is_digit c).
      { destruct (parse_number (c :: t)) as [[n rest]|] eqn:Hn; [|discriminate].
        intros H; injection H as <- <-. cbn [wf_json]. eapply parse_number_wf; eauto. }
      unfold parse_literal.
      destruct (c =? 116).
      { destruct (starts_with (str "true") (c :: t)); [|discriminate].
        intros H; injection H as <- <-. reflexivity. }
      destruct (c =? 102).
      { destruct (starts_with (str "false") (c :: t)); [|discriminate].
        intros H; injection H as <- <-. reflexivity. }
      destruct (c =? 110); [|discriminate].
      destruct (starts_with (str "null") (c :: t)); [|discriminate].
      intros H; injection H as <- <-. reflexivity.
    + intros s l r. cbn [parse_elements].
      destruct (parse_value f s) as [[v r1]|] eqn:Hv; [|discriminate].
      destruct (skip_ws r1) as [|c t]; [discriminate|].
      destruct (c =? 44).
      { destruct (parse_elements f t) as [[l' rest]|] eqn:He; [|discriminate].
        intros H; injection H as <- <-. cbn [forallb].
        rewrite (IHv _ _ _ Hv), (IHe _ _ _ He). reflexivity. }
      destruct (c =? 93); [|discriminate].
      intros H; injection H as <- <-. cbn [forallb].
      rewrite (IHv _ _ _ Hv). reflexivity.
    + intros s kvs r. cbn [parse_members].
      destruct (skip_ws s) as [|q r0]; [discriminate|].
      destruct (q =? 34); [|discriminate].
      destruct (parse_string_body r0) as [[k r1]|]; [|discriminate].
      destruct (skip_ws r1) as [|c r2]; [discriminate|].
      destruct (c =? 58); [|discriminate].
      destruct (parse_value f r2) as [[v r3]|] eqn:Hv; [|discriminate].
      destruct (skip_ws r3) as [|d r4]; [discriminate|].
      destruct (d =? 44).
      { destruct (parse_members f r4) as [[kvs' rest]|] eqn:Hm; [|discriminate].
        intros H; injection H as <- <-. cbn [forallb snd].
        rewrite (IHv _ _ _ Hv), (IHm _ _ _ Hm). reflexivity. }
      destruct (d =? 125); [|discriminate].
      intros H; injection H as <- <-. cbn [forallb snd].
      rewrite (IHv _ _ _ Hv). reflexivity.
Qed.

Lemma JSON_parse_wf s v : JSON_parse s = Some v -> wf_json v = true.
Proof.
  unfold JSON_parse.
  destruct (parse_value (2 * length s + 2)%nat s) as [[x r]|] eqn:Hp; [|discriminate].
  destruct (skip_ws r); [|discriminate].
  intros H; injection H as <-.
  destruct (parse_wf (2 * length s + 2)%nat) as [Hv _]. eapply Hv; eauto.
Qed.

(** Reading is idempotent through printing: what was read is read again
    from its print. *)
Lemma JSON_parse_stringify_parse s v :
  JSON_parse s = Some v -> JSON_parse (JSON_stringify v) = Some v.
Proof. intros H. apply JSON_parse_stringify. eapply JSON_parse_wf; eauto. Qed.

(** ** The fuel of JSON.parse is enough *)

Lemma drop_while_length p (s : jsstring) : (length (drop_while p s) <= length s)%nat.
Proof.
  induction s as [|c s IH]; simpl; auto.
  destruct (p c); simpl; lia.
Qed.

Lemma skip_ws_cons_length (s : jsstring) c t :
  skip_ws s = c :: t -> (length t < length s)%nat.
Proof.
  intros H. pose proof (drop_while_length is_json_ws s) as Hl.
  unfold skip_ws in H. rewrite H in Hl. simpl in Hl. lia.
Qed.

Lemma parse_string_body_length n : forall (s v r : jsstring),
  (length s <= n)%nat ->
  parse_string_body s = Some (v, r) -> (length r < length s)%nat.
Proof.
  induction n as [|n IH]; intros s v r Hn.
  - destruct s; [discriminate|simpl in Hn; lia].
  - destruct s as [|c t]; [discriminate|]. cbn [length] in Hn.
    cbn [parse_string_body].
    destruct (c =? 34).
    { intros H; injection H as <- <-. simpl. lia. }
    destruct (c =? 92).
    { destruct t as [|e t']; [discriminate|]. cbn [length] in Hn.
      destruct (e =? 117).
      - destruct t' as [|h1 [|h2 [|h3 [|h4 t'']]]]; try discriminate.
        destruct (hex4 h1 h2 h3 h4); [|discriminate].
        destruct (parse_string_body t'') as [[v' r']|] eqn:Hp; [|discriminate].
        intros H; injection H as <- <-.
        apply IH in Hp; [|cbn [length] in Hn; lia]. cbn [length]. lia.
      - destruct (simple_escape e); [|discriminate].
        destruct (parse_string_body t') as [[v' r']|] eqn:Hp; [|discriminate].
        intros H; injection H as <- <-.
        apply IH in Hp; [|lia]. cbn [length]. lia. }
    destruct (c <? 32); [discriminate|].
    destruct (parse_string_body t) as [[v' r']|] eqn:Hp; [|discriminate].
    intros H; injection H as <- <-.
    apply IH in Hp; [|lia]. cbn [length]. lia.
Qed.

Lemma parse_frac_length s ds r :
  parse_frac s = Some (ds, r) -> (length r <= length s)%nat.
Proof.
  unfold parse_frac. destruct s as [|c t].
  - intros H; injection H as <- <-. auto.
  - destruct (c =? 46).
    + destruct (take_while is_digit t); [discriminate|].
      intros H; injection H as <- <-.
      pose proof (drop_while_length is_digit t). simpl. lia.
    + intros H; injection H as <- <-. auto.
Qed.

Lemma parse_exp_length s e r :
  parse_exp s = Some (e, r) -> (length r <= length s)%nat.
Proof.
  unfold parse_exp. destruct s as [|c t].
  - intros H; injection H as <- <-. auto.
  - destruct ((c =? 101) || (c =? 69)).
    + destruct t as [|d t'].
      * simpl. discriminate.
      * destruct (d =? 43).
        { destruct (take_while is_digit t'); [discriminate|].
          intros H; injection H as <- <-.
          pose proof (drop_while_length is_digit t'). simpl. lia. }
        destruct (d =? 45).
        { destruct (take_while is_digit t'); [discriminate|].
          intros H; injection H as <- <-.
          pose proof (drop_while_length is_digit t'). simpl. lia. }
        destruct (take_while is_digit (d :: t')); [discriminate|].
        intros H; injection H as <- <-.
        pose proof (drop_while_length is_digit (d :: t')). simpl in *. lia.
    + intros H; injection H as <- <-. auto.
Qed.

Lemma parse_magnitude_length neg s n r :
  parse_magnitude neg s = Some (n, r) -> (length r < length s)%nat.
Proof.
  unfold parse_magnitude. destruct s as [|c t]; [discriminate|].
  assert (Hint : forall intd s2,
             (if c =? 48 then Some ([c], t)
              else if is_digit c
                   then Some (c :: take_while is_digit t, drop_while is_digit t)
                   else None) = Some (intd, s2) ->
             (length s2 <= length t)%nat).
  { intros intd s2. destruct (c =? 48).
    - intros H; injection H as <- <-. auto.
    - destruct (is_digit c); [|discriminate].
      intros H; injection H as <- <-. apply drop_while_length. }
  destruct (if c =? 48 then _ else _) as [[intd s2]|]; [|discriminate].
  specialize (Hint intd s2 eq_refl).
  destruct (parse_frac s2) as [[fracd s3]|] eqn:Hf; [|discriminate].
  destruct (parse_exp s3) as [[e s4]|] eqn:He; [|discriminate].
  intros H; injection H as <- <-.
  apply parse_frac_length in Hf. apply parse_exp_length in He. cbn [length]. lia.
Qed.

Lemma parse_number_length s n r :
  parse_number s = Some (n, r) -> (length r < length s)%nat.
Proof.
  unfold parse_number. destruct s as [|c t]; [discriminate|].
  destruct (c =? 45).
  - intros H. apply parse_magnitude_length in H. cbn [length]. lia.
  - apply parse_magnitude_length.
Qed.

Lemma parse_literal_length lit v c (t : jsstring) x r :
  lit <> [] -> parse_literal lit v (c :: t) = Some (x, r) ->
  (length r < length (c :: t))%nat.
Proof.
  intros Hlit. unfold parse_literal. destruct (starts_with lit (c :: t)); [|discriminate].
  intros H; injection H as <- <-. rewrite length_skipn.
  destruct lit; [congruence|]. cbn [length]. lia.
Qed.

(** Whatever some fuel reads, twice the number of units read also
    reads. *)
Lemma parse_fuel_enough f :
  (forall s v r, parse_value f s = Some (v, r) ->
     (length r < length s)%nat
     /\ forall f', (2 * (length s - length r) <= f')%nat ->
                   parse_value f' s = Some (v, r))
  /\ (forall s l r, parse_elements f s = Some (l, r) ->
     (length r < length s)%nat
     /\ forall f', (2 * (length s - length r) <= f')%nat ->
                   parse_elements f' s = Some (l, r))
  /\ (forall s kvs r, parse_members f s = Some (kvs, r) ->
     (length r < length s)%nat
     /\ forall f', (2 * (length s - length r) <= f')%nat ->
                   parse_members f' s = Some (kvs, r)).
Proof.
  induction f as [|f (IHv & IHe & IHm)].
  - repeat split; intros; discriminate.
  - split; [|split].
    + intros s v r. cbn [parse_value].
      pose proof (drop_while_length is_json_ws s) as Hs. fold (skip_ws s) in Hs.
      destruct (skip_ws s) as [|c t] eqn:Es; [discriminate|]. cbn [length] in Hs.
      destruct (c =? 123) eqn:E123.
      { destruct (skip_ws t) as [|d t'] eqn:Et; [discriminate|].
        pose proof (skip_ws_cons_length t d t' Et) as Ht.
        destruct (d =? 125) eqn:E125.
        - intros H; injection H as <- <-. split; [lia|].
          intros [|f'] Hf'; [lia|]. cbn [parse_value]. rewrite Es, E123, Et, E125.
          reflexivity.
        - destruct (parse_members f (d :: t')) as [[kvs rest]|] eqn:Hm; [|discriminate].
          intros H; injection H as <- <-.
          destruct (IHm _ _ _ Hm) as [Hlen Hmore]. cbn [length] in Hlen.
          split; [lia|].
          intros [|f'] Hf'; [lia|]. cbn [parse_value]. rewrite Es, E123, Et, E125.
          rewrite (Hmore f') by (cbn [length]; lia). reflexivity. }
      destruct (c =? 91) eqn:E91.
      { destruct (skip_ws t) as [|d t'] eqn:Et; [discriminate|].
        pose proof (skip_ws_cons_length t d t' Et) as Ht.
        destruct (d =? 93) eqn:E93.
        - intros H; injection H as <- <-. split; [lia|].
          intros [|f'] Hf'; [lia|]. cbn [parse_value]. rewrite Es, E123, E91, Et, E93.
          reflexivity.
        - destruct (parse_elements f (d :: t')) as [[l rest]|] eqn:He; [|discriminate].
          intros H; injection H as <- <-.
          destruct (IHe _ _ _ He) as [Hlen Hmore]. cbn [length] in Hlen.
          split; [lia|].
          intros [|f'] Hf'; [lia|]. cbn [parse_value]. rewrite Es, E123, E91, Et, E93.
          rewrite (Hmore f') by (cbn [length]; lia). reflexivity. }
      destruct (c =? 34) eqn:E34.
      { destruct (parse_string_body t) as [[x rest]|] eqn:Hp; [|discriminate].
        intros H; injection H as <- <-.
        pose proof (parse_string_body_length _ t x rest (le_n _) Hp) as Hlen.
        split; [lia|].
        intros [|f'] Hf'; [lia|]. cbn [parse_value]. rewrite Es, E123, E91, E34, Hp.
        reflexivity. }
      destruct ((c =? 45) || is_digit c) eqn:Enum.
      { destruct (parse_number (c :: t)) as [[n rest]|] eqn:Hn; [|discriminate].
        intros H; injection H as <- <-.
        pose proof (parse_number_length _ _ _ Hn) as Hlen. cbn [length] in Hlen.
        split; [lia|].
        intros [|f'] Hf'; [lia|]. cbn [parse_value].
        rewrite Es, E123, E91, E34, Enum, Hn. reflexivity. }
      destruct (c =? 116) eqn:E116.
      { intros H. pose proof (parse_literal_length (str "true") (JBool true) c t v r ltac:(discriminate) H) as Hlen.
        cbn [length] in Hlen. split; [lia|].
        intros [|f'] Hf'; [lia|]. cbn [parse_value].
        rewrite Es, E123, E91, E34, Enum, E116. exact H. }
      destruct (c =? 102) eqn:E102.
      { intros H. pose proof (parse_literal_length (str "false") (JBool false) c t v r ltac:(discriminate) H) as Hlen.
        cbn [length] in Hlen. split; [lia|].
        intros [|f'] Hf'; [lia|]. cbn [parse_value].
        rewrite Es, E123, E91, E34, Enum, E116, E102. exact H. }
      destruct (c =? 110) eqn:E110; [|discriminate].
      intros H. pose proof (parse_literal_length (str "null") JNull c t v r ltac:(discriminate) H) as Hlen.
      cbn [length] in Hlen. split; [lia|].
      intros [|f'] Hf'; [lia|]. cbn [parse_value].
      rewrite Es, E123, E91, E34, Enum, E116, E102, E110. exact H.
    + intros s l r. cbn [parse_elements].
      destruct (parse_value f s) as [[v r1]|] eqn:Hv; [|discriminate].
      destruct (IHv _ _ _ Hv) as [Hlv Hmv].
      destruct (skip_ws r1) as [|c t] eqn:Er; [discriminate|].
      pose proof (skip_ws_cons_length r1 c t Er) as Ht.
      destruct (c =? 44) eqn:E44.
      { destruct (parse_elements f t) as [[l' rest]|] eqn:He; [|discriminate].
        intros H; injection H as <- <-.
        destruct (IHe _ _ _ He) as [Hle Hme].
        split; [lia|].
        intros [|f'] Hf'; [lia|]. cbn [parse_elements].
        rewrite (Hmv f') by lia. rewrite Er, E44. rewrite (Hme f') by lia. reflexivity. }
      destruct (c =? 93) eqn:E93; [|discriminate].
      intros H; injection H as <- <-. split; [lia|].
      intros [|f'] Hf'; [lia|]. cbn [parse_elements].
      rewrite (Hmv f') by lia. rewrite Er, E44, E93. reflexivity.
    + intros s kvs r. cbn [parse_members].
      pose proof (drop_while_length is_json_ws s) as Hs. fold (skip_ws s) in Hs.
      destruct (skip_ws s) as [|q r0] eqn:Es; [discriminate|]. cbn [length] in Hs.
      destruct (q =? 34) eqn:E34; [|discriminate].
      destruct (parse_string_body r0) as [[k r1]|] eqn:Hk; [|discriminate].
      pose proof (parse_string_body_length _ r0 k r1 (le_n _) Hk) as Hlk.
      destruct (skip_ws r1) as [|c r2] eqn:Er1; [discriminate|].
      pose proof (skip_ws_cons_length r1 c r2 Er1) as H2.
      destruct (c =? 58) eqn:E58; [|discriminate].
      destruct (parse_value f r2) as [[v r3]|] eqn:Hv; [|discriminate].
      destruct (IHv _ _ _ Hv) as [Hlv Hmv].
      destruct (skip_ws r3) as [|d r4] eqn:Er3; [discriminate|].
      pose proof (skip_ws_cons_length r3 d r4 Er3) as H4.
      destruct (d =? 44) eqn:E44.
      { destruct (parse_members f r4) as [[kvs' rest]|] eqn:Hm; [|discriminate].
        intros H; injection H as <- <-.
        destruct (IHm _ _ _ Hm) as [Hlm Hmm].
        split; [lia|].
        intros [|f'] Hf'; [lia|]. cbn [parse_members].
        rewrite Es, E34, Hk, Er1, E58. rewrite (Hmv f') by lia.
        rewrite Er3, E44. rewrite (Hmm f') by lia. reflexivity. }
      destruct (d =? 125) eqn:E125; [|discriminate].
      intros H; injection H as <- <-. split; [lia|].
      intros [|f'] Hf'; [lia|]. cbn [parse_members].
      rewrite Es, E34, Hk, Er1, E58. rewrite (Hmv f') by lia.
      rewrite Er3, E44, E125. reflexivity.
Qed.

(** [JSON_parse] never fails for want of fuel: what any fuel reads of a
    text, the fuel of [JSON_parse] reads. *)
Lemma JSON_parse_fuel_enough fuel s v r :
  parse_value fuel s = Some (v, r) ->
  parse_value (2 * length s + 2)%nat s = Some (v, r).
Proof.
  intros H. destruct (parse_fuel_enough fuel) as [Hv _].
  destruct (Hv _ _ _ H) as [_ Hmore]. apply Hmore. lia.
Qed.

(** ** The sort of the fallback is the stable sort by score *)

Section StableSort.

Variable A : Type.
Variable key : A -> nat.


Lemma insert_sorted_perm x l : Permutation (x :: l) (insert_sorted (by_key key) x l).
Proof.
  induction l as [|y l IH]; simpl; auto.
  destruct ((by_key key) x y <=? 0)%Z; auto.
  rewrite perm_swap. constructor. exact IH.
Qed.

Lemma sort_by_perm l : Permutation l (sort_by (by_key key) l).
Proof.
  induction l as [|x l IH]; simpl; auto.
  rewrite <- insert_sorted_perm. constructor. exact IH.
Qed.

Lemma insert_sorted_sorted x l :
  Sorted (descending_by key) l -> Sorted (descending_by key) (insert_sorted (by_key key) x l).
Proof.
  induction 1 as [|y l Hs IH Hhd]; simpl.
  - repeat constructor.
  - destruct (Z.leb_spec ((by_key key) x y) 0) as [Hle|Hgt].
    + constructor; [constructor; assumption|]. constructor.
      unfold descending_by, by_key in *. lia.
    + constructor; [exact IH|].
      destruct l as [|z l]; simpl.
      * constructor. unfold descending_by, by_key in *. lia.
      * destruct ((by_key key) x z <=? 0)%Z; constructor.
        -- unfold descending_by, by_key in *. lia.
        -- inversion Hhd; assumption.
Qed.

Lemma sort_by_sorted l : Sorted (descending_by key) (sort_by (by_key key) l).
Proof.
  induction l as [|x l IH]; simpl; [constructor|].
  apply insert_sorted_sorted. exact IH.
Qed.

(** Stability: the products of one score keep their order. *)
Lemma insert_sorted_stable k x l :
  Sorted (descending_by key) l ->
  filter (fun y => Nat.eqb (key y) k) (insert_sorted (by_key key) x l)
  = filter (fun y => Nat.eqb (key y) k) (x :: l).
Proof.
  induction 1 as [|y l Hs IH Hhd]; [reflexivity|].
  cbn [insert_sorted].
  destruct (Z.leb_spec ((by_key key) x y) 0) as [Hle|Hgt]; [reflexivity|].
  cbn [filter] in *. rewrite IH.
  destruct (Nat.eqb_spec (key x) k) as [Hx|Hx];
    destruct (Nat.eqb_spec (key y) k) as [Hy|Hy]; try reflexivity.
  unfold by_key in Hgt. lia.
Qed.

Lemma sort_by_stable k l :
  filter (fun y => Nat.eqb (key y) k) (sort_by (by_key key) l)
  = filter (fun y => Nat.eqb (key y) k) l.
Proof.
  induction l as [|x l IH]; [reflexivity|].
  cbn [sort_by]. rewrite insert_sorted_stable by apply sort_by_sorted.
  cbn [filter]. rewrite IH. reflexivity.
Qed.

End StableSort.

(** The products are sorted by score, highest first, equal scores in
    catalog order. *)
Lemma fallback_sort_is_stable_by_score tokens prods :
  Permutation prods (sort_by (compare_products tokens) prods)
  /\ Sorted (fun a b => (score tokens b <= score tokens a)%nat)
            (sort_by (compare_products tokens) prods)
  /\ forall k,
      filter (fun p => Nat.eqb (score tokens p) k) (sort_by (compare_products tokens) prods)
      = filter (fun p => Nat.eqb (score tokens p) k) prods.
Proof.
  split; [apply (sort_by_perm product (score tokens))|].
  split; [apply (sort_by_sorted product (score tokens))|].
  intros k. apply (sort_by_stable product (score tokens)).
Qed.

(** ** Parts of a text *)

Lemma drop_while_In p s x : In x (drop_while p s) -> In x s.
Proof.
  induction s as [|c s IH]; simpl; auto.
  destruct (p c); simpl; auto.
Qed.

Lemma trim_In s x : In x (trim s) -> In x s.
Proof.
  unfold trim. intros H.
  apply in_rev, drop_while_In, in_rev, drop_while_In in H. exact H.
Qed.

Lemma skipn_In {A} n (l : list A) x : In x (skipn n l) -> In x l.
Proof.
  revert l; induction n; intros [|y l]; simpl; auto.
Qed.

Lemma split_at_first_In pat s pre post x :
  split_at_first pat s = Some (pre, post) ->
  In x pre \/ In x post -> In x s.
Proof.
  revert pre post. induction s as [|c s IH]; intros pre post.
  - simpl. destruct (starts_with pat []); [|discriminate].
    intros H; injection H as <- <-. intros [[]|H]. apply skipn_In in H. exact H.
  - cbn [split_at_first]. destruct (starts_with pat (c :: s)).
    + intros H; injection H as <- <-. intros [[]|H]. apply skipn_In in H. exact H.
    + destruct (split_at_first pat s) as [[pre' post']|]; [|discriminate].
      intros H; injection H as <- <-. intros [[->|H]|H]; simpl; auto.
      * right. apply (IH pre' post'); auto.
      * right. apply (IH pre' post'); auto.
Qed.

Lemma skip_json_tag_In s x : In x (skip_json_tag s) -> In x s.
Proof.
  unfold skip_json_tag.
  destruct (starts_with (str "json") (toLowerCase (firstn 4 s))); auto.
  apply skipn_In.
Qed.

Lemma fenced_exec_In s m rest x :
  fenced_exec s = Some (m, rest) -> In x m \/ In x rest -> In x s.
Proof.
  unfold fenced_exec.
  destruct (split_at_first fence s) as [[pre after]|] eqn:H1; [|discriminate].
  intros H2 Hx.
  apply (split_at_first_In fence s pre after x H1). right.
  apply skip_json_tag_In, (drop_while_In is_js_space).
  apply (split_at_first_In _ _ _ _ x H2 Hx).
Qed.

Lemma fenced_matches_from_In fuel s m x :
  In m (fenced_matches_from fuel s) -> In x m -> In x s.
Proof.
  revert s. induction fuel as [|f IH]; intros s; simpl; [tauto|].
  destruct (fenced_exec s) as [[m1 rest]|] eqn:He; simpl; [|tauto].
  intros [<-|Hm] Hx.
  - apply (fenced_exec_In s m1 rest x He). auto.
  - apply (fenced_exec_In s m1 rest x He). right. apply IH; auto.
Qed.

Lemma first_parse_In l v :
  first_parse l = Some v -> exists c, In c l /\ JSON_parse c = Some v.
Proof.
  induction l as [|c l IH]; simpl; [discriminate|].
  destruct (JSON_parse c) eqn:Hc.
  - intros H; injection H as ->. eauto.
  - intros H. destruct (IH H) as [c' [Hin Hp]]. eauto.
Qed.

(** ** Where there is no brace *)

Lemma indexOf_None s c : ~ In c s -> indexOf s c = None.
Proof.
  induction s as [|x s IH]; simpl; auto.
  intros H. destruct (N.eqb_spec x c) as [->|Hne]; [tauto|].
  rewrite IH; tauto.
Qed.

Lemma extract_braces_no_brace text :
  ~ In lbrace text -> extract_braces text = JNull.
Proof.
  intros H. unfold extract_braces. rewrite (indexOf_None _ _ H). reflexivity.
Qed.

(** An object is only ever read from a text with a [{]. *)
Lemma parse_value_object fuel s kvs r :
  parse_value fuel s = Some (JObj kvs, r) -> In lbrace s.
Proof.
  destruct fuel as [|f]; simpl; [discriminate|].
  destruct (skip_ws s) as [|c t] eqn:Hs; [discriminate|].
  destruct (N.eqb_spec c 123) as [->|Hc].
  - intros _. apply (drop_while_In is_json_ws). unfold skip_ws in Hs.
    rewrite Hs. left. reflexivity.
  - unfold parse_literal.
    repeat match goal with
           | |- context [if ?b then _ else _] => destruct b
           | |- context [match ?x with _ => _ end] => destruct x
           end; discriminate.
Qed.

Lemma JSON_parse_object s kvs : JSON_parse s = Some (JObj kvs) -> In lbrace s.
Proof.
  unfold JSON_parse.
  destruct (parse_value (2 * length s + 2) s) as [[v r]|] eqn:Hp; [|discriminate].
  destruct (skip_ws r); [|discriminate].
  intros H; injection H as ->. eapply parse_value_object; eauto.
Qed.

Lemma includes_split_at_first pat s :
  includes s pat = false -> split_at_first pat s = None.
Proof.
  induction s as [|c s IH]; simpl.
  - intros H. apply orb_false_iff in H. destruct H as [-> _]. reflexivity.
  - intros H. apply orb_false_iff in H. destruct H as [-> H].
    rewrite (IH H). reflexivity.
Qed.

Lemma fenced_matches_no_fence text :
  includes text fence = false -> fenced_matches text = [].
Proof.
  intros H. unfold fenced_matches.
  destruct (length text); simpl; auto.
  unfold fenced_exec. rewrite (includes_split_at_first _ _ H). reflexivity.
Qed.

(** ** Fenced blocks *)

Lemma starts_with_fence_under c x post :
  starts_with fence (c :: x ++ fence ++ post)
  = starts_with fence (c :: x ++ [backtick; backtick]).
Proof.
  destruct x as [|d [|e x]]; simpl; rewrite ?andb_true_r; reflexivity.
Qed.

Lemma split_at_first_fence x post :
  fence_free x -> split_at_first fence (x ++ fence ++ post) = Some (x, post).
Proof.
  unfold fence_free. induction x as [|c x IH]; intros Hx.
  - reflexivity.
  - cbn [app includes] in Hx. apply orb_false_iff in Hx. destruct Hx as [Hs Hx].
    cbn [app split_at_first].
    rewrite starts_with_fence_under, Hs, (IH Hx). reflexivity.
Qed.

Lemma fence_free_suffix a b : fence_free (a ++ b) -> fence_free b.
Proof.
  unfold fence_free. induction a as [|c a IH]; auto.
  cbn [app includes]. intros H. apply orb_false_iff in H. tauto.
Qed.

Lemma skip_json_tag_suffix s : exists a, s = a ++ skip_json_tag s.
Proof.
  unfold skip_json_tag.
  destruct (starts_with (str "json") (toLowerCase (firstn 4 s))).
  - exists (firstn 4 s). symmetry. apply firstn_skipn.
  - exists []. reflexivity.
Qed.

Lemma drop_while_space_fence x post :
  drop_while is_js_space (x ++ fence ++ post)
  = drop_while is_js_space x ++ fence ++ post.
Proof.
  induction x as [|c x IH]; simpl; auto.
  destruct (is_js_space c); auto.
Qed.

Lemma skip_json_tag_fence x post :
  skip_json_tag (x ++ fence ++ post) = skip_json_tag x ++ fence ++ post.
Proof.
  unfold skip_json_tag, fence, backtick.
  destruct x as [|c1 [|c2 [|c3 [|c4 x]]]];
    [destruct post as [|p post] | .. ];
    cbn -[lower_unit N.eqb];
    replace (lower_unit 96) with 96 by reflexivity;
    repeat match goal with
           | |- context [N.eqb ?a (lower_unit ?c)] => destruct (N.eqb a (lower_unit c))
           end;
    reflexivity.
Qed.

Lemma fenced_exec_block pre inner post :
  fence_free pre -> fence_free inner ->
  fenced_exec (pre ++ fence ++ inner ++ fence ++ post)
  = Some (drop_while is_js_space (skip_json_tag inner), post).
Proof.
  intros Hpre Hin. unfold fenced_exec.
  rewrite (split_at_first_fence pre _ Hpre).
  rewrite skip_json_tag_fence, drop_while_space_fence.
  apply split_at_first_fence.
  destruct (skip_json_tag_suffix inner) as [a Ha].
  destruct (drop_while_suffix is_js_space (skip_json_tag inner)) as [b Hb].
  apply (fence_free_suffix b). rewrite <- Hb.
  apply (fence_free_suffix a). rewrite <- Ha. exact Hin.
Qed.

Lemma drop_while_idem p s : drop_while p (drop_while p s) = drop_while p s.
Proof.
  induction s as [|c s IH]; simpl; auto.
  destruct (p c) eqn:Hc; auto. simpl. rewrite Hc. reflexivity.
Qed.

Lemma trim_drop_while s : trim (drop_while is_js_space s) = trim s.
Proof. unfold trim. rewrite drop_while_idem. reflexivity. Qed.

Lemma fenced_text_length_block pre inner post :
  (length post < length (pre ++ fence ++ inner ++ fence ++ post))%nat.
Proof. rewrite !length_app. simpl. lia. Qed.

(** The loop over the fenced blocks, with any fuel that covers the text. *)
Lemma first_parse_fenced_text failing pre inner post v fuel :
  Forall (fun b => fence_free (fst b) /\ fence_free (snd b)
                   /\ JSON_parse (block_candidate (snd b)) = None) failing ->
  fence_free pre -> fence_free inner ->
  JSON_parse (block_candidate inner) = Some v ->
  (length (fenced_text (failing ++ [(pre, inner)]) post) <= fuel)%nat ->
  first_parse (map trim (fenced_matches_from fuel
                           (fenced_text (failing ++ [(pre, inner)]) post)))
  = Some v.
Proof.
  intros Hf Hpre Hin Hv. revert fuel.
  induction Hf as [|[p i] failing [Hp [Hi Hnone]] Hf IH]; intros fuel Hfuel.
  - cbn [app fenced_text] in *.
    pose proof (fenced_text_length_block pre inner post) as Hlen.
    destruct fuel as [|f]; [lia|].
    cbn [fenced_matches_from]. rewrite (fenced_exec_block pre inner post Hpre Hin).
    cbn [map first_parse]. rewrite trim_drop_while.
    unfold block_candidate in Hv. rewrite Hv. reflexivity.
  - cbn [app fenced_text fst snd] in *.
    pose proof (fenced_text_length_block p i
                  (fenced_text (failing ++ [(pre, inner)]) post)) as Hlen.
    destruct fuel as [|f]; [lia|].
    cbn [fenced_matches_from]. rewrite (fenced_exec_block p i _ Hp Hi).
    cbn [map first_parse]. rewrite trim_drop_while.
    unfold block_candidate in Hnone. rewrite Hnone.
    apply IH. lia.
Qed.

(** Fuel beyond the length of the text changes nothing: the loop has
    ended by then. *)
Lemma split_at_first_length pat s pre post :
  split_at_first pat s = Some (pre, post) ->
  (length pre + length post <= length s)%nat
  /\ (pat <> [] -> length post < length s)%nat.
Proof.
  revert pre post. induction s as [|c s IH]; intros pre post.
  - cbn [split_at_first]. destruct pat as [|a pat]; simpl.
    + intros H; injection H as <- <-. simpl. split; [lia|congruence].
    + discriminate.
  - cbn [split_at_first]. destruct (starts_with pat (c :: s)).
    + intros H; injection H as <- <-. rewrite length_skipn. cbn [length].
      split; [lia|]. intros Hp. destruct pat; [congruence|cbn [length]; lia].
    + destruct (split_at_first pat s) as [[pre' post']|]; [|discriminate].
      intros H; injection H as <- <-. destruct (IH pre' post' eq_refl) as [H1 H2].
      simpl. split; [lia|]. intros Hp. specialize (H2 Hp). lia.
Qed.

Lemma fenced_exec_shorter s m rest :
  fenced_exec s = Some (m, rest) -> (length rest < length s)%nat.
Proof.
  unfold fenced_exec.
  destruct (split_at_first fence s) as [[pre after]|] eqn:H1; [|discriminate].
  intros H2.
  destruct (split_at_first_length _ _ _ _ H1) as [Ha _].
  destruct (split_at_first_length _ _ _ _ H2) as [_ Hb].
  specialize (Hb ltac:(discriminate)).
  destruct (skip_json_tag_suffix after) as [a Ha'].
  destruct (drop_while_suffix is_js_space (skip_json_tag after)) as [b Hb'].
  assert (length (drop_while is_js_space (skip_json_tag after)) <= length after)%nat.
  { rewrite Ha' at 2. rewrite Hb' at 2. rewrite !length_app. lia. }
  lia.
Qed.

Lemma fenced_matches_fuel fuel s :
  (length s <= fuel)%nat ->
  fenced_matches_from fuel s = fenced_matches_from (length s) s.
Proof.
  revert fuel. induction s as [s IH] using (induction_ltof1 _ (@length _)).
  unfold ltof in IH. intros fuel Hfuel.
  destruct (fenced_exec s) as [[m rest]|] eqn:He.
  - pose proof (fenced_exec_shorter _ _ _ He) as Hlt.
    destruct fuel as [|f]; [lia|]. destruct (length s) as [|n] eqn:Hn; [lia|].
    cbn [fenced_matches_from]. rewrite He. f_equal.
    rewrite (IH rest ltac:(lia) f ltac:(lia)).
    rewrite (IH rest ltac:(lia) n ltac:(lia)). reflexivity.
  - destruct fuel, (length s); cbn [fenced_matches_from]; rewrite ?He; reflexivity.
Qed.

(** ** The whole response as the only candidate *)

Lemma lastIndexOf_last (s : jsstring) c : lastIndexOf (s ++ [c]) c = Some (length s).
Proof.
  induction s as [|x s IH]; cbn [app lastIndexOf length].
  - rewrite N.eqb_refl. reflexivity.
  - rewrite IH. reflexivity.
Qed.

Lemma slice_all (s : jsstring) : slice s 0 (length s) = s.
Proof. unfold slice. rewrite Nat.sub_0_r. cbn [skipn]. apply firstn_all. Qed.

Lemma extract_braces_whole (body : jsstring) v :
  JSON_parse (lbrace :: body ++ [rbrace]) = Some v ->
  extract_braces (lbrace :: body ++ [rbrace]) = v.
Proof.
  intros Hp. unfold extract_braces.
  change (lbrace :: body ++ [rbrace]) with ((lbrace :: body) ++ [rbrace]) at 2.
  rewrite lastIndexOf_last. cbn [indexOf]. rewrite N.eqb_refl.
  cbn [length Nat.ltb Nat.leb].
  replace (S (length body) + 1)%nat with (length (lbrace :: body ++ [rbrace]))
    by (cbn [length]; rewrite length_app; cbn [length]; lia).
  rewrite slice_all, Hp. reflexivity.
Qed.

Lemma stringify_object_shape kvs :
  exists body, JSON_stringify (JObj kvs) = lbrace :: body ++ [rbrace].
Proof. cbn [JSON_stringify]. eexists. reflexivity. Qed.

(** The stringified object, when it holds no fence, is read back whole by
    the extractor. *)
Lemma extract_stringified_object kvs :
  wf_json (JObj kvs) = true ->
  includes (JSON_stringify (JObj kvs)) fence = false ->
  extractJSONFromText (JStr (JSON_stringify (JObj kvs))) = JObj kvs.
Proof.
  intros Hwf Hfence.
  pose proof (JSON_parse_stringify (JObj kvs) Hwf) as Hp.
  pose proof (fenced_matches_no_fence _ Hfence) as Hm.
  destruct (stringify_object_shape kvs) as [body Hs].
  rewrite Hs in *. unfold extractJSONFromText. rewrite Hm. cbn [map first_parse].
  apply extract_braces_whole. exact Hp.
Qed.

Lemma collect_no_text_shapes kvs :
  Array_isArray (lookup (str "candidates") kvs) = false ->
  Array_isArray (lookup (str "output") kvs) = false ->
  collect_text_candidates (JObj kvs) = Ok [JStr (JSON_stringify (JObj kvs))].
Proof.
  intros Hc Ho. unfold collect_text_candidates. cbn [prop].
  destruct (lookup (str "candidates") kvs) as [[| | | | |]|]; try discriminate;
    destruct (lookup (str "output") kvs) as [[| | | | |]|]; try discriminate;
    reflexivity.
Qed.

Lemma askGemini_responded cfg w st text gem prompt :
  configured (GEMINI_KEY cfg) = true ->
  model_fetch w = Responded st text ->
  JSON_parse text = Some gem ->
  askGemini cfg w prompt = Ok gem.
Proof.
  intros Hk Hm Hp. unfold askGemini. rewrite Hk, Hm. cbn [negb timeoutPromise bind snd].
  unfold response_json. rewrite Hp. reflexivity.
Qed.

(** ** The shape of the handler *)

Lemma missing_query_400 cfg w req :
  truthy_val (query req) = false ->
  api_recommend cfg w req =
    {| status := 400; body := error_value (str "missing query") |}.
Proof.
  unfold api_recommend, recommend_try, truthy_val.
  destruct (query req) as [q|]; auto.
  intros ->. reflexivity.
Qed.

Lemma present_query cfg w req :
  truthy_val (query req) = true ->
  exists q, query req = Some q /\ truthy q = true /\
    recommend_try cfg w req =
      bind (bind (webSearch cfg w q) build_snippets)
           (after_search cfg w q (products req)).
Proof.
  unfold recommend_try, truthy_val.
  destruct (query req) as [q|]; [|discriminate].
  intros H. exists q. rewrite H. simpl.
  destruct (webSearch cfg w q); auto.
Qed.

Lemma askGemini_hard_failure cfg w prompt :
  model_hard_failure cfg w -> exists msg, askGemini cfg w prompt = Throw (Error msg).
Proof.
  unfold model_hard_failure, askGemini.
  destruct (configured (GEMINI_KEY cfg)); simpl.
  - intros [H|H]; [discriminate|]. rewrite H. simpl. eauto.
  - intros _. eauto.
Qed.

Lemma askGemini_prompt_irrelevant cfg w p p' : askGemini cfg w p = askGemini cfg w p'.
Proof. reflexivity. Qed.

(** What follows the search, with the prompt taken out: only whether it
    can be written matters. *)
Lemma after_search_unfold cfg w q prods sn :
  after_search cfg w q prods sn =
  if stringable q then
    bind (askGemini cfg w []) (fun gem =>
    bind (collect_text_candidates gem) (fun textCandidates =>
    if accepted (try_candidates textCandidates JNull) then
      Ok {| status := 200; body := try_candidates textCandidates JNull |}
    else
      bind (query_toLowerCase q) (fun lower =>
      Ok {| status := 200;
            body := fallback_body (fallback_ids lower prods) sn textCandidates |})))
  else Throw TypeError_primitive.
Proof.
  unfold after_search, build_prompt, ToString.
  destruct (stringable q); reflexivity.
Qed.

(** The status of the response does not depend on the snippets. *)
Lemma after_search_status cfg w q prods sn sn' :
  match after_search cfg w q prods sn, after_search cfg w q prods sn' with
  | Ok r, Ok r' => status r = status r'
  | Throw e, Throw e' => e = e'
  | _, _ => False
  end.
Proof.
  rewrite !after_search_unfold.
  destruct (stringable q); [|reflexivity].
  destruct (askGemini cfg w []) as [gem|e]; simpl; auto.
  destruct (collect_text_candidates gem) as [cands|e]; simpl; auto.
  destruct (accepted (try_candidates cands JNull)); auto.
  destruct (query_toLowerCase q); simpl; auto.
Qed.

(** A 200 response is the accepted value of the model or the fallback
    result. *)
Lemma ok_response_cases cfg w req :
  status (api_recommend cfg w req) = 200 ->
  exists q snippets gem cands,
    query req = Some q /\
    bind (webSearch cfg w q) build_snippets = Ok snippets /\
    askGemini cfg w [] = Ok gem /\
    collect_text_candidates gem = Ok cands /\
    ((model_accepted cfg w = true /\
      accepted (try_candidates cands JNull) = true /\
      body (api_recommend cfg w req) = try_candidates cands JNull)
     \/
     (model_accepted cfg w = false /\
      exists lower, query_toLowerCase q = Ok lower /\
        body (api_recommend cfg w req) =
          fallback_body (fallback_ids lower (products req)) snippets cands)).
Proof.
  unfold api_recommend, recommend_try, model_accepted.
  destruct (query req) as [q|]; [|discriminate].
  destruct (truthy q); [|discriminate]. simpl.
  destruct (webSearch cfg w q) as [web|e] eqn:Hweb; [|discriminate]. simpl.
  destruct (build_snippets web) as [sn|e] eqn:Hsn; [|discriminate].
  simpl. rewrite after_search_unfold.
  destruct (stringable q); [|discriminate].
  destruct (askGemini cfg w []) as [gem|e] eqn:Hgem; [|discriminate]. simpl.
  destruct (collect_text_candidates gem) as [cands|e] eqn:Hc; [|discriminate]. simpl.
  destruct (accepted (try_candidates cands JNull)) eqn:Hacc.
  - simpl. intros _. exists q, sn, gem, cands.
    rewrite Hweb, Hc. simpl. rewrite Hsn. do 4 (split; [reflexivity|]). left. auto.
  - destruct (query_toLowerCase q) as [lower|e] eqn:Hl; [|discriminate]. simpl.
    intros _. exists q, sn, gem, cands.
    rewrite Hweb, Hc. simpl. rewrite Hsn. do 4 (split; [reflexivity|]). right. split; auto.
    exists lower. auto.
Qed.

Lemma after_search_status_worlds cfg w w' q prods sn sn' :
  model_fetch w' = model_fetch w ->
  match after_search cfg w q prods sn, after_search cfg w' q prods sn' with
  | Ok r, Ok r' => status r = status r'
  | Throw e, Throw e' => e = e'
  | _, _ => False
  end.
Proof.
  intros Hm. rewrite !after_search_unfold.
  destruct (stringable q); [|reflexivity].
  assert (Hg : askGemini cfg w' [] = askGemini cfg w []).
  { unfold askGemini. rewrite Hm. reflexivity. }
  rewrite Hg.
  destruct (askGemini cfg w []) as [gem|e]; simpl; auto.
  destruct (collect_text_candidates gem) as [cands|e]; simpl; auto.
  destruct (accepted (try_candidates cands JNull)); auto.
  destruct (query_toLowerCase q); simpl; auto.
Qed.

Lemma error_value_snippets msg :
  msg <> [] ->
  build_snippets (error_value msg) = Ok [synthetic_snippet msg].
Proof.
  intros Hmsg. destruct msg as [|c msg]; [congruence|]. reflexivity.
Qed.

(** ** C1 *)

Lemma try_candidates_first_truthy before txt after init :
  Forall (fun c => truthy (extractJSONFromText c) = false) before ->
  truthy (extractJSONFromText txt) = true ->
  try_candidates (before ++ txt :: after) init = extractJSONFromText txt.
Proof.
  intros Hb Ht. revert init.
  induction Hb as [|c before Hc Hb IH]; intros init; simpl.
  - rewrite Ht. reflexivity.
  - rewrite Hc. apply IH.
Qed.

Lemma try_candidates_none cands init :
  truthy init = false ->
  Forall (fun c => truthy (extractJSONFromText c) = false) cands ->
  truthy (try_candidates cands init) = false.
Proof.
  intros Hi Hc. revert init Hi.
  induction Hc as [|c cands Hc Hcs IH]; intros init Hi; simpl; auto.
  rewrite Hc. apply IH. exact Hc.
Qed.

(** The whole response, stringified, is always the last candidate. *)
Lemma collect_text_candidates_last gem cands :
  collect_text_candidates gem = Ok cands ->
  exists front, cands = front ++ [JStr (JSON_stringify gem)].
Proof.
  unfold collect_text_candidates.
  destruct (match prop gem (str "candidates") with
            | Some (JArr cs) => concat_result candidate_texts cs
            | _ => Ok []
            end) as [a|e]; cbn [bind]; [|discriminate].
  destruct (match prop gem (str "output") with
            | Some (JArr outs) => concat_result output_texts outs
            | _ => Ok []
            end) as [b|e]; cbn [bind]; [|discriminate].
  intros H. injection H as <-. exists (a ++ b). rewrite app_assoc. reflexivity.
Qed.

(** C1, at the input where the code departs from it: the model answers
    with two candidate texts, the first a JSON object of another shape,
    the second a recommendation.  The second would be accepted, but the
    loop stops at the first, whose extraction is truthy, and the endpoint
    answers with the fallback result: the later candidates are not
    tried. *)
Lemma C1_later_candidate_not_tried :
  let first := JStr (JSON_stringify (JObj [(str "note", JStr (str "hi"))])) in
  let second :=
    JStr (JSON_stringify (JObj [(str "recommended_ids", JArr [JStr (str "p1")])])) in
  let w := world_of TimedOut (responds 200 two_candidates) in
  collect_text_candidates two_candidates
  = Ok [first; second; JStr (JSON_stringify two_candidates)]
  /\ accepted (extractJSONFromText second) = true
  /\ try_candidates [first; second; JStr (JSON_stringify two_candidates)] JNull
     = JObj [(str "note", JStr (str "hi"))]
  /\ status (api_recommend both_keys w phone_request) = 200
  /\ prop (body (api_recommend both_keys w phone_request)) (str "reason")
     = Some (JStr fallback_reason)
  /\ prop (body (api_recommend both_keys w phone_request)) (str "recommended_ids")
     = Some (JArr [JStr (str "p1"); JStr (str "p3"); JStr (str "p5")]).
Proof. vm_compute. repeat split. Qed.

(** ** C2 *)

(** C2: the fenced blocks of a text are tried in their order, each with its
    optional [json] tag skipped and its content trimmed, and the value of
    the first block that [JSON.parse] accepts is returned, whatever stands
    before, between and after the blocks (unfenced JSON included).  In
    particular a text whose first parsing block is an object with a
    [recommended_ids] array yields that object. *)
Theorem C2_first_parsing_fenced_block failing pre inner post v :
  Forall (fun b => fence_free (fst b) /\ fence_free (snd b)
                   /\ JSON_parse (block_candidate (snd b)) = None) failing ->
  fence_free pre ->
  fence_free inner ->
  JSON_parse (block_candidate inner) = Some v ->
  extractJSONFromText (JStr (fenced_text (failing ++ [(pre, inner)]) post)) = v.
Proof.
  intros Hf Hpre Hin Hv.
  pose proof (first_parse_fenced_text failing pre inner post v _ Hf Hpre Hin Hv
                (le_n _)) as H.
  fold (fenced_matches (fenced_text (failing ++ [(pre, inner)]) post)) in H.
  destruct (fenced_text (failing ++ [(pre, inner)]) post) as [|c s] eqn:Ht.
  - discriminate H.
  - unfold extractJSONFromText. rewrite H. reflexivity.
Qed.

Lemma C2_witness :
  let recommendation := JObj [(str "recommended_ids", JArr [JStr (str "p1")])] in
  extractJSONFromText
    (JStr (fenced_text
             ([(str "Draft: {}", str "not json")]
              ++ [(str " Sure! {}", str "json" ++ [newline]
                                    ++ JSON_stringify recommendation ++ [newline])])
             (str " or {} ")))
  = recommendation.
Proof.
  intros recommendation.
  apply (C2_first_parsing_fenced_block
           [(str "Draft: {}", str "not json")]
           (str " Sure! {}")
           (str "json" ++ [newline] ++ JSON_stringify recommendation ++ [newline])
           (str " or {} ") recommendation).
  - constructor; [|constructor]. vm_compute. auto.
  - vm_compute. reflexivity.
  - vm_compute. reflexivity.
  - vm_compute. reflexivity.
Defined.

(** C2 as stated fails when an earlier fenced block parses: this text
    contains a valid fenced block whose object has a [recommended_ids]
    array, and the extractor returns the object of the block before it. *)
Lemma C2_counterexample :
  let note := JObj [(str "note", JStr (str "hi"))] in
  let recommendation := JObj [(str "recommended_ids", JArr [JStr (str "p1")])] in
  let text := fenced_text [([], JSON_stringify note);
                           (str " ", str "json " ++ JSON_stringify recommendation)] [] in
  JSON_parse (block_candidate (str "json " ++ JSON_stringify recommendation))
  = Some recommendation
  /\ accepted recommendation = true
  /\ extractJSONFromText (JStr text) = note
  /\ extractJSONFromText (JStr text) <> recommendation.
Proof. vm_compute. repeat split. discriminate. Qed.

(** ** C3 *)

(** C3, as the code has it: on a text with no [{] and no [}] the extractor
    (a total function: nothing is thrown) never returns an object, so never
    an accepted recommendation; it returns null when the text holds no
    triple-backtick fence, and otherwise null or the value (an array, a
    string, a number, a boolean) of the first fenced block that parses. *)
Theorem C3_no_brace_no_object text :
  ~ In lbrace text ->
  ~ In rbrace text ->
  (includes text fence = false -> extractJSONFromText (JStr text) = JNull)
  /\ (first_parse (map trim (fenced_matches text)) = None ->
      extractJSONFromText (JStr text) = JNull)
  /\ (forall v, first_parse (map trim (fenced_matches text)) = Some v ->
      extractJSONFromText (JStr text) = v)
  /\ (forall kvs, extractJSONFromText (JStr text) <> JObj kvs)
  /\ accepted (extractJSONFromText (JStr text)) = false.
Proof.
  intros Hl Hr.
  assert (Hsome : forall v, first_parse (map trim (fenced_matches text)) = Some v ->
                  extractJSONFromText (JStr text) = v).
  { intros v Hf. destruct text as [|c s]; [discriminate|].
    unfold extractJSONFromText. rewrite Hf. reflexivity. }
  assert (Hnone : first_parse (map trim (fenced_matches text)) = None ->
                  extractJSONFromText (JStr text) = JNull).
  { intros Hf. destruct text as [|c s]; [reflexivity|].
    unfold extractJSONFromText. rewrite Hf. apply extract_braces_no_brace. exact Hl. }
  assert (Hobj : forall kvs, extractJSONFromText (JStr text) <> JObj kvs).
  { intros kvs Hk. destruct text as [|c s]; [discriminate|].
    unfold extractJSONFromText in Hk.
    destruct (first_parse (map trim (fenced_matches (c :: s)))) as [v|] eqn:Hf.
    - subst v. apply first_parse_In in Hf. destruct Hf as [cand [Hin Hp]].
      apply in_map_iff in Hin. destruct Hin as [m [<- Hm]].
      apply JSON_parse_object, trim_In in Hp.
      apply Hl. eapply fenced_matches_from_In; eauto.
    - rewrite (extract_braces_no_brace _ Hl) in Hk. discriminate. }
  split; [|split; [exact Hnone|split; [exact Hsome|split; [exact Hobj|]]]].
  - intros Hi. apply Hnone. rewrite (fenced_matches_no_fence _ Hi). reflexivity.
  - unfold accepted.
    destruct (extractJSONFromText (JStr text)) as [| | | | |kvs];
      try (rewrite ?andb_false_r; reflexivity).
    destruct (Hobj kvs eq_refl).
Qed.

Lemma C3_witness :
  extractJSONFromText (JStr (str "I would suggest the PocketPhone A1.")) = JNull.
Proof.
  destruct (C3_no_brace_no_object (str "I would suggest the PocketPhone A1."))
    as [Hnull _].
  - vm_compute. intuition discriminate.
  - vm_compute. intuition discriminate.
  - apply Hnull. vm_compute. reflexivity.
Defined.

(** C3 as stated fails: this text has no brace at all, and the extractor
    returns the array of its fenced block, not null. *)
Lemma C3_counterexample :
  let text := fence ++ str "[1]" ++ fence in
  ~ In lbrace text /\ ~ In rbrace text
  /\ extractJSONFromText (JStr text) = JArr [JNum (num_of_N 1)]
  /\ extractJSONFromText (JStr text) <> JNull.
Proof.
  vm_compute. repeat split; try discriminate; intuition discriminate.
Qed.

(** ** C4 *)

(** C4, as the code has it: for ["I want a phone under $500"] and the
    catalog of the page, the ceiling found is 500, the products kept are
    p1, p3, p5, p6 (p2 at 549 and p4 at 699 are dropped), their scores are
    3, 2, 2, 2, and the ids returned are p1, p3, p5: the first three of the
    kept products in score order, of any category (p5 is a tablet). *)
Theorem C4_phone_under_500 :
  let lower := toLowerCase phone_query in
  let tokens := tokens_of lower in
  let kept := filter (fun p => num_leb_Z (price p) 500) PRODUCTS in
  price_match lower = Some (str "500")
  /\ tokens = [str "i"; str "want"; str "a"; str "phone"; str "under"; str "$500"]
  /\ map id kept = [str "p1"; str "p3"; str "p5"; str "p6"]
  /\ map (score tokens) kept = [3; 2; 2; 2]%nat
  /\ map id (sort_by (compare_products tokens) kept)
     = [str "p1"; str "p3"; str "p5"; str "p6"]
  /\ fallback_ids lower PRODUCTS = [str "p1"; str "p3"; str "p5"]
  /\ prop (body (api_recommend both_keys (world_of TimedOut (responds 200 prose_response))
                   phone_request)) (str "recommended_ids")
     = Some (JArr [JStr (str "p1"); JStr (str "p3"); JStr (str "p5")]).
Proof. vm_compute. repeat split. Qed.

(** C4 as stated fails: the three ids returned are not all ids of
    phone-category products, the third is the tablet p5. *)
Lemma C4_counterexample :
  fallback_ids (toLowerCase phone_query) PRODUCTS = [str "p1"; str "p3"; str "p5"]
  /\ ~ Forall (fun i => exists p, In p PRODUCTS /\ id p = i /\ category p = str "phone")
         (fallback_ids (toLowerCase phone_query) PRODUCTS).
Proof.
  assert (H : fallback_ids (toLowerCase phone_query) PRODUCTS
              = [str "p1"; str "p3"; str "p5"]) by (vm_compute; reflexivity).
  split; [exact H|]. rewrite H. intros HF.
  inversion HF as [|? ? _ HF1]; subst. inversion HF1 as [|? ? _ HF2]; subst.
  inversion HF2 as [|? ? [p [Hin [Hid Hcat]]] _]; subst.
  simpl in Hin.
  repeat (destruct Hin as [<-|Hin]; [vm_compute in Hid, Hcat; discriminate|]).
  exact Hin.
Qed.

(** ** C5 *)




(** ** C6 *)

Lemma search_error_message_nonempty o : search_error_message o <> [].
Proof. destruct o; discriminate. Qed.

Lemma webSearch_failure cfg w q url :
  configured (SERPAPI_KEY cfg) = true ->
  ToString q = Ok url ->
  well_formed_utf16 url = true ->
  search_failure (search_fetch w) ->
  webSearch cfg w q = Ok (error_value (search_error_message (search_fetch w))).
Proof.
  intros Hkey Hs Hwf Hf. unfold webSearch. rewrite Hkey, Hs. cbn [negb bind].
  rewrite Hwf. cbn [negb].
  destruct Hf as [st txt Hst| err |]; cbn [timeoutPromise search_error_message].
  - rewrite Hst. reflexivity.
  - reflexivity.
  - reflexivity.
Qed.

(** C6: for every failure of the search provider (a status outside 2xx, a
    network failure, the timeout) on a request that could be sent (the
    query converts to a string [url] that [encodeURIComponent] accepts, so
    that the URL is written and the call goes out), [webSearch] returns
    the value [{error: msg}] and throws nothing, the
    orchestrator goes on with the single snippet
    [{title: "search-error", snippet: msg}], and the failure alone makes no
    error response: whenever the same request is answered with 200 under
    some other outcome of the search, it is answered with 200 under the
    failure too. *)
Theorem C6_search_failure_not_fatal cfg w req q url :
  configured (SERPAPI_KEY cfg) = true ->
  search_failure (search_fetch w) ->
  query req = Some q ->
  truthy q = true ->
  ToString q = Ok url ->
  well_formed_utf16 url = true ->
  let msg := search_error_message (search_fetch w) in
  webSearch cfg w q = Ok (error_value msg)
  /\ bind (webSearch cfg w q) build_snippets = Ok [synthetic_snippet msg]
  /\ recommend_try cfg w req = after_search cfg w q (products req) [synthetic_snippet msg]
  /\ (forall other,
        status (api_recommend cfg (world_of other (model_fetch w)) req) = 200 ->
        status (api_recommend cfg w req) = 200).
Proof.
  intros Hkey Hf Hq Ht Hurl Hwf msg.
  pose proof (webSearch_failure cfg w q url Hkey Hurl Hwf Hf) as Hweb. fold msg in Hweb.
  pose proof (error_value_snippets _ (search_error_message_nonempty (search_fetch w))) as Hsn.
  fold msg in Hsn.
  assert (Htry : recommend_try cfg w req
                 = after_search cfg w q (products req) [synthetic_snippet msg]).
  { unfold recommend_try. rewrite Hq, Ht, Hweb. cbn [negb bind]. rewrite Hsn. reflexivity. }
  split; [exact Hweb|]. split; [rewrite Hweb; exact Hsn|]. split; [exact Htry|].
  intros other. unfold api_recommend. rewrite Htry.
  unfold recommend_try. rewrite Hq, Ht. simpl.
  destruct (webSearch cfg (world_of other (model_fetch w)) q) as [web'|e];
    simpl; [|discriminate].
  destruct (build_snippets web') as [sn'|e]; simpl; [|discriminate].
  pose proof (after_search_status_worlds cfg w (world_of other (model_fetch w)) q
                (products req) [synthetic_snippet msg] sn' eq_refl) as Hs.
  destruct (after_search cfg w q (products req) [synthetic_snippet msg]),
           (after_search cfg (world_of other (model_fetch w)) q (products req) sn');
    simpl; try contradiction; try discriminate.
  congruence.
Qed.

Lemma C6_witness :
  let w := world_of (Responded 503 (str "Service Unavailable")) (responds 200 prose_response) in
  webSearch both_keys w (JStr phone_query)
  = Ok (error_value (str "SerpApi HTTP 503: Service Unavailable"))
  /\ status (api_recommend both_keys w phone_request) = 200.
Proof.
  intros w.
  destruct (C6_search_failure_not_fatal both_keys w phone_request (JStr phone_query)
              phone_query)
    as [Hweb [_ [_ Hok]]]; try reflexivity.
  - apply failure_status. reflexivity.
  - split; [exact Hweb|]. apply (Hok (Responded 200 (str "{}"))). vm_compute. reflexivity.
Defined.

(** ** C7 *)

(** C7: when the model key is absent, or when the model call times out, no
    request gets a recommendation: the response is an [{error: msg}] body
    with status 400 (missing query) or 500, and it is 500 for every request
    that passes the query check. *)
Theorem C7_model_hard_failure_fails_request cfg w req :
  model_hard_failure cfg w ->
  is_error_body (body (api_recommend cfg w req))
  /\ (status (api_recommend cfg w req) = 400 \/ status (api_recommend cfg w req) = 500)
  /\ (truthy_val (query req) = true -> status (api_recommend cfg w req) = 500).
Proof.
  intros Hf.
  destruct (truthy_val (query req)) eqn:Ht.
  - destruct (present_query cfg w req Ht) as [q [Hq [Htq Htry]]].
    assert (H500 : exists msg, api_recommend cfg w req
                     = {| status := 500; body := error_value msg |}).
    { unfold api_recommend. rewrite Htry.
      destruct (webSearch cfg w q) as [web|e]; simpl; [|eauto].
      destruct (build_snippets web) as [sn|e]; simpl; [|eauto].
      rewrite after_search_unfold. destruct (stringable q); [|eauto].
      destruct (askGemini_hard_failure cfg w [] Hf) as [msg Hg].
      rewrite Hg. simpl. eauto. }
    destruct H500 as [msg ->]. simpl. unfold is_error_body. eauto.
  - rewrite (missing_query_400 cfg w req Ht). simpl. unfold is_error_body.
    split; [eauto|]. split; [auto|discriminate].
Qed.

Lemma C7_witness :
  status (api_recommend no_model_key (world_of TimedOut (responds 200 prose_response))
            phone_request) = 500.
Proof.
  apply (C7_model_hard_failure_fails_request no_model_key
           (world_of TimedOut (responds 200 prose_response)) phone_request).
  - left. reflexivity.
  - reflexivity.
Defined.

(** ** C8 *)

(** C8, as the code has it: [askGemini] never looks at the status of the
    response, so a response of any status (2xx or not) whose body is JSON
    is returned as data.  When that body is an object with no [candidates]
    array, no [output] array and no [recommended_ids] array (a provider's
    error body), whose serialization holds no triple backtick, the only
    text candidate is the stringified body, the extractor reads from it a
    value that fails the acceptance test (the whole body itself, when no
    number of the body is beyond the range of the doubles), and a request
    with a text query whose search step went through is answered with the
    fallback result and status 200. *)
Theorem C8_status_unchecked_fallback cfg w req qs st text kvs snippets :
  configured (GEMINI_KEY cfg) = true ->
  model_fetch w = Responded st text ->
  JSON_parse text = Some (JObj kvs) ->
  Array_isArray (lookup (str "candidates") kvs) = false ->
  Array_isArray (lookup (str "output") kvs) = false ->
  Array_isArray (lookup (str "recommended_ids") kvs) = false ->
  includes (JSON_stringify (JObj kvs)) fence = false ->
  query req = Some (JStr qs) ->
  qs <> [] ->
  bind (webSearch cfg w (JStr qs)) build_snippets = Ok snippets ->
  (forall prompt, askGemini cfg w prompt = Ok (JObj kvs))
  /\ collect_text_candidates (JObj kvs) = Ok [JStr (JSON_stringify (JObj kvs))]
  /\ (finite_numbers (JObj kvs) = true ->
      extractJSONFromText (JStr (JSON_stringify (JObj kvs))) = JObj kvs)
  /\ accepted (extractJSONFromText (JStr (JSON_stringify (JObj kvs)))) = false
  /\ accepted (JObj kvs) = false
  /\ api_recommend cfg w req
     = {| status := 200;
          body := fallback_body (fallback_ids (toLowerCase qs) (products req))
                    snippets [JStr (JSON_stringify (JObj kvs))] |}.
Proof.
  intros Hkey Hm Hp Hc Ho Hr Hfence Hq Hqs Hsn.
  assert (Hask : forall prompt, askGemini cfg w prompt = Ok (JObj kvs)).
  { intros prompt. eapply askGemini_responded; eauto. }
  pose proof (collect_no_text_shapes kvs Hc Ho) as Hcol.
  pose proof (extract_stringified_object kvs (JSON_parse_wf _ _ Hp) Hfence) as Hex.
  assert (Hacc : accepted (JObj kvs) = false).
  { unfold accepted. cbn [truthy prop andb]. exact Hr. }
  split; [exact Hask|]. split; [exact Hcol|]. split; [intros _; exact Hex|].
  split; [rewrite Hex; exact Hacc|]. split; [exact Hacc|].
  unfold api_recommend, recommend_try. rewrite Hq.
  destruct qs as [|c qs']; [congruence|]. cbn [truthy negb].
  unfold bind in Hsn.
  destruct (webSearch cfg w (JStr (c :: qs'))) as [web|e]; [|discriminate].
  cbn [bind]. rewrite Hsn. cbn [bind].
  rewrite after_search_unfold. cbn [stringable].
  rewrite Hask. cbn [bind]. rewrite Hcol. cbn [bind].
  cbn [try_candidates]. rewrite Hex. cbn [truthy]. rewrite Hacc.
  reflexivity.
Qed.

Lemma C8_witness :
  let w := world_of TimedOut (responds 400 provider_error) in
  extractJSONFromText (JStr (JSON_stringify provider_error)) = provider_error
  /\ status (api_recommend both_keys w phone_request) = 200
  /\ prop (body (api_recommend both_keys w phone_request)) (str "reason")
     = Some (JStr fallback_reason).
Proof.
  intros w.
  destruct (C8_status_unchecked_fallback both_keys w phone_request phone_query 400
              (JSON_stringify provider_error)
              [(str "error",
                JObj [(str "code", JNum (num_of_N 400));
                      (str "message", JStr (str "API key not valid."));
                      (str "status", JStr (str "INVALID_ARGUMENT"))])]
              [synthetic_snippet (str "SerpApi fetch error: Error: timeout")])
    as (_ & _ & Hex & _ & _ & Hresp);
    try (vm_compute; reflexivity); try discriminate.
  split; [apply Hex; reflexivity|]. rewrite Hresp. split; reflexivity.
Defined.

(** C8 as stated fails for some JSON bodies: a 503 whose body is
    [{"candidates":[null]}] makes the request fail with 500, and a 500
    whose body is [{"recommended_ids":["p2"]}] is answered with 200 and
    that body, not with the fallback result. *)
Lemma C8_counterexample :
  let w1 := world_of TimedOut (responds 503 broken_candidates) in
  let w2 := world_of TimedOut (responds 500 recommendation_body) in
  JSON_parse (JSON_stringify broken_candidates) = Some broken_candidates
  /\ status (api_recommend both_keys w1 phone_request) = 500
  /\ JSON_parse (JSON_stringify recommendation_body) = Some recommendation_body
  /\ api_recommend both_keys w2 phone_request
     = {| status := 200; body := recommendation_body |}.
Proof. vm_compute. repeat split. Qed.

(** ** C9 *)

Lemma accepted_recommended_ids v :
  accepted v = true -> exists ids, prop v (str "recommended_ids") = Some (JArr ids).
Proof.
  unfold accepted. intros H. apply andb_true_iff in H. destruct H as [_ H].
  destruct (prop v (str "recommended_ids")) as [[| | | |ids|]|]; try discriminate.
  eauto.
Qed.

(** C9: in every 200 response of the endpoint, [recommended_ids] is an
    array; when the model's answer was not accepted (the fallback path) the
    array holds at most 3 entries, each the [id] of a product of the
    request. *)
Theorem C9_recommended_ids_is_array cfg w req :
  status (api_recommend cfg w req) = 200 ->
  exists ids,
    prop (body (api_recommend cfg w req)) (str "recommended_ids") = Some (JArr ids)
    /\ (model_accepted cfg w = false ->
        (length ids <= 3)%nat
        /\ Forall (fun i => exists p, In p (products req) /\ i = JStr (id p)) ids).
Proof.
  intros H200.
  destruct (ok_response_cases cfg w req H200)
    as (q & sn & gem & cands & Hq & Hsn & Hgem & Hc & Hcase).
  destruct Hcase as [(Hm & Hacc & Hb) | (Hm & lower & Hl & Hb)].
  - destruct (accepted_recommended_ids _ Hacc) as [ids Hids].
    exists ids. rewrite Hb. split; [exact Hids|]. rewrite Hm. discriminate.
  - exists (map JStr (fallback_ids lower (products req))).
    rewrite Hb. split; [reflexivity|]. intros _. split.
    + rewrite length_map. apply fallback_ids_length.
    + apply Forall_forall. intros i Hi. apply in_map_iff in Hi.
      destruct Hi as [s [<- Hs]].
      destruct (fallback_ids_from_catalog _ _ _ Hs) as [p [Hp Hid]].
      exists p. rewrite Hid. auto.
Qed.

Lemma C9_witness :
  exists ids,
    prop (body (api_recommend both_keys (world_of TimedOut (responds 200 prose_response))
                  phone_request)) (str "recommended_ids") = Some (JArr ids)
    /\ (length ids <= 3)%nat.
Proof.
  destruct (C9_recommended_ids_is_array both_keys
              (world_of TimedOut (responds 200 prose_response)) phone_request)
    as [ids [Hids Hfb]].
  - vm_compute. reflexivity.
  - exists ids. split; [exact Hids|]. apply Hfb. vm_compute. reflexivity.
Defined.

(** ** C10 *)

Lemma trim_blank_cases q : trim q = [] \/ exists c r, trim q = c :: r.
Proof. destruct (trim q) as [|c r]; eauto. Qed.

(** C10, as the code has it: the endpoint answers 400 with
    [{error: "missing query"}], before any search or model call, exactly
    when [query] is missing or falsy (null, false, 0, the empty string); a
    query of white space only is stopped by the submit handler of the
    page, which posts nothing for it, and every request the page posts
    carries a query that is not blank. *)
Theorem C10_query_checks :
  (forall cfg w req,
      truthy_val (query req) = false ->
      api_recommend cfg w req
      = {| status := 400; body := error_value (str "missing query") |})
  /\ (forall cfg w req,
      truthy_val (query req) = true ->
      exists q, query req = Some q /\
        recommend_try cfg w req
        = bind (bind (webSearch cfg w q) build_snippets)
               (after_search cfg w q (products req)))
  /\ (forall text,
      trim text = [] ->
      handleRecommend text
      = SetError (str "Enter something like: I want a phone under $500"))
  /\ (forall text req,
      handleRecommend text = Post req ->
      trim text <> [] /\ query req = Some (JStr text)
      /\ truthy_val (query req) = true /\ products req = PRODUCTS).
Proof.
  split; [exact missing_query_400|].
  split.
  { intros cfg w req Ht. destruct (present_query cfg w req Ht) as [q [Hq [_ Htry]]].
    eauto. }
  split.
  { intros text Hb. unfold handleRecommend. rewrite Hb. reflexivity. }
  intros text req. unfold handleRecommend.
  destruct (trim text) as [|c r] eqn:Htrim; [discriminate|].
  intros H. injection H as <-. simpl.
  split; [discriminate|]. split; [reflexivity|]. split; [|reflexivity].
  destruct text; [discriminate|reflexivity].
Qed.

Lemma C10_witness :
  api_recommend both_keys (world_of TimedOut TimedOut)
    {| query := Some (JStr []); products := PRODUCTS |}
  = {| status := 400; body := error_value (str "missing query") |}
  /\ handleRecommend (str "   ")
     = SetError (str "Enter something like: I want a phone under $500").
Proof.
  destruct C10_query_checks as [Hmissing [_ [Hblank _]]].
  split.
  - apply Hmissing. reflexivity.
  - apply Hblank. reflexivity.
Defined.

(** C10 as stated fails at the endpoint: a request whose query is three
    spaces is not rejected, it runs the whole pipeline and is answered
    with 200. *)
Lemma C10_counterexample :
  let req := {| query := Some (JStr (str "   ")); products := PRODUCTS |} in
  let w := world_of TimedOut (responds 200 prose_response) in
  trim (str "   ") = []
  /\ status (api_recommend both_keys w req) = 200
  /\ prop (body (api_recommend both_keys w req)) (str "reason")
     = Some (JStr fallback_reason).
Proof. vm_compute. auto. Qed.

(* ================================================================== *)
(** * Further properties of the code *)
(* ================================================================== *)

(** ** The extractor: what it returns was in the text *)

Lemma forallb_firstn {A} (p : A -> bool) n l :
  forallb p l = true -> forallb p (firstn n l) = true.
Proof.
  revert l. induction n as [|n IH]; intros [|x l]; simpl; auto.
  intros H. apply andb_true_iff in H. destruct H as [-> H]. simpl. auto.
Qed.

Lemma starts_with_app (pat s : jsstring) :
  starts_with pat s = true -> s = pat ++ skipn (length pat) s.
Proof.
  revert s. induction pat as [|x pat IH]; intros s; [reflexivity|].
  destruct s as [|y s]; simpl; [discriminate|].
  intros H. apply andb_true_iff in H. destruct H as [Hx Hs].
  apply N.eqb_eq in Hx. subst. f_equal. apply IH. exact Hs.
Qed.

Lemma split_at_first_app (pat s pre post : jsstring) :
  split_at_first pat s = Some (pre, post) -> s = pre ++ pat ++ post.
Proof.
  revert pre. induction s as [|c s IH]; intros pre; cbn [split_at_first].
  - destruct (starts_with pat []) eqn:Hs; [|discriminate].
    intros E. injection E as <- <-. apply (starts_with_app _ _ Hs).
  - destruct (starts_with pat (c :: s)) eqn:Hs.
    + intros E. injection E as <- <-. apply (starts_with_app _ _ Hs).
    + destruct (split_at_first pat s) as [[pre' post']|]; [|discriminate].
      intros E. injection E as <- <-. cbn [app]. f_equal. apply IH. reflexivity.
Qed.

Lemma part_of_refl (s : jsstring) : part_of s s.
Proof. exists [], []. rewrite app_nil_r. reflexivity. Qed.

Lemma part_of_trans (a b c : jsstring) : part_of a b -> part_of b c -> part_of a c.
Proof.
  intros (x & y & ->) (u & v & ->). exists (u ++ x), (y ++ v).
  rewrite <- !app_assoc. reflexivity.
Qed.

Lemma part_of_suffix (a b : jsstring) : part_of b (a ++ b).
Proof. exists a, []. rewrite app_nil_r. reflexivity. Qed.

Lemma trim_part (s : jsstring) : part_of (trim s) s.
Proof.
  unfold trim.
  destruct (drop_while_suffix is_js_space s) as [a Ha].
  destruct (drop_while_suffix is_js_space (rev (drop_while is_js_space s))) as [b Hb].
  exists a, (rev b).
  rewrite <- rev_app_distr, <- Hb, rev_involutive. exact Ha.
Qed.

Lemma slice_part (s : jsstring) i j : part_of (slice s i j) s.
Proof.
  unfold slice. exists (firstn i s), (skipn (j - i) (skipn i s)).
  rewrite firstn_skipn, firstn_skipn. reflexivity.
Qed.

Lemma fenced_exec_part s m rest :
  fenced_exec s = Some (m, rest) -> exists a, s = a ++ m ++ fence ++ rest.
Proof.
  unfold fenced_exec.
  destruct (split_at_first fence s) as [[pre after]|] eqn:H1; [|discriminate].
  intros H2. apply split_at_first_app in H1. apply split_at_first_app in H2.
  destruct (skip_json_tag_suffix after) as [x Hx].
  destruct (drop_while_suffix is_js_space (skip_json_tag after)) as [y Hy].
  exists (pre ++ fence ++ x ++ y).
  rewrite H1, Hx at 1. rewrite Hy at 1. rewrite H2. rewrite <- !app_assoc. reflexivity.
Qed.

Lemma fenced_matches_from_part fuel s m :
  In m (fenced_matches_from fuel s) -> part_of m s.
Proof.
  revert s. induction fuel as [|f IH]; intros s; cbn [fenced_matches_from]; [intros []|].
  destruct (fenced_exec s) as [[m1 rest]|] eqn:He; [|intros []].
  destruct (fenced_exec_part _ _ _ He) as [a Ha].
  intros [<-|Hin].
  - exists a, (fence ++ rest). exact Ha.
  - apply (part_of_trans _ rest); [apply IH; exact Hin|].
    rewrite Ha. exists (a ++ m1 ++ fence), []. rewrite <- !app_assoc, app_nil_r.
    reflexivity.
Qed.

Lemma scan_close_parse text i n v :
  scan_close text i n = Some v ->
  exists j, (i < j <= i + n)%nat /\ unit_at_is text j rbrace = true
            /\ JSON_parse (slice text i (j + 1)) = Some v.
Proof.
  induction n as [|n IH]; [discriminate|].
  cbn [scan_close]. cbv zeta.
  destruct (unit_at_is text (i + S n) rbrace) eqn:Hu.
  - destruct (JSON_parse (slice text i (i + S n + 1))) as [x|] eqn:Hp.
    + intros E. injection E as <-. exists (i + S n)%nat. repeat split; auto; lia.
    + intros H. destruct (IH H) as [j [Hj ?]]. exists j. split; [lia|assumption].
  - intros H. destruct (IH H) as [j [Hj ?]]. exists j. split; [lia|assumption].
Qed.

Lemma scan_open_parse text last i count v :
  scan_open text last i count = Some v ->
  exists i' j, (i <= i' < i + count)%nat /\ (i' < j <= i' + (last - i'))%nat
               /\ unit_at_is text i' lbrace = true
               /\ unit_at_is text j rbrace = true
               /\ JSON_parse (slice text i' (j + 1)) = Some v.
Proof.
  revert i. induction count as [|c IH]; intros i; [discriminate|].
  cbn [scan_open].
  destruct (unit_at_is text i lbrace) eqn:Hu.
  - destruct (scan_close text i (last - i)) as [x|] eqn:Hs.
    + intros E. injection E as <-.
      destruct (scan_close_parse _ _ _ _ Hs) as [j [Hj [Hr Hp]]].
      exists i, j. repeat split; auto; lia.
    + intros H. destruct (IH _ H) as (i' & j & Hi & ?). exists i', j.
      split; [lia|assumption].
  - intros H. destruct (IH _ H) as (i' & j & Hi & ?). exists i', j.
    split; [lia|assumption].
Qed.

Lemma scan_open_braces text last i count v :
  scan_open text last i count = Some v ->
  exists i' j, (i' < j)%nat /\ braces_parse text i' j v.
Proof.
  intros H. destruct (scan_open_parse _ _ _ _ _ H) as (i' & j & _ & Hj & Hl & Hr & Hp).
  exists i', j. split; [lia|]. repeat split; assumption.
Qed.

Lemma indexOf_Some (s : jsstring) c i :
  indexOf s c = Some i ->
  unit_at_is s i c = true /\ forall k, (k < i)%nat -> unit_at_is s k c = false.
Proof.
  revert i. induction s as [|x s IH]; intros i; cbn [indexOf]; [discriminate|].
  destruct (N.eqb x c) eqn:Hx.
  - intros E. injection E as <-. split; [exact Hx|]. intros k Hk. lia.
  - destruct (indexOf s c) as [i'|]; [|discriminate].
    intros E. injection E as <-. destruct (IH _ eq_refl) as [H1 H2].
    split; [exact H1|]. intros [|k] Hk; [exact Hx|]. apply H2. lia.
Qed.

Lemma indexOf_None_at (s : jsstring) c :
  indexOf s c = None -> forall k, unit_at_is s k c = false.
Proof.
  induction s as [|x s IH]; cbn [indexOf]; intros H k.
  - destruct k; reflexivity.
  - destruct (N.eqb x c) eqn:Hx; [discriminate|].
    destruct (indexOf s c); [discriminate|].
    destruct k as [|k]; [exact Hx|]. apply (IH eq_refl).
Qed.

Lemma lastIndexOf_Some (s : jsstring) c i :
  lastIndexOf s c = Some i ->
  unit_at_is s i c = true /\ forall k, (i < k)%nat -> unit_at_is s k c = false.
Proof.
  revert i. induction s as [|x s IH]; intros i; cbn [lastIndexOf]; [discriminate|].
  destruct (lastIndexOf s c) as [i'|] eqn:Hl.
  - intros E. injection E as <-. destruct (IH _ eq_refl) as [H1 H2].
    split; [exact H1|]. intros [|k] Hk; [lia|]. apply H2. lia.
  - destruct (N.eqb x c) eqn:Hx; [|discriminate].
    intros E. injection E as <-. split; [exact Hx|].
    intros [|k] Hk; [lia|]. clear - Hl.
    revert k. induction s as [|y s IHs]; intros k; [destruct k; reflexivity|].
    cbn [lastIndexOf] in Hl.
    destruct (lastIndexOf s c); [discriminate|].
    destruct (N.eqb y c) eqn:Hy; [discriminate|].
    destruct k as [|k]; [exact Hy|]. apply IHs. reflexivity.
Qed.

Lemma lastIndexOf_None_at (s : jsstring) c :
  lastIndexOf s c = None -> forall k, unit_at_is s k c = false.
Proof.
  induction s as [|x s IH]; cbn [lastIndexOf]; intros H k.
  - destruct k; reflexivity.
  - destruct (lastIndexOf s c); [discriminate|].
    destruct (N.eqb x c) eqn:Hx; [discriminate|].
    destruct k as [|k]; [exact Hx|]. apply (IH eq_refl).
Qed.

(** The brace steps return [null] or what [JSON.parse] reads from a slice
    that goes from a [{] to a later [}]. *)
Lemma extract_braces_braces text v :
  extract_braces text = v -> v <> JNull ->
  exists i j, (i < j)%nat /\ braces_parse text i j v.
Proof.
  unfold extract_braces.
  destruct (indexOf text lbrace) as [fb|] eqn:Hf; [|congruence].
  destruct (lastIndexOf text rbrace) as [lb|] eqn:Hl; [|congruence].
  destruct (fb <? lb)%nat eqn:Hlt; [|congruence].
  apply Nat.ltb_lt in Hlt.
  destruct (JSON_parse (slice text fb (lb + 1))) as [x|] eqn:Hp.
  - intros <- _. exists fb, lb. split; [exact Hlt|].
    split; [apply (indexOf_Some _ _ _ Hf)|].
    split; [apply (lastIndexOf_Some _ _ _ Hl)|exact Hp].
  - destruct (scan_open text lb fb (lb - fb)) as [x|] eqn:Hs; [|congruence].
    intros <- _. eapply scan_open_braces; eauto.
Qed.

(** X1: the extractor makes nothing up.  A result other than [null] was
    read by [JSON.parse] from a part of the text: from what a pair of
    fences encloses, trimmed, or from a slice of the text. *)
Theorem extracted_value_was_in_the_text text v :
  extractJSONFromText text = v -> v <> JNull ->
  exists s sub, text = JStr s /\ part_of sub s /\ JSON_parse sub = Some v.
Proof.
  unfold extractJSONFromText.
  destruct text as [| | |[|c s]| |]; try congruence.
  destruct (first_parse (map trim (fenced_matches (c :: s)))) as [x|] eqn:Hf.
  - intros <- _. destruct (first_parse_In _ _ Hf) as [t [Hin Ht]].
    apply in_map_iff in Hin. destruct Hin as [m [<- Hm]].
    exists (c :: s), (trim m). split; [reflexivity|]. split; [|exact Ht].
    apply (part_of_trans _ m); [apply trim_part|].
    eapply fenced_matches_from_part. exact Hm.
  - intros H Hn. destruct (extract_braces_braces _ _ H Hn) as (i & j & _ & _ & _ & Hp).
    exists (c :: s), (slice (c :: s) i (j + 1)).
    split; [reflexivity|]. split; [apply slice_part|exact Hp].
Qed.

Lemma extracted_value_was_in_the_text_witness :
  let text := JStr (str "Sure! {x} then {" ++ dq ++ str "a" ++ dq
                    ++ str ":[1,2]} and more }") in
  exists s sub,
    text = JStr s /\ part_of sub s
    /\ JSON_parse sub = Some (JObj [(str "a", JArr [JNum (num_of_N 1); JNum (num_of_N 2)])]).
Proof.
  intros text.
  apply (extracted_value_was_in_the_text text).
  - vm_compute. reflexivity.
  - discriminate.
Defined.

(** ** The extractor: which braces it takes *)

Lemma parse_value_lbrace fuel (s : jsstring) v r :
  parse_value fuel (lbrace :: s) = Some (v, r) -> exists kvs, v = JObj kvs.
Proof.
  destruct fuel as [|f]; [discriminate|].
  cbn [parse_value]. unfold skip_ws at 1. cbn [drop_while].
  replace (is_json_ws lbrace) with false by reflexivity.
  replace (lbrace =? 123) with true by reflexivity.
  destruct (skip_ws s) as [|d r']; [discriminate|].
  destruct (d =? 125).
  - intros E. injection E as <- _. eauto.
  - destruct (parse_members f (d :: r')) as [[kvs rest]|]; [|discriminate].
    intros E. injection E as <- _. eauto.
Qed.

Lemma JSON_parse_lbrace (s : jsstring) v :
  JSON_parse (lbrace :: s) = Some v -> exists kvs, v = JObj kvs.
Proof.
  unfold JSON_parse.
  destruct (parse_value (2 * length (lbrace :: s) + 2) (lbrace :: s)) as [[x r]|] eqn:Hp;
    [|discriminate].
  destruct (skip_ws r); [|discriminate].
  intros E. injection E as <-. eapply parse_value_lbrace; eauto.
Qed.

Lemma unit_at_is_eq (s : jsstring) i c :
  unit_at_is s i c = true -> nth_error s i = Some c.
Proof.
  unfold unit_at_is. destruct (nth_error s i) as [x|]; [|discriminate].
  intros H. apply N.eqb_eq in H. congruence.
Qed.

Lemma slice_head (s : jsstring) i j c :
  unit_at_is s i c = true -> (i < j)%nat ->
  exists t, slice s i j = c :: t.
Proof.
  intros Hu Hij. apply unit_at_is_eq in Hu. unfold slice.
  destruct (nth_error_split s i Hu) as (l1 & l2 & -> & <-).
  rewrite skipn_app, Nat.sub_diag, skipn_all. cbn [app skipn].
  destruct (j - length l1)%nat as [|n] eqn:Hn; [lia|].
  cbn [firstn]. eauto.
Qed.

(** What is read between braces is an object, never [null]. *)
Lemma braces_parse_object text i j v :
  (i < j)%nat -> braces_parse text i j v -> exists kvs, v = JObj kvs.
Proof.
  intros Hij (Hl & _ & Hp).
  destruct (slice_head text i (j + 1) lbrace Hl ltac:(lia)) as [t Ht].
  rewrite Ht in Hp. eapply JSON_parse_lbrace; eauto.
Qed.

Lemma scan_close_spec text i n :
  match scan_close text i n with
  | Some v =>
      exists j, (i < j <= i + n)%nat /\ unit_at_is text j rbrace = true
                /\ JSON_parse (slice text i (j + 1)) = Some v
                /\ forall j', (j < j' <= i + n)%nat ->
                              unit_at_is text j' rbrace = true ->
                              JSON_parse (slice text i (j' + 1)) = None
  | None =>
      forall j, (i < j <= i + n)%nat -> unit_at_is text j rbrace = true ->
                JSON_parse (slice text i (j + 1)) = None
  end.
Proof.
  induction n as [|n IH]; cbn [scan_close]; [intros j Hj; lia|]. cbv zeta.
  destruct (unit_at_is text (i + S n) rbrace) eqn:Hu.
  - destruct (JSON_parse (slice text i (i + S n + 1))) as [x|] eqn:Hp.
    + exists (i + S n)%nat. split; [lia|]. split; [exact Hu|]. split; [exact Hp|].
      intros j' Hj'. lia.
    + destruct (scan_close text i n) as [v|].
      * destruct IH as (j & Hj & Hr & Hv & Hmax). exists j.
        split; [lia|]. split; [exact Hr|]. split; [exact Hv|]. intros j' Hj' Hr'.
        destruct (Nat.eq_dec j' (i + S n)) as [->|Hne]; [exact Hp|].
        apply Hmax; [lia|exact Hr'].
      * intros j Hj Hr.
        destruct (Nat.eq_dec j (i + S n)) as [->|Hne]; [exact Hp|].
        apply IH; [lia|exact Hr].
  - destruct (scan_close text i n) as [v|].
    + destruct IH as (j & Hj & Hr & Hv & Hmax). exists j.
      split; [lia|]. split; [exact Hr|]. split; [exact Hv|]. intros j' Hj' Hr'.
      destruct (Nat.eq_dec j' (i + S n)) as [->|Hne]; [congruence|].
      apply Hmax; [lia|exact Hr'].
    + intros j Hj Hr.
      destruct (Nat.eq_dec j (i + S n)) as [->|Hne]; [congruence|].
      apply IH; [lia|exact Hr].
Qed.

Lemma scan_open_spec text last count : forall i,
  (i + count = last)%nat ->
  match scan_open text last i count with
  | Some v =>
      exists i' j, (i <= i' /\ i' < j <= last)%nat /\ braces_parse text i' j v
        /\ forall i2 j2 v2, (i <= i2 /\ i2 < j2 <= last)%nat ->
                            braces_parse text i2 j2 v2 ->
                            (i' < i2 \/ (i2 = i' /\ j2 <= j))%nat
  | None =>
      forall i2 j2 v2, (i <= i2 /\ i2 < j2 <= last)%nat -> ~ braces_parse text i2 j2 v2
  end.
Proof.
  induction count as [|c IH]; intros i Hi; cbn [scan_open].
  { intros i2 j2 v2 Hr. lia. }
  assert (Hlast : (i + (last - i) = last)%nat) by lia.
  pose proof (scan_close_spec text i (last - i)) as Hc. rewrite Hlast in Hc.
  specialize (IH (S i) ltac:(lia)).
  destruct (unit_at_is text i lbrace) eqn:Hu.
  - destruct (scan_close text i (last - i)) as [x|].
    + destruct Hc as (j & Hj & Hr & Hp & Hmax).
      exists i, j. split; [lia|]. split; [repeat split; assumption|].
      intros i2 j2 v2 Hr2 (Hl2 & Hr2' & Hp2).
      destruct (Nat.eq_dec i2 i) as [->|Hne]; [|left; lia].
      right. split; [reflexivity|].
      destruct (Nat.le_gt_cases j2 j) as [Hle|Hgt]; [exact Hle|].
      rewrite (Hmax j2 ltac:(lia) Hr2') in Hp2. discriminate.
    + destruct (scan_open text last (S i) c) as [v|].
      * destruct IH as (i' & j & Hij & Hb & Hmin). exists i', j.
        split; [lia|]. split; [exact Hb|].
        intros i2 j2 v2 Hr2 Hb2.
        destruct (Nat.eq_dec i2 i) as [->|Hne].
        -- destruct Hb2 as (_ & Hr2' & Hp2).
           rewrite (Hc j2 ltac:(lia) Hr2') in Hp2. discriminate.
        -- apply (Hmin i2 j2 v2); [lia|exact Hb2].
      * intros i2 j2 v2 Hr2 Hb2.
        destruct (Nat.eq_dec i2 i) as [->|Hne].
        -- destruct Hb2 as (_ & Hr2' & Hp2).
           rewrite (Hc j2 ltac:(lia) Hr2') in Hp2. discriminate.
        -- apply (IH i2 j2 v2); [lia|exact Hb2].
  - destruct (scan_open text last (S i) c) as [v|].
    + destruct IH as (i' & j & Hij & Hb & Hmin). exists i', j.
      split; [lia|]. split; [exact Hb|].
      intros i2 j2 v2 Hr2 Hb2.
      destruct (Nat.eq_dec i2 i) as [->|Hne].
      * destruct Hb2 as (Hl2 & _). congruence.
      * apply (Hmin i2 j2 v2); [lia|exact Hb2].
    + intros i2 j2 v2 Hr2 Hb2.
      destruct (Nat.eq_dec i2 i) as [->|Hne].
      * destruct Hb2 as (Hl2 & _). congruence.
      * apply (IH i2 j2 v2); [lia|exact Hb2].
Qed.

(** X2: the scan over the pairs of braces, from [firstBrace] to
    [lastBrace], returns what is read from the leftmost [{] that opens a
    slice that parses, taken up to the rightmost [}] that closes such a
    slice from there: every other pair of braces whose slice parses lies
    to the right of it, or shares its [{] and closes earlier.  It returns
    nothing only when no pair of braces in the range has a slice that
    parses. *)
Theorem brace_scan_leftmost_longest text firstBrace lastBrace :
  match scan_open text lastBrace firstBrace (lastBrace - firstBrace) with
  | Some v =>
      exists i j,
        (firstBrace <= i /\ i < j <= lastBrace)%nat /\ braces_parse text i j v
        /\ forall i' j' v',
             (firstBrace <= i' /\ i' < j' <= lastBrace)%nat ->
             braces_parse text i' j' v' ->
             (i < i' \/ (i' = i /\ j' <= j))%nat
  | None =>
      forall i j v, (firstBrace <= i /\ i < j <= lastBrace)%nat ->
                    ~ braces_parse text i j v
  end.
Proof.
  destruct (Nat.le_gt_cases firstBrace lastBrace) as [Hle|Hgt].
  - apply scan_open_spec. lia.
  - replace (lastBrace - firstBrace)%nat with 0%nat by lia. cbn [scan_open].
    intros i j v Hr. lia.
Qed.

(** X3: the brace steps miss nothing.  They come to [null] exactly when
    the text has no [{] and later [}] whose slice [JSON.parse] reads; a
    text without fences is therefore answered with [null] by the extractor
    exactly in that case. *)
Theorem extractor_null_iff_no_braces_parse (s : jsstring) :
  (extract_braces s = JNull
   <-> forall i j v, (i < j)%nat -> ~ braces_parse s i j v)
  /\ (includes s fence = false ->
      (extractJSONFromText (JStr s) = JNull
       <-> forall i j v, (i < j)%nat -> ~ braces_parse s i j v)).
Proof.
  assert (Hb : extract_braces s = JNull
               <-> forall i j v, (i < j)%nat -> ~ braces_parse s i j v).
  { split.
    - intros Hn i j v Hij Hbp.
      destruct (braces_parse_object _ _ _ _ Hij Hbp) as [kvs ->].
      destruct Hbp as (Hl & Hr & Hp).
      unfold extract_braces in Hn.
      destruct (indexOf s lbrace) as [fb|] eqn:Hf;
        [|rewrite (indexOf_None_at _ _ Hf i) in Hl; discriminate].
      destruct (lastIndexOf s rbrace) as [lb|] eqn:Hla;
        [|rewrite (lastIndexOf_None_at _ _ Hla j) in Hr; discriminate].
      destruct (indexOf_Some _ _ _ Hf) as [Hfb Hmin].
      destruct (lastIndexOf_Some _ _ _ Hla) as [Hlb Hmax].
      assert (Hi : (fb <= i)%nat).
      { destruct (Nat.le_gt_cases fb i) as [H|H]; [exact H|].
        rewrite (Hmin i H) in Hl. discriminate. }
      assert (Hj : (j <= lb)%nat).
      { destruct (Nat.le_gt_cases j lb) as [H|H]; [exact H|].
        rewrite (Hmax j H) in Hr. discriminate. }
      assert (Hlt : (fb <? lb)%nat = true) by (apply Nat.ltb_lt; lia).
      rewrite Hlt in Hn.
      destruct (JSON_parse (slice s fb (lb + 1))) as [x|] eqn:Hw.
      + subst x.
        destruct (braces_parse_object s fb lb JNull ltac:(lia)) as [? ?];
          [repeat split; assumption|discriminate].
      + pose proof (brace_scan_spec_None := scan_open_spec s lb (lb - fb) fb ltac:(lia)).
        destruct (scan_open s lb fb (lb - fb)) as [x|] eqn:Hs.
        * subst x. destruct (scan_open_braces _ _ _ _ _ Hs) as (i' & j' & Hij' & Hbp').
          destruct (braces_parse_object _ _ _ _ Hij' Hbp') as [? ?]. discriminate.
        * apply (brace_scan_spec_None i j (JObj kvs)); [lia|repeat split; assumption].
    - intros Hno. destruct (extract_braces s) as [| | | | |] eqn:He; try reflexivity;
        (destruct (extract_braces_braces _ _ He ltac:(discriminate)) as (i & j & Hij & Hbp);
         destruct (Hno _ _ _ Hij Hbp)). }
  split; [exact Hb|].
  intros Hfence. unfold extractJSONFromText.
  destruct s as [|c s].
  - split; [|reflexivity]. intros _ i j v Hij (Hl & _). destruct i; discriminate.
  - rewrite (fenced_matches_no_fence _ Hfence). cbn [map first_parse]. exact Hb.
Qed.

Lemma extractor_null_iff_no_braces_parse_witness :
  ~ braces_parse (str "{ not json } at all }") 0 11 (JObj []).
Proof.
  apply (proj1 (proj2 (extractor_null_iff_no_braces_parse (str "{ not json } at all }"))
                  eq_refl)).
  - reflexivity.
  - lia.
Defined.

Lemma indexOf_first (pre : jsstring) c r :
  ~ In c pre -> indexOf (pre ++ c :: r) c = Some (length pre).
Proof.
  induction pre as [|x pre IH]; intros H; cbn [app indexOf length].
  - rewrite N.eqb_refl. reflexivity.
  - destruct (N.eqb_spec x c) as [->|Hne]; [destruct H; left; reflexivity|].
    rewrite IH; [reflexivity|]. intros Hin. apply H. right. exact Hin.
Qed.

Lemma lastIndexOf_None_not_In (s : jsstring) c : ~ In c s -> lastIndexOf s c = None.
Proof.
  induction s as [|x s IH]; intros H; cbn [lastIndexOf]; [reflexivity|].
  rewrite IH by (intros Hin; apply H; right; exact Hin).
  destruct (N.eqb_spec x c) as [->|Hne]; [destruct H; left; reflexivity|reflexivity].
Qed.

Lemma lastIndexOf_final (a : jsstring) c post :
  ~ In c post -> lastIndexOf (a ++ c :: post) c = Some (length a).
Proof.
  intros H. induction a as [|x a IH]; cbn [app lastIndexOf length].
  - rewrite (lastIndexOf_None_not_In _ _ H), N.eqb_refl. reflexivity.
  - rewrite IH. reflexivity.
Qed.

Lemma slice_middle (pre mid post : jsstring) :
  slice (pre ++ mid ++ post) (length pre) (length pre + length mid) = mid.
Proof.
  unfold slice. rewrite skipn_app, Nat.sub_diag, skipn_all. cbn [app skipn].
  replace (length pre + length mid - length pre)%nat with (length mid) by lia.
  rewrite firstn_app, Nat.sub_diag, firstn_all. cbn [firstn]. apply app_nil_r.
Qed.

(** X4: an object written in the middle of prose is recovered.  When the
    text holds no fence, nothing before the object holds a [{] and nothing
    after it holds a [}], the extractor returns what [JSON.parse] reads
    from the object, whatever else surrounds it. *)
Theorem inline_object_is_recovered (pre inner post : jsstring) v :
  ~ In lbrace pre -> ~ In rbrace post ->
  includes (pre ++ (lbrace :: inner ++ [rbrace]) ++ post) fence = false ->
  JSON_parse (lbrace :: inner ++ [rbrace]) = Some v ->
  extractJSONFromText (JStr (pre ++ (lbrace :: inner ++ [rbrace]) ++ post)) = v.
Proof.
  intros Hpre Hpost Hfence Hp.
  set (text := pre ++ (lbrace :: inner ++ [rbrace]) ++ post) in *.
  assert (Hext : extractJSONFromText (JStr text) = extract_braces text).
  { unfold extractJSONFromText.
    destruct text as [|c t] eqn:Ht; [destruct pre; discriminate|].
    rewrite (fenced_matches_no_fence _ Hfence). reflexivity. }
  rewrite Hext. unfold extract_braces.
  assert (Hi : indexOf text lbrace = Some (length pre)).
  { unfold text. cbn [app]. apply indexOf_first. exact Hpre. }
  assert (Hl : lastIndexOf text rbrace = Some (length pre + S (length inner))%nat).
  { unfold text.
    replace (pre ++ (lbrace :: inner ++ [rbrace]) ++ post)
      with ((pre ++ lbrace :: inner) ++ rbrace :: post)
      by (cbn [app]; rewrite <- !app_assoc; reflexivity).
    rewrite (lastIndexOf_final _ _ _ Hpost), length_app. reflexivity. }
  rewrite Hi, Hl.
  replace (length pre <? length pre + S (length inner))%nat with true
    by (symmetry; apply Nat.ltb_lt; lia).
  replace (length pre + S (length inner) + 1)%nat
    with (length pre + length (lbrace :: inner ++ [rbrace]))%nat
    by (cbn [length]; rewrite length_app; cbn [length]; lia).
  unfold text. rewrite slice_middle, Hp. reflexivity.
Qed.

Lemma inline_object_is_recovered_witness :
  extractJSONFromText
    (JStr (str "I suggest " ++ (lbrace :: (dq ++ str "recommended_ids" ++ dq
                                            ++ str ": [" ++ dq ++ str "p3" ++ dq ++ str "] ")
                                 ++ [rbrace])
           ++ str " - hope that helps."))
  = JObj [(str "recommended_ids", JArr [JStr (str "p3")])].
Proof.
  apply inline_object_is_recovered.
  - vm_compute. intuition discriminate.
  - vm_compute. intuition discriminate.
  - reflexivity.
  - reflexivity.
Defined.

(** ** The statuses of the endpoint *)

Lemma after_search_200 cfg w q prods sn r :
  after_search cfg w q prods sn = Ok r -> status r = 200.
Proof.
  rewrite after_search_unfold. destruct (stringable q); [|discriminate].
  destruct (askGemini cfg w []) as [gem|]; [|discriminate].
  cbn [bind].
  destruct (collect_text_candidates gem) as [cands|]; [|discriminate].
  cbn [bind].
  destruct (accepted (try_candidates cands JNull)).
  - intros E. injection E as <-. reflexivity.
  - destruct (query_toLowerCase q) as [lower|]; [|discriminate]. cbn [bind].
    intros E. injection E as <-. reflexivity.
Qed.

Lemma response_cases cfg w req :
  (truthy_val (query req) = false
   /\ api_recommend cfg w req
      = {| status := 400; body := error_value (str "missing query") |})
  \/ (truthy_val (query req) = true
      /\ (status (api_recommend cfg w req) = 200
          \/ exists err, api_recommend cfg w req
                         = {| status := 500; body := error_value (exn_to_string err) |})).
Proof.
  destruct (truthy_val (query req)) eqn:Ht.
  - right. split; [reflexivity|].
    destruct (present_query cfg w req Ht) as (q & Hq & Htq & Htry).
    unfold api_recommend. rewrite Htry.
    destruct (bind (webSearch cfg w q) build_snippets) as [sn|err]; cbn [bind].
    + destruct (after_search cfg w q (products req) sn) as [r|err] eqn:Ha.
      * left. eapply after_search_200; eauto.
      * right. eauto.
    + right. eauto.
  - left. split; [reflexivity|]. apply missing_query_400. exact Ht.
Qed.

(** X5: the endpoint answers with 200, 400 or 500 and nothing else; with
    400 exactly when [query] is missing or falsy; and the body of every
    answer other than 200 is an object [{error: message}]. *)
Theorem endpoint_statuses cfg w req :
  (status (api_recommend cfg w req) = 200
   \/ status (api_recommend cfg w req) = 400
   \/ status (api_recommend cfg w req) = 500)
  /\ (status (api_recommend cfg w req) = 400 <-> truthy_val (query req) = false)
  /\ (status (api_recommend cfg w req) <> 200 ->
      is_error_body (body (api_recommend cfg w req))).
Proof.
  destruct (response_cases cfg w req) as [[Hq ->] | [Hq [H200 | [err ->]]]];
    cbn [status body].
  - split; [auto|]. split; [tauto|]. intros _. eexists. reflexivity.
  - rewrite H200. split; [auto|]. split; [|congruence].
    split; [discriminate|congruence].
  - split; [auto|]. split; [|intros _; eexists; reflexivity].
    split; [discriminate|congruence].
Qed.


(** ** The snippets *)

Lemma map_result_length {A B} (f : A -> result B) l ys :
  map_result f l = Ok ys -> length ys = length l.
Proof.
  revert ys. induction l as [|x r IH]; cbn [map_result]; intros ys.
  - intros E. injection E as <-. reflexivity.
  - destruct (f x) as [y|]; [|discriminate]. cbn [bind].
    destruct (map_result f r) as [zs|]; [|discriminate]. cbn [bind].
    intros E. injection E as <-. cbn [length]. f_equal. apply IH. reflexivity.
Qed.

Lemma snippet_of_item_null item :
  (exists s, snippet_of_item item = Ok s) <-> item <> JNull.
Proof.
  split.
  - intros [s Hs] ->. discriminate.
  - intros Hn. destruct item; [congruence| | | | |]; eexists; reflexivity.
Qed.

Lemma map_result_Ok_iff {A B} (f : A -> result B) l :
  (exists ys, map_result f l = Ok ys) <-> Forall (fun x => exists y, f x = Ok y) l.
Proof.
  induction l as [|x r IH]; cbn [map_result].
  - split; [constructor|eauto].
  - split.
    + intros [ys H]. destruct (f x) as [y|] eqn:Hy; [|discriminate]. cbn [bind] in H.
      destruct (map_result f r) as [zs|]; [|discriminate].
      constructor; [eauto|]. apply IH. eauto.
    + intros H. apply Forall_cons_iff in H. destruct H as [[y Hy] Hr].
      apply IH in Hr. destruct Hr as [zs Hz]. rewrite Hy, Hz. cbn [bind]. eauto.
Qed.

Lemma build_snippets_organic web items :
  prop web (str "organic_results") = Some (JArr items) ->
  build_snippets web = map_result snippet_of_item (firstn 5 items).
Proof.
  intros H. unfold build_snippets. rewrite H.
  destruct web; try discriminate. reflexivity.
Qed.

(** X6: the snippets of a search that answered with results.  When
    [organic_results] is an array the snippets are made from its first
    five entries and from nothing else ([error] is not looked at, later
    entries are not read): there are as many snippets as entries, five at
    most; and the making fails, with an exception, exactly when one of
    these first five entries is [null]. *)
Theorem snippets_from_the_first_five web items :
  prop web (str "organic_results") = Some (JArr items) ->
  build_snippets web = map_result snippet_of_item (firstn 5 items)
  /\ (forall sn, build_snippets web = Ok sn -> length sn = Nat.min 5 (length items))
  /\ ((exists sn, build_snippets web = Ok sn) <-> ~ In JNull (firstn 5 items)).
Proof.
  intros H. rewrite (build_snippets_organic _ _ H).
  split; [reflexivity|]. split.
  - intros sn Hs. rewrite (map_result_length _ _ _ Hs). apply length_firstn.
  - rewrite map_result_Ok_iff, Forall_forall. split.
    + intros Hall Hin. apply (proj1 (snippet_of_item_null JNull) (Hall _ Hin)).
      reflexivity.
    + intros Hn x Hx. apply snippet_of_item_null. intros ->. exact (Hn Hx).
Qed.

Lemma snippets_from_the_first_five_witness :
  let item := JObj [(str "title", JStr (str "t")); (str "source", JStr (str "s"))] in
  let web := JObj [(str "organic_results",
                    JArr [item; item; item; item; item; JNull; item]);
                   (str "error", JStr (str "ignored"))] in
  exists sn, build_snippets web = Ok sn.
Proof.
  intros item web.
  destruct (snippets_from_the_first_five web
              [item; item; item; item; item; JNull; item]) as (_ & _ & Hok).
  - reflexivity.
  - apply Hok. vm_compute. intuition discriminate.
Defined.

(** X7: one [null] among the first five results of the search fails the
    whole request: the answer is 500 with an [{error}] body, whatever the
    model would have said. *)
Theorem null_search_result_fails_the_request cfg w req q st text web items :
  query req = Some q -> truthy q = true ->
  configured (SERPAPI_KEY cfg) = true ->
  well_formed_utf16 (js_String q) = true ->
  search_fetch w = Responded st text -> response_ok st = true ->
  JSON_parse text = Some web ->
  prop web (str "organic_results") = Some (JArr items) ->
  In JNull (firstn 5 items) ->
  status (api_recommend cfg w req) = 500
  /\ is_error_body (body (api_recommend cfg w req)).
Proof.
  intros Hq Ht Hk Hwf Hs Hok Hp Ho Hin.
  destruct (stringable q) eqn:Hstr; cycle 1.
  { unfold api_recommend, recommend_try, webSearch, ToString.
    rewrite Hq, Ht, Hk, Hstr. cbn [negb bind status body].
    split; [reflexivity|]. eexists. reflexivity. }
  assert (Hweb : webSearch cfg w q = Ok web).
  { unfold webSearch, ToString. rewrite Hk, Hstr. cbn [negb bind].
    rewrite Hwf, Hs. cbn [negb timeoutPromise].
    rewrite Hok. cbn [negb]. unfold response_json. rewrite Hp. reflexivity. }
  assert (Hsn : exists e, build_snippets web = Throw e).
  { rewrite (build_snippets_organic _ _ Ho).
    destruct (map_result snippet_of_item (firstn 5 items)) as [sn|e] eqn:Hm; [|eauto].
    exfalso.
    assert (Hall : Forall (fun x => exists y, snippet_of_item x = Ok y) (firstn 5 items))
      by (apply map_result_Ok_iff; eauto).
    rewrite Forall_forall in Hall.
    apply (proj1 (snippet_of_item_null JNull) (Hall _ Hin)). reflexivity. }
  destruct Hsn as [e He].
  unfold api_recommend, recommend_try. rewrite Hq, Ht. cbn [negb].
  rewrite Hweb. cbn [bind]. rewrite He. cbn [bind status body].
  split; [reflexivity|]. eexists. reflexivity.
Qed.

Lemma null_search_result_fails_the_request_witness :
  let web := JObj [(str "organic_results", JArr [JNull])] in
  let w := world_of (responds 200 web) (responds 200 recommendation_body) in
  status (api_recommend both_keys w phone_request) = 500
  /\ is_error_body (body (api_recommend both_keys w phone_request)).
Proof.
  intros web w.
  apply (null_search_result_fails_the_request both_keys w phone_request
           (JStr phone_query) 200 (JSON_stringify web) web [JNull]).
  - reflexivity.
  - reflexivity.
  - reflexivity.
  - reflexivity.
  - reflexivity.
  - reflexivity.
  - reflexivity.
  - reflexivity.
  - simpl. auto.
Defined.

(** ** The model call and the query *)

(** X8: a model call that is rejected, that times out, or that is
    answered with a body that is not JSON, fails the request with 500,
    whatever the status of the answer; when the search stage went through
    and the query can be written into the prompt, the error is
    [Error: Gemini call failed: ] followed by the message of what went
    wrong. *)
Theorem failed_model_call_fails_the_request cfg w req m :
  truthy_val (query req) = true ->
  configured (GEMINI_KEY cfg) = true ->
  model_call_failure w = Some m ->
  status (api_recommend cfg w req) = 500
  /\ is_error_body (body (api_recommend cfg w req))
  /\ forall q sn,
       query req = Some q ->
       bind (webSearch cfg w q) build_snippets = Ok sn ->
       stringable q = true ->
       body (api_recommend cfg w req)
       = error_value (str "Error: Gemini call failed: " ++ m).
Proof.
  intros Ht Hk Hfail.
  assert (Hask : askGemini cfg w []
                 = Throw (Error (str "Gemini call failed: " ++ m))).
  { unfold askGemini. rewrite Hk. cbn [negb]. unfold model_call_failure in Hfail.
    destruct (model_fetch w) as [st text|err|]; cbn [timeoutPromise bind snd].
    - unfold response_json. destruct (JSON_parse text); [discriminate|].
      injection Hfail as <-. reflexivity.
    - injection Hfail as <-. reflexivity.
    - injection Hfail as <-. reflexivity. }
  destruct (present_query cfg w req Ht) as (q & Hq & Htq & Htry).
  unfold api_recommend. rewrite Htry.
  destruct (bind (webSearch cfg w q) build_snippets) as [sn|e] eqn:Hs; cbn [bind].
  - rewrite after_search_unfold.
    destruct (stringable q) eqn:Hstr.
    + rewrite Hask. cbn [bind status body].
      split; [reflexivity|]. split; [eexists; reflexivity|].
      intros q' sn' Hq' _ _. reflexivity.
    + cbn [status body]. split; [reflexivity|]. split; [eexists; reflexivity|].
      intros q' sn' Hq' _ Hstr'. rewrite Hq in Hq'. injection Hq' as <-. congruence.
  - cbn [status body]. split; [reflexivity|]. split; [eexists; reflexivity|].
    intros q' sn' Hq' Hs' _. rewrite Hq in Hq'. injection Hq' as <-. congruence.
Qed.

Lemma failed_model_call_fails_the_request_witness :
  let w := world_of TimedOut (Rejected (Exn (str "TypeError") (str "fetch failed"))) in
  status (api_recommend both_keys w phone_request) = 500
  /\ body (api_recommend both_keys w phone_request)
     = error_value (str "Error: Gemini call failed: fetch failed").
Proof.
  intros w.
  destruct (failed_model_call_fails_the_request both_keys w phone_request
              (str "fetch failed")) as (H500 & _ & Hbody).
  - reflexivity.
  - reflexivity.
  - reflexivity.
  - split; [exact H500|].
    apply (Hbody (JStr phone_query)
             [synthetic_snippet (str "SerpApi fetch error: Error: timeout")]);
      reflexivity.
Defined.

(** X9: only a string gets the fallback.  For a query that is not a
    string (a number, an array, an object, [true]) a 200 answer is always
    the value the model gave: when the model gives nothing acceptable the
    request fails instead of falling back. *)
Theorem only_a_string_query_falls_back cfg w req q :
  query req = Some q -> (forall s, q <> JStr s) ->
  (status (api_recommend cfg w req) = 200 ->
   model_accepted cfg w = true
   /\ exists gem cands,
        askGemini cfg w [] = Ok gem
        /\ collect_text_candidates gem = Ok cands
        /\ body (api_recommend cfg w req) = try_candidates cands JNull)
  /\ (model_accepted cfg w = false -> truthy q = true ->
      status (api_recommend cfg w req) = 500).
Proof.
  intros Hq Hns.
  assert (H200 : status (api_recommend cfg w req) = 200 ->
                 model_accepted cfg w = true
                 /\ exists gem cands,
                      askGemini cfg w [] = Ok gem
                      /\ collect_text_candidates gem = Ok cands
                      /\ body (api_recommend cfg w req) = try_candidates cands JNull).
  { intros H.
    destruct (ok_response_cases cfg w req H)
      as (q' & sn & gem & cands & Hq' & _ & Hg & Hc & Hcase).
    destruct Hcase as [(Hm & _ & Hb) | (_ & lower & Hl & _)].
    - split; [exact Hm|]. exists gem, cands. auto.
    - rewrite Hq in Hq'. injection Hq' as <-.
      destruct q; try discriminate. destruct (Hns _ eq_refl). }
  split; [exact H200|].
  intros Hm Ht.
  destruct (response_cases cfg w req) as [[Hf _] | [_ [H | [err Hr]]]].
  - rewrite Hq in Hf. cbn [truthy_val] in Hf. congruence.
  - rewrite (proj1 (H200 H)) in Hm. discriminate.
  - rewrite Hr. reflexivity.
Qed.

Lemma only_a_string_query_falls_back_witness :
  let w := world_of TimedOut (responds 200 prose_response) in
  let req := {| query := Some (JNum (num_of_N 500)); products := PRODUCTS |} in
  status (api_recommend both_keys w req) = 500.
Proof.
  intros w req.
  destruct (only_a_string_query_falls_back both_keys w req (JNum (num_of_N 500)))
    as [_ H].
  - reflexivity.
  - intros s. discriminate.
  - apply H; reflexivity.
Defined.

(** X10: a query whose string holds a lone surrogate is answered with 500
    and [URIError: URI malformed] when the search key is configured,
    before any call goes out: neither the search nor the model has a part
    in the answer. *)
Theorem lone_surrogate_query_fails cfg w req q url :
  query req = Some q -> truthy q = true ->
  configured (SERPAPI_KEY cfg) = true ->
  ToString q = Ok url ->
  well_formed_utf16 url = false ->
  api_recommend cfg w req
  = {| status := 500; body := error_value (str "URIError: URI malformed") |}.
Proof.
  intros Hq Ht Hk Hurl Hwf.
  unfold api_recommend, recommend_try. rewrite Hq, Ht. cbn [negb].
  unfold webSearch. rewrite Hk, Hurl. cbn [negb bind]. rewrite Hwf. reflexivity.
Qed.

Lemma lone_surrogate_query_fails_witness :
  api_recommend both_keys (world_of TimedOut TimedOut)
    {| query := Some (JStr [112; 55357]); products := PRODUCTS |}
  = {| status := 500; body := error_value (str "URIError: URI malformed") |}.
Proof.
  apply (lone_surrogate_query_fails both_keys (world_of TimedOut TimedOut)
           {| query := Some (JStr [112; 55357]); products := PRODUCTS |}
           (JStr [112; 55357]) [112; 55357]); reflexivity.
Defined.

(** ** The text candidates *)

Lemma firstn_app_last {A} (front : list A) x d :
  (length (front ++ [x]) <= 3)%nat -> last (firstn 3 (front ++ [x])) d = x.
Proof.
  intros H. rewrite firstn_all2 by exact H. apply last_last.
Qed.

(** X11: what the fallback reports of the model.  In a 200 answer built
    by the fallback, [debug.gemini_candidates_tried] holds the first three
    text candidates: at least one entry and at most three; when no more
    than three candidates were collected, the last entry is the whole
    model response, stringified. *)
Theorem fallback_reports_up_to_three_candidates cfg w req :
  status (api_recommend cfg w req) = 200 ->
  model_accepted cfg w = false ->
  exists gem cands,
    askGemini cfg w [] = Ok gem
    /\ collect_text_candidates gem = Ok cands
    /\ prop (body (api_recommend cfg w req)) (str "debug")
       = Some (JObj [(str "gemini_candidates_tried", JArr (firstn 3 cands))])
    /\ (1 <= length (firstn 3 cands) <= 3)%nat
    /\ ((length cands <= 3)%nat ->
        last (firstn 3 cands) JNull = JStr (JSON_stringify gem)).
Proof.
  intros H200 Hm.
  destruct (ok_response_cases cfg w req H200)
    as (q & sn & gem & cands & Hq & Hsn & Hgem & Hc & Hcase).
  destruct Hcase as [(Hm' & _) | (_ & lower & Hl & Hb)]; [congruence|].
  exists gem, cands. split; [exact Hgem|]. split; [exact Hc|].
  destruct (collect_text_candidates_last _ _ Hc) as [front ->].
  split; [rewrite Hb; reflexivity|]. split.
  - rewrite length_firstn, length_app. cbn [length]. lia.
  - intros Hlen. apply firstn_app_last. exact Hlen.
Qed.

Lemma fallback_reports_up_to_three_candidates_witness :
  let w := world_of TimedOut (responds 200 prose_response) in
  exists gem cands,
    askGemini both_keys w [] = Ok gem
    /\ collect_text_candidates gem = Ok cands
    /\ (1 <= length (firstn 3 cands) <= 3)%nat.
Proof.
  intros w.
  destruct (fallback_reports_up_to_three_candidates both_keys w phone_request)
    as (gem & cands & Hg & Hc & _ & Hlen & _).
  - vm_compute. reflexivity.
  - vm_compute. reflexivity.
  - exists gem, cands. auto.
Defined.

Lemma candidate_texts_content_object cand :
  content_object cand -> candidate_texts cand = Ok [].
Proof.
  intros (kvs & o & -> & Hc & Hd & Ht).
  unfold candidate_texts, get. cbn [prop bind]. rewrite Hc. cbn [truthy_val truthy bind].
  rewrite Hd, Ht. reflexivity.
Qed.

Lemma concat_result_all_empty {A} (f : A -> result (list json)) l :
  Forall (fun x => f x = Ok []) l -> concat_result f l = Ok [].
Proof.
  induction 1 as [|x l Hx _ IH]; cbn [concat_result]; [reflexivity|].
  rewrite Hx, IH. reflexivity.
Qed.

(** X12: a model response in the shape of [generateContent], where the
    [content] of each candidate is an object (with [parts] in it), gives
    no text candidate of its own: the only text the extractor is run on is
    the whole response, stringified. *)
Theorem content_objects_give_no_text kvs cands :
  lookup (str "candidates") kvs = Some (JArr cands) ->
  Forall content_object cands ->
  Array_isArray (lookup (str "output") kvs) = false ->
  collect_text_candidates (JObj kvs) = Ok [JStr (JSON_stringify (JObj kvs))].
Proof.
  intros Hc Hall Ho. unfold collect_text_candidates. cbn [prop]. rewrite Hc.
  rewrite (concat_result_all_empty candidate_texts cands).
  - cbn [bind].
    destruct (lookup (str "output") kvs) as [[| | | | |]|]; try discriminate;
      reflexivity.
  - apply Forall_forall. intros cand Hin. apply candidate_texts_content_object.
    rewrite Forall_forall in Hall. apply Hall. exact Hin.
Qed.

Lemma content_objects_give_no_text_witness :
  let part := JObj [(str "text", JStr (str "{}"))] in
  let cand := JObj [(str "content",
                     JObj [(str "parts", JArr [part]); (str "role", JStr (str "model"))]);
                    (str "finishReason", JStr (str "STOP"))] in
  let kvs := [(str "candidates", JArr [cand])] in
  collect_text_candidates (JObj kvs) = Ok [JStr (JSON_stringify (JObj kvs))].
Proof.
  intros part cand kvs.
  apply (content_objects_give_no_text kvs [cand]).
  - reflexivity.
  - constructor; [|constructor].
    exists [(str "content",
             JObj [(str "parts", JArr [part]); (str "role", JStr (str "model"))]);
            (str "finishReason", JStr (str "STOP"))],
           [(str "parts", JArr [part]); (str "role", JStr (str "model"))].
    repeat split; reflexivity.
  - reflexivity.
Defined.

(** ** The fallback: the ceiling, the ranking, the ids *)

Lemma filtered_In lower prods p : In p (filtered lower prods) -> In p prods.
Proof.
  unfold filtered. destruct (option_map digits_to_N (price_match lower)); [|auto].
  intros H. apply filter_In in H. tauto.
Qed.

Lemma ranked_perm lower prods : Permutation (filtered lower prods) (ranked lower prods).
Proof. apply (sort_by_perm product (score (tokens_of lower))). Qed.

(** X13: the ceiling is kept.  When the lowered query holds a price
    pattern, every id the fallback returns is the id of a product of the
    request whose price is at most the number written in the pattern. *)
Theorem fallback_respects_the_ceiling lower prods ds i :
  price_match lower = Some ds ->
  In i (fallback_ids lower prods) ->
  exists p, In p prods /\ id p = i
            /\ num_leb_Z (price p) (Z.of_N (digits_to_N ds)) = true.
Proof.
  intros Hm Hi. change (fallback_ids lower prods)
    with (map id (firstn 3 (ranked lower prods))) in Hi.
  apply in_map_iff in Hi. destruct Hi as [p [Hid Hp]].
  apply firstn_In in Hp.
  apply (Permutation_in _ (Permutation_sym (ranked_perm lower prods))) in Hp.
  unfold filtered in Hp. rewrite Hm in Hp. cbn [option_map] in Hp.
  apply filter_In in Hp. destruct Hp as [Hin Hle].
  exists p. auto.
Qed.

Lemma fallback_respects_the_ceiling_witness :
  exists p, In p PRODUCTS /\ id p = str "p1"
            /\ num_leb_Z (price p) (Z.of_N (digits_to_N (str "500"))) = true.
Proof.
  apply (fallback_respects_the_ceiling (toLowerCase phone_query) PRODUCTS).
  - reflexivity.
  - vm_compute. auto.
Defined.

Lemma descending_transitive tokens :
  Relations_1.Transitive (fun a b : product => (score tokens b <= score tokens a)%nat).
Proof. intros a b c Hab Hbc. lia. Qed.

Lemma StronglySorted_app_order {A} (R : A -> A -> Prop) (a b : list A) :
  StronglySorted R (a ++ b) -> forall x y, In x a -> In y b -> R x y.
Proof.
  induction a as [|h a IH]; intros Hs x y Hx Hy; [destruct Hx|].
  cbn [app] in Hs. apply StronglySorted_inv in Hs. destruct Hs as [Hs Hall].
  destruct Hx as [<-|Hx].
  - rewrite Forall_forall in Hall. apply Hall. apply in_or_app. right. exact Hy.
  - apply IH; assumption.
Qed.

(** X14: the fallback returns the best three.  The ids are those of the
    first three products of [filtered] once sorted, which is a
    rearrangement of the products under the ceiling; no product left out
    has a higher score than a product returned. *)
Theorem fallback_returns_the_best_three lower prods :
  fallback_ids lower prods = map id (firstn 3 (ranked lower prods))
  /\ Permutation (filtered lower prods) (ranked lower prods)
  /\ forall p q,
       In p (firstn 3 (ranked lower prods)) ->
       In q (skipn 3 (ranked lower prods)) ->
       (score (tokens_of lower) q <= score (tokens_of lower) p)%nat.
Proof.
  split; [reflexivity|]. split; [apply ranked_perm|].
  intros p q Hp Hq.
  pose proof (sort_by_sorted product (score (tokens_of lower)) (filtered lower prods)) as Hs.
  apply (Sorted_StronglySorted (descending_transitive (tokens_of lower))) in Hs.
  change (sort_by (by_key (score (tokens_of lower))) (filtered lower prods))
    with (ranked lower prods) in Hs.
  rewrite <- (firstn_skipn 3 (ranked lower prods)) in Hs.
  exact (StronglySorted_app_order _ _ _ Hs p q Hp Hq).
Qed.

(** X15: the ranking is stable.  The sorted products stand by score,
    highest first, and the products of one score keep the order they have
    in the request. *)
Theorem fallback_ranking_is_stable lower prods :
  Sorted (fun a b => (score (tokens_of lower) b <= score (tokens_of lower) a)%nat)
         (ranked lower prods)
  /\ forall k,
       filter (fun p => Nat.eqb (score (tokens_of lower) p) k) (ranked lower prods)
       = filter (fun p => Nat.eqb (score (tokens_of lower) p) k) (filtered lower prods).
Proof.
  split.
  - apply (sort_by_sorted product (score (tokens_of lower))).
  - intros k. apply (sort_by_stable product (score (tokens_of lower))).
Qed.

Lemma sort_by_sorted_id {A} (key : A -> nat) (l : list A) :
  Sorted (descending_by key) l -> sort_by (by_key key) l = l.
Proof.
  induction 1 as [|x l Hs IH Hhd]; [reflexivity|].
  cbn [sort_by]. rewrite IH.
  destruct Hhd as [|y l' Hxy]; [reflexivity|].
  cbn [insert_sorted]. unfold by_key at 1.
  destruct (Z.leb_spec (Z.of_nat (key y) - Z.of_nat (key x)) 0) as [_|Hgt];
    [reflexivity|]. unfold descending_by in Hxy. lia.
Qed.

Lemma Sorted_constant {A} (key : A -> nat) (l : list A) k :
  Forall (fun x => key x = k) l -> Sorted (descending_by key) l.
Proof.
  induction 1 as [|x l Hx Hl IH]; [constructor|].
  constructor; [exact IH|].
  destruct Hl as [|y l' Hy _]; constructor. unfold descending_by. lia.
Qed.

(** X16: when no word of the query occurs in any product under the
    ceiling, the fallback is the first three of them in the order of the
    request. *)
Theorem fallback_without_hits_keeps_order lower prods :
  forallb (fun p => Nat.eqb (score (tokens_of lower) p) 0) (filtered lower prods) = true ->
  fallback_ids lower prods = map id (firstn 3 (filtered lower prods)).
Proof.
  intros H. change (fallback_ids lower prods)
    with (map id (firstn 3 (sort_by (by_key (score (tokens_of lower)))
                              (filtered lower prods)))).
  rewrite sort_by_sorted_id; [reflexivity|].
  apply (Sorted_constant _ _ 0%nat). apply Forall_forall. intros p Hp.
  rewrite forallb_forall in H. apply Nat.eqb_eq. apply H. exact Hp.
Qed.

Lemma fallback_without_hits_keeps_order_witness :
  fallback_ids (str "something nice below 300") PRODUCTS
  = map id (firstn 3 (filtered (str "something nice below 300") PRODUCTS)).
Proof.
  apply fallback_without_hits_keeps_order. reflexivity.
Defined.

Lemma NoDup_map_filter {A B} (f : A -> B) (p : A -> bool) l :
  NoDup (map f l) -> NoDup (map f (filter p l)).
Proof.
  induction l as [|x l IH]; cbn [map filter]; [auto|].
  intros H. apply NoDup_cons_iff in H. destruct H as [Hx Hl].
  destruct (p x); [|auto]. cbn [map]. apply NoDup_cons; [|auto].
  intros Hin. apply Hx. apply in_map_iff in Hin. destruct Hin as [y [Hy Hin]].
  apply filter_In in Hin. apply in_map_iff. exists y. tauto.
Qed.

Lemma NoDup_firstn {A} n (l : list A) : NoDup l -> NoDup (firstn n l).
Proof.
  revert l. induction n as [|n IH]; intros [|x l] H; cbn [firstn]; try constructor.
  - apply NoDup_cons_iff in H. destruct H as [Hx _].
    intros Hin. apply Hx. eapply firstn_In; eauto.
  - apply IH. apply NoDup_cons_iff in H. tauto.
Qed.

(** X17: when the ids of the products of the request differ from one
    another, the fallback returns no id twice. *)
Theorem fallback_ids_are_distinct lower prods :
  NoDup (map id prods) -> NoDup (fallback_ids lower prods).
Proof.
  intros H. change (fallback_ids lower prods)
    with (map id (firstn 3 (ranked lower prods))).
  rewrite <- firstn_map. apply NoDup_firstn.
  apply (Permutation_NoDup (Permutation_map id (ranked_perm lower prods))).
  unfold filtered. destruct (option_map digits_to_N (price_match lower)); [|exact H].
  apply NoDup_map_filter. exact H.
Qed.

Lemma fallback_ids_are_distinct_witness :
  NoDup (fallback_ids (toLowerCase phone_query) PRODUCTS).
Proof.
  apply fallback_ids_are_distinct. vm_compute.
  repeat (constructor; [cbn [In]; intuition discriminate|]). constructor.
Defined.

(** ** The fallback: the price pattern and the words of the query *)

Lemma take_while_prefix p (s : jsstring) : exists b, s = take_while p s ++ b.
Proof.
  induction s as [|c s [b IH]]; cbn [take_while]; [exists []; reflexivity|].
  destruct (p c); [|exists (c :: s); reflexivity].
  exists b. cbn [app]. f_equal. exact IH.
Qed.

Lemma skipn_suffix {A} n (s : list A) : exists a, s = a ++ skipn n s.
Proof. exists (firstn n s). symmetry. apply firstn_skipn. Qed.

Lemma price_match_at_shape s ds :
  price_match_at s = Some ds ->
  ds <> [] /\ (length ds <= 6)%nat /\ forallb is_digit ds = true /\ part_of ds s.
Proof.
  unfold price_match_at.
  set (after_word := if starts_with (str "under") s then Some (skipn 5 s)
                     else if starts_with (str "below") s then Some (skipn 5 s)
                     else if starts_with (str "<") s then Some (skipn 1 s)
                     else None).
  assert (Hk : forall n, part_of (skipn n s) s).
  { intros n. destruct (skipn_suffix n s) as [a Hs]. rewrite Hs at 2.
    apply part_of_suffix. }
  assert (Ha : forall r, after_word = Some r -> part_of r s).
  { unfold after_word. intros r.
    destruct (starts_with (str "under") s);
      [|destruct (starts_with (str "below") s);
        [|destruct (starts_with (str "<") s); [|discriminate]]];
      intros E.
    - replace r with (skipn 5 s) by congruence. apply Hk.
    - replace r with (skipn 5 s) by congruence. apply Hk.
    - replace r with (skipn 1 s) by congruence. apply Hk. }
  destruct after_word as [r|]; [|discriminate]. specialize (Ha r eq_refl).
  cbv zeta.
  set (r1 := drop_while is_js_space r).
  set (r2 := match r1 with
             | c :: r' => if c =? 36 then r' else r1
             | [] => r1
             end).
  assert (H2 : part_of r2 s).
  { apply (part_of_trans _ r1).
    - unfold r2. destruct r1 as [|c r']; [apply part_of_refl|].
      destruct (c =? 36); [|apply part_of_refl].
      apply (part_of_suffix [c] r').
    - apply (part_of_trans _ r); [|exact Ha]. unfold r1.
      destruct (drop_while_suffix is_js_space r) as [a Hs]. rewrite Hs at 2.
      apply part_of_suffix. }
  destruct (firstn 6 (take_while is_digit r2)) as [|d ds'] eqn:Hf; [discriminate|].
  intros E. injection E as <-. rewrite <- Hf.
  split; [rewrite Hf; discriminate|].
  split; [apply firstn_le_length|].
  split; [apply forallb_firstn; apply forallb_take_while|].
  apply (part_of_trans _ r2); [|exact H2].
  destruct (take_while_prefix is_digit r2) as [b Hb].
  exists [], (skipn 6 (take_while is_digit r2) ++ b).
  cbn [app]. rewrite app_assoc, firstn_skipn. exact Hb.
Qed.

Lemma of_lu_bound d :
  (DecimalPos.Unsigned.of_lu d < 10 ^ N.of_nat (Decimal.nb_digits d))%N.
Proof.
  induction d; cbn [DecimalPos.Unsigned.of_lu Decimal.nb_digits];
    try (rewrite Nat2N.inj_succ, N.pow_succ_r by lia; lia).
  cbn. lia.
Qed.

Lemma nb_digits_uint_of_digits (ds : jsstring) :
  Decimal.nb_digits (uint_of_digits ds) = length ds.
Proof.
  induction ds as [|c ds IH]; [reflexivity|].
  cbn [uint_of_digits length]. unfold digit_of_unit.
  repeat match goal with
         | |- context [match ?x with _ => _ end] => destruct x
         end; cbn [Decimal.nb_digits]; rewrite IH; reflexivity.
Qed.

Lemma digits_to_N_bound (ds : jsstring) : digits_to_N ds < 10 ^ N.of_nat (length ds).
Proof.
  unfold digits_to_N, N.of_uint. rewrite DecimalPos.Unsigned.of_uint_alt.
  rewrite <- (nb_digits_uint_of_digits ds), <- DecimalFacts.nb_digits_rev.
  apply of_lu_bound.
Qed.

(** X18: the ceiling the fallback reads from a query is written in the
    query: at least one and at most six digits that follow one another
    there, so that it is a whole number below 1000000; of a longer run of
    digits the first six count. *)
Theorem price_ceiling_below_a_million s ds :
  price_match s = Some ds ->
  ds <> [] /\ (length ds <= 6)%nat /\ forallb is_digit ds = true
  /\ part_of ds s /\ digits_to_N ds < 1000000.
Proof.
  induction s as [|c s IH]; cbn [price_match].
  - destruct (price_match_at []) as [x|] eqn:Hx; [|discriminate].
    intros E. injection E as <-.
    destruct (price_match_at_shape _ _ Hx) as (H1 & H2 & H3 & H4).
    repeat split; auto.
    eapply N.lt_le_trans; [apply digits_to_N_bound|].
    change 1000000 with (10 ^ 6). apply N.pow_le_mono_r; lia.
  - destruct (price_match_at (c :: s)) as [x|] eqn:Hx.
    + intros E. injection E as <-.
      destruct (price_match_at_shape _ _ Hx) as (H1 & H2 & H3 & H4).
      repeat split; auto.
      eapply N.lt_le_trans; [apply digits_to_N_bound|].
      change 1000000 with (10 ^ 6). apply N.pow_le_mono_r; lia.
    + intros H. destruct (IH H) as (H1 & H2 & H3 & H4 & H5).
      repeat split; auto.
      apply (part_of_trans _ s); [exact H4|]. apply (part_of_suffix [c] s).
Qed.

Lemma price_ceiling_below_a_million_witness :
  part_of (str "123456") (str "anything < $1234567 will do")
  /\ digits_to_N (str "123456") < 1000000.
Proof.
  destruct (price_ceiling_below_a_million (str "anything < $1234567 will do")
              (str "123456")) as (_ & _ & _ & Hpart & Hlt).
  - reflexivity.
  - split; [exact Hpart|exact Hlt].
Defined.

Lemma concat_nonempty (l : list jsstring) :
  concat (filter (fun t => match t with [] => false | _ => true end) l) = concat l.
Proof.
  induction l as [|[|c t] l IH]; cbn [filter concat app]; [reflexivity|exact IH|].
  rewrite IH. reflexivity.
Qed.

Lemma split_ws_from_spec (s : jsstring) : forall cur,
  forallb not_space cur = true ->
  concat (split_ws_from s cur) = rev cur ++ filter not_space s
  /\ Forall (fun t => forallb not_space t = true) (split_ws_from s cur).
Proof.
  assert (Hrev : forall cur, forallb not_space cur = true ->
                             forallb not_space (rev cur) = true)
    by (intros cur; apply forallb_rev).
  induction s as [|c r IH]; intros cur Hcur; cbn [split_ws_from].
  - cbn [concat filter]. rewrite !app_nil_r.
    split; [reflexivity|]. constructor; [auto|constructor].
  - unfold not_space at 1. cbn [filter].
    destruct (is_js_space c) eqn:Hc.
    + cbn [negb].
      destruct r as [|d r'].
      * cbn [concat filter app]. rewrite !app_nil_r.
        split; [reflexivity|]. repeat constructor. auto.
      * destruct (is_js_space d) eqn:Hd.
        -- apply IH. exact Hcur.
        -- destruct (IH [] eq_refl) as [H1 H2].
           cbn [concat]. rewrite H1. cbn [rev app].
           split; [reflexivity|]. constructor; auto.
    + cbn [negb].
      destruct (IH (c :: cur)) as [H1 H2].
      { cbn [forallb]. unfold not_space at 1. rewrite Hc. exact Hcur. }
      split; [|exact H2]. rewrite H1. cbn [rev]. rewrite <- app_assoc. reflexivity.
Qed.

(** X19: the words the fallback scores with.  Each token of the lowered
    query is non-empty and free of white space, and the tokens, put end
    to end, are the query with its white space taken out: no other
    character separates or is lost. *)
Theorem tokens_are_the_words lower :
  Forall (fun t => t <> [] /\ forallb not_space t = true) (tokens_of lower)
  /\ concat (tokens_of lower) = filter not_space lower.
Proof.
  unfold tokens_of, split_ws.
  destruct (split_ws_from_spec lower [] eq_refl) as [H1 H2].
  split.
  - apply Forall_forall. intros t Ht. apply filter_In in Ht. destruct Ht as [Hin Hne].
    split; [destruct t; [discriminate|discriminate]|].
    rewrite Forall_forall in H2. apply H2. exact Hin.
  - rewrite concat_nonempty. exact H1.
Qed.

Lemma split_ws_from_word (t : jsstring) : forall (rest cur : jsstring),
  forallb not_space t = true ->
  split_ws_from (t ++ rest) cur = split_ws_from rest (rev t ++ cur).
Proof.
  induction t as [|c t IH]; intros rest cur Ht; [reflexivity|].
  cbn [forallb] in Ht. apply andb_true_iff in Ht. destruct Ht as [Hc Ht].
  unfold not_space in Hc. apply negb_true_iff in Hc.
  cbn [app split_ws_from]. rewrite Hc. rewrite IH by exact Ht.
  cbn [rev]. rewrite <- app_assoc. reflexivity.
Qed.

Lemma tokens_of_join_from (ts : list jsstring) : forall (t cur : jsstring),
  Forall (fun t => t <> [] /\ forallb not_space t = true) (t :: ts) ->
  filter (fun t => match t with [] => false | _ => true end)
         (split_ws_from (join (str " ") (t :: ts)) cur)
  = (rev cur ++ t) :: ts.
Proof.
  induction ts as [|u ts IH]; intros t cur Hall.
  - cbn [join]. apply Forall_inv in Hall. destruct Hall as [Hne Ht].
    rewrite <- (app_nil_r t) at 1. rewrite split_ws_from_word by exact Ht.
    cbn [split_ws_from filter]. rewrite rev_app_distr, rev_involutive.
    destruct (rev cur ++ t) eqn:E; [|reflexivity].
    apply app_eq_nil in E. tauto.
  - pose proof (Forall_inv Hall) as [Hne Ht].
    pose proof (Forall_inv_tail Hall) as Hrest.
    pose proof (Forall_inv Hrest) as [Hune Hu].
    change (join (str " ") (t :: u :: ts)) with (t ++ str " " ++ join (str " ") (u :: ts)).
    rewrite split_ws_from_word by exact Ht.
    assert (Hj : exists d r, join (str " ") (u :: ts) = d :: r /\ is_js_space d = false).
    { destruct u as [|d u']; [tauto|]. cbn [forallb] in Hu.
      apply andb_true_iff in Hu. destruct Hu as [Hd _].
      unfold not_space in Hd. apply negb_true_iff in Hd.
      destruct ts; cbn [join app]; eauto. }
    destruct Hj as (d & r & Hj & Hd).
    change (str " " ++ join (str " ") (u :: ts)) with (32 :: join (str " ") (u :: ts)).
    cbn [split_ws_from]. replace (is_js_space 32) with true by reflexivity.
    rewrite Hj, Hd, <- Hj. cbn [filter].
    rewrite (IH u [] Hrest). cbn [rev app].
    rewrite rev_app_distr, rev_involutive.
    destruct (rev cur ++ t) eqn:E; [|reflexivity].
    apply app_eq_nil in E. tauto.
Qed.

(** X20: a query written as words with one space between them is split
    into just these words. *)
Theorem tokens_of_spaced_words ts :
  Forall (fun t => t <> [] /\ forallb not_space t = true) ts ->
  tokens_of (join (str " ") ts) = ts.
Proof.
  intros Hall. unfold tokens_of, split_ws.
  destruct ts as [|t ts]; [reflexivity|].
  apply (tokens_of_join_from ts t [] Hall).
Qed.

Lemma tokens_of_spaced_words_witness :
  tokens_of (join (str " ") [str "cheap"; str "phone"; str "64gb"])
  = [str "cheap"; str "phone"; str "64gb"].
Proof.
  apply tokens_of_spaced_words.
  repeat (constructor; [split; [discriminate|reflexivity]|]). constructor.
Defined.

(** ** Every value the handler sends is in normal form *)

Lemma lookup_wf k kvs v :
  forallb (fun kv => wf_json (snd kv)) kvs = true ->
  lookup k kvs = Some v -> wf_json v = true.
Proof.
  induction kvs as [|[k' x] r IH]; simpl; [discriminate|].
  intros H. apply andb_true_iff in H. destruct H as [Hx Hr].
  destruct (lookup k r) as [y|] eqn:Hl.
  - intros E. injection E as <-. apply IH; auto.
  - destruct (str_eqb k' k); [|discriminate]. intros E. injection E as <-. exact Hx.
Qed.

Lemma prop_wf v k : wf_json v = true -> wf_val (prop v k) = true.
Proof.
  destruct v as [| | | | |kvs]; try reflexivity. simpl. intros H.
  destruct (lookup k kvs) as [x|] eqn:Hl; [|reflexivity].
  simpl. eapply lookup_wf; eauto.
Qed.

Lemma get_wf v k x : wf_json v = true -> get v k = Ok x -> wf_val x = true.
Proof.
  intros Hv. unfold get. destruct v; try discriminate;
    intros E; injection E as <-; first [reflexivity | exact (prop_wf _ k Hv)].
Qed.

Lemma js_or_wf a b : wf_val a = true -> wf_val b = true -> wf_val (js_or a b) = true.
Proof. unfold js_or. destruct (truthy_val a); auto. Qed.

Lemma response_json_wf txt v : response_json txt = Ok v -> wf_json v = true.
Proof.
  unfold response_json. destruct (JSON_parse txt) as [x|] eqn:Hp; [|discriminate].
  intros E. injection E as <-. eapply JSON_parse_wf; eauto.
Qed.

Lemma webSearch_wf cfg w q web : webSearch cfg w q = Ok web -> wf_json web = true.
Proof.
  unfold webSearch.
  destruct (negb (configured (SERPAPI_KEY cfg))); [intros E; injection E as <-; reflexivity|].
  destruct (ToString q) as [url|]; [|discriminate]. cbn [bind].
  destruct (negb (well_formed_utf16 url)); [discriminate|].
  intros E. injection E as <-.
  destruct (timeoutPromise (search_fetch w)) as [[st txt]|err]; [|reflexivity].
  destruct (negb (response_ok st)); [reflexivity|].
  destruct (response_json txt) as [v|err] eqn:Hj; [|reflexivity].
  eapply response_json_wf; eauto.
Qed.

Lemma askGemini_wf cfg w p gem : askGemini cfg w p = Ok gem -> wf_json gem = true.
Proof.
  unfold askGemini.
  destruct (negb (configured (GEMINI_KEY cfg))); [discriminate|].
  destruct (timeoutPromise (model_fetch w)) as [[st txt]|err]; cbn [bind snd];
    [|discriminate].
  destruct (response_json txt) as [v|err] eqn:Hj; [|discriminate].
  intros E. injection E as <-. eapply response_json_wf; eauto.
Qed.

Lemma snippet_of_item_wf item s :
  wf_json item = true -> snippet_of_item item = Ok s -> wf_snippet s = true.
Proof.
  intros Hi. unfold snippet_of_item.
  destruct (get item (str "title")) as [t|] eqn:Ht; [|discriminate].
  destruct (get item (str "snippet")) as [sn|] eqn:Hs; [|discriminate].
  destruct (get item (str "description")) as [d|] eqn:Hd; [|discriminate].
  destruct (get item (str "link")) as [l|] eqn:Hl; [|discriminate].
  destruct (get item (str "source")) as [src|] eqn:Hsrc; [|discriminate].
  cbn [bind]. intros E. injection E as <-. unfold wf_snippet. cbn [title snippet_text link].
  rewrite (get_wf _ _ _ Hi Ht).
  rewrite (js_or_wf _ _ (js_or_wf _ _ (get_wf _ _ _ Hi Hs) (get_wf _ _ _ Hi Hd))
             (eq_refl : wf_val (Some (JStr [])) = true)).
  rewrite (js_or_wf _ _ (get_wf _ _ _ Hi Hl) (get_wf _ _ _ Hi Hsrc)).
  reflexivity.
Qed.

Lemma map_result_forallb {A B} (f : A -> result B) (p : A -> bool) (q : B -> bool) :
  (forall x y, p x = true -> f x = Ok y -> q y = true) ->
  forall l ys, forallb p l = true -> map_result f l = Ok ys -> forallb q ys = true.
Proof.
  intros Hf. induction l as [|x r IH]; simpl; intros ys Hl.
  - intros E. injection E as <-. reflexivity.
  - apply andb_true_iff in Hl. destruct Hl as [Hx Hr].
    destruct (f x) as [y|] eqn:Hy; [|discriminate]. cbn [bind].
    destruct (map_result f r) as [zs|] eqn:Hz; [|discriminate]. cbn [bind].
    intros E. injection E as <-. simpl. rewrite (Hf _ _ Hx Hy), (IH _ Hr eq_refl).
    reflexivity.
Qed.

Lemma build_snippets_wf web sn :
  wf_json web = true -> build_snippets web = Ok sn -> forallb wf_snippet sn = true.
Proof.
  intros Hw. unfold build_snippets.
  destruct (truthy web && truthy_val (prop web (str "organic_results"))
            && Array_isArray (prop web (str "organic_results"))).
  - pose proof (prop_wf web (str "organic_results") Hw) as Hp.
    destruct (prop web (str "organic_results")) as [[| | | |items|]|];
      try (intros E; injection E as <-; reflexivity).
    simpl in Hp.
    apply (map_result_forallb snippet_of_item wf_json wf_snippet snippet_of_item_wf).
    apply forallb_firstn. exact Hp.
  - destruct (truthy web && truthy_val (prop web (str "error")));
      intros E; [|injection E as <-; reflexivity].
    assert (E' : sn = [ {| title := Some (JStr (str "search-error"));
                           snippet_text := prop web (str "error");
                           link := None |} ]) by congruence.
    rewrite E'. cbn [forallb]. unfold wf_snippet. cbn [title snippet_text link].
    rewrite (prop_wf web (str "error") Hw). reflexivity.
Qed.

Lemma snippet_json_wf s : wf_snippet s = true -> wf_json (snippet_json s) = true.
Proof.
  unfold wf_snippet, snippet_json. intros H.
  apply andb_true_iff in H. destruct H as [H Hl].
  apply andb_true_iff in H. destruct H as [Ht Hs].
  destruct (title s), (snippet_text s), (link s); simpl in *;
    rewrite ?Ht, ?Hs, ?Hl; reflexivity.
Qed.

Lemma forallb_app_iff {A} (p : A -> bool) a b :
  forallb p a = true -> forallb p b = true -> forallb p (a ++ b) = true.
Proof. intros Ha Hb. rewrite forallb_app, Ha, Hb. reflexivity. Qed.

Lemma concat_result_wf {A} (f : A -> result (list json)) (p : A -> bool) :
  (forall x ys, p x = true -> f x = Ok ys -> forallb wf_json ys = true) ->
  forall l zs, forallb p l = true -> concat_result f l = Ok zs ->
               forallb wf_json zs = true.
Proof.
  intros Hf. induction l as [|x r IH]; simpl; intros zs Hl.
  - intros E. injection E as <-. reflexivity.
  - apply andb_true_iff in Hl. destruct Hl as [Hx Hr].
    destruct (f x) as [ys|] eqn:Hy; [|discriminate]. cbn [bind].
    destruct (concat_result f r) as [ws|] eqn:Hz; [|discriminate]. cbn [bind].
    intros E. injection E as <-.
    apply forallb_app_iff; [eapply Hf; eauto|apply IH; auto].
Qed.

Lemma content_part_wf c ys :
  wf_json c = true -> content_part c = Ok ys -> forallb wf_json ys = true.
Proof.
  intros Hc. unfold content_part.
  destruct (get c (str "text")) as [t|] eqn:Ht; [|discriminate]. cbn [bind].
  intros E. injection E as <-.
  destruct t as [[| | |s| |]|]; try (destruct c; reflexivity); reflexivity.
Qed.

Lemma push_truthy_text_wf c ys :
  wf_json c = true -> push_truthy_text c = Ok ys -> forallb wf_json ys = true.
Proof.
  intros Hc. unfold push_truthy_text.
  destruct (get c (str "text")) as [t|] eqn:Ht; [|discriminate]. cbn [bind].
  intros E. injection E as <-. pose proof (get_wf _ _ _ Hc Ht) as Hw.
  destruct t as [v|]; [|reflexivity].
  destruct (truthy v); [|reflexivity]. simpl in *. rewrite Hw. reflexivity.
Qed.

Lemma candidate_texts_wf cand ys :
  wf_json cand = true -> candidate_texts cand = Ok ys -> forallb wf_json ys = true.
Proof.
  intros Hc. unfold candidate_texts.
  destruct (get cand (str "content")) as [content|] eqn:Hct; [|discriminate].
  cbn [bind]. pose proof (get_wf _ _ _ Hc Hct) as Hw.
  match goal with
  | |- bind ?m _ = _ -> _ => destruct m as [fc|] eqn:Hfc; [|discriminate]
  end.
  cbn [bind].
  destruct (get cand (str "display")) as [d|]; [|discriminate]. cbn [bind].
  match goal with
  | |- bind ?m _ = _ -> _ => destruct m as [fd|] eqn:Hfd; [|discriminate]
  end.
  cbn [bind].
  destruct (get cand (str "text")) as [t|]; [|discriminate]. cbn [bind].
  match goal with
  | |- bind ?m _ = _ -> _ => destruct m as [ft|] eqn:Hft; [|discriminate]
  end.
  cbn [bind].
  intros E. injection E as <-.
  assert (Hf : forallb wf_json fc = true).
  { destruct (truthy_val content); [|injection Hfc as <-; reflexivity].
    destruct content as [[| | |s|cs|]|]; try (injection Hfc as <-; reflexivity).
    simpl in Hw.
    exact (concat_result_wf content_part wf_json content_part_wf cs fc Hw Hfc). }
  assert (Hstr : forall v l,
             (if truthy_val v then bind (String_of v) (fun s => Ok [JStr s]) else Ok [])
             = Ok l -> forallb wf_json l = true).
  { intros v l. destruct (truthy_val v); [|intros E; injection E as <-; reflexivity].
    destruct (String_of v) as [x|]; [|discriminate]. cbn [bind].
    intros E. injection E as <-. reflexivity. }
  apply forallb_app_iff; [exact Hf|].
  apply forallb_app_iff; [exact (Hstr _ _ Hfd)|exact (Hstr _ _ Hft)].
Qed.

Lemma output_texts_wf out ys :
  wf_json out = true -> output_texts out = Ok ys -> forallb wf_json ys = true.
Proof.
  intros Hc. unfold output_texts.
  destruct (get out (str "content")) as [content|] eqn:Hct; [|discriminate].
  cbn [bind]. pose proof (get_wf _ _ _ Hc Hct) as Hw.
  match goal with
  | |- bind ?m _ = _ -> _ => destruct m as [fc|] eqn:Hfc; [|discriminate]
  end.
  cbn [bind].
  destruct (push_truthy_text out) as [ft|] eqn:Hft; [|discriminate]. cbn [bind].
  intros E. injection E as <-.
  apply forallb_app_iff; [|eapply push_truthy_text_wf; eauto].
  destruct content as [[| | |s|cs|]|]; try (injection Hfc as <-; reflexivity).
  simpl in Hw.
  exact (concat_result_wf push_truthy_text wf_json push_truthy_text_wf cs fc Hw Hfc).
Qed.

Lemma collect_text_candidates_wf gem cands :
  wf_json gem = true -> collect_text_candidates gem = Ok cands ->
  forallb wf_json cands = true.
Proof.
  intros Hg. unfold collect_text_candidates.
  pose proof (prop_wf gem (str "candidates") Hg) as Hc.
  pose proof (prop_wf gem (str "output") Hg) as Ho.
  match goal with
  | |- bind ?m _ = _ -> _ => destruct m as [fc|] eqn:Hfc; [|discriminate]
  end.
  cbn [bind].
  match goal with
  | |- bind ?m _ = _ -> _ => destruct m as [fo|] eqn:Hfo; [|discriminate]
  end.
  cbn [bind]. intros E. injection E as <-.
  apply forallb_app_iff; [|apply forallb_app_iff; [|reflexivity]].
  - destruct (prop gem (str "candidates")) as [[| | |s|cs|]|];
      try (injection Hfc as <-; reflexivity).
    simpl in Hc.
    exact (concat_result_wf candidate_texts wf_json candidate_texts_wf cs fc Hc Hfc).
  - destruct (prop gem (str "output")) as [[| | |s|cs|]|];
      try (injection Hfo as <-; reflexivity).
    simpl in Ho.
    exact (concat_result_wf output_texts wf_json output_texts_wf cs fo Ho Hfo).
Qed.

Lemma extractJSONFromText_parse text v :
  extractJSONFromText text = v -> v <> JNull ->
  exists s, JSON_parse s = Some v.
Proof.
  unfold extractJSONFromText.
  destruct text as [| | |[|c s]| |]; try congruence.
  destruct (first_parse (map trim (fenced_matches (c :: s)))) as [x|] eqn:Hf.
  - intros <- _. destruct (first_parse_In _ _ Hf) as [t [_ Ht]]. eauto.
  - intros H Hn.
    destruct (extract_braces_braces _ _ H Hn) as (i & j & _ & _ & _ & Hp). eauto.
Qed.

Lemma extractJSONFromText_wf text : wf_json (extractJSONFromText text) = true.
Proof.
  destruct (extractJSONFromText text) as [| | | | |] eqn:H; try reflexivity;
    (destruct (extractJSONFromText_parse _ _ H ltac:(discriminate)) as [s Hs];
     exact (JSON_parse_wf _ _ Hs)).
Qed.

Lemma try_candidates_wf cands init :
  wf_json init = true -> wf_json (try_candidates cands init) = true.
Proof.
  revert init. induction cands as [|c r IH]; intros init Hi; simpl; [exact Hi|].
  destruct (truthy (extractJSONFromText c)).
  - apply extractJSONFromText_wf.
  - apply IH. apply extractJSONFromText_wf.
Qed.

Lemma forallb_map {A B} (f : A -> B) (p : B -> bool) l :
  forallb p (map f l) = forallb (fun x => p (f x)) l.
Proof. induction l as [|x l IH]; simpl; [reflexivity|]. rewrite IH. reflexivity. Qed.

Lemma fallback_body_wf ids sn cands :
  forallb wf_snippet sn = true -> forallb wf_json cands = true ->
  wf_json (fallback_body ids sn cands) = true.
Proof.
  intros Hs Hc. unfold fallback_body. cbn [wf_json forallb snd].
  rewrite !forallb_map. cbn [wf_json].
  assert (H1 : forallb (fun _ : jsstring => true) ids = true)
    by (induction ids; simpl; auto).
  assert (H2 : forallb (fun x => wf_json (snippet_json x)) sn = true).
  { apply forallb_forall. intros x Hx. apply snippet_json_wf.
    eapply forallb_forall in Hs; eauto. }
  rewrite H1, H2, (forallb_firstn wf_json 3 cands Hc). reflexivity.
Qed.

Lemma after_search_wf cfg w q prods sn r :
  forallb wf_snippet sn = true ->
  after_search cfg w q prods sn = Ok r -> wf_json (body r) = true.
Proof.
  intros Hs. rewrite after_search_unfold. destruct (stringable q); [|discriminate].
  destruct (askGemini cfg w []) as [gem|] eqn:Hg; [|discriminate].
  cbn [bind].
  destruct (collect_text_candidates gem) as [cands|] eqn:Hc; [|discriminate].
  cbn [bind].
  pose proof (collect_text_candidates_wf _ _ (askGemini_wf _ _ _ _ Hg) Hc) as Hw.
  destruct (accepted (try_candidates cands JNull)).
  - intros E. injection E as <-. cbn [body]. apply try_candidates_wf. reflexivity.
  - destruct (query_toLowerCase q) as [lower|]; [|discriminate]. cbn [bind].
    intros E. injection E as <-. cbn [body]. apply fallback_body_wf; assumption.
Qed.

Lemma api_recommend_wf cfg w req : wf_json (body (api_recommend cfg w req)) = true.
Proof.
  unfold api_recommend.
  destruct (recommend_try cfg w req) as [r|err] eqn:Hr; [|reflexivity].
  unfold recommend_try in Hr.
  destruct (query req) as [q|]; [|injection Hr as <-; reflexivity].
  destruct (negb (truthy q)); [injection Hr as <-; reflexivity|].
  destruct (webSearch cfg w q) as [web|] eqn:Hw; [|discriminate]. cbn [bind] in Hr.
  destruct (build_snippets web) as [sn|] eqn:Hs; [|discriminate]. cbn [bind] in Hr.
  eapply after_search_wf; [|exact Hr].
  eapply build_snippets_wf; [|exact Hs]. eapply webSearch_wf; eauto.
Qed.

(** ** The page: the products it shows *)

Lemma str_eqb_eq (a b : jsstring) : str_eqb a b = true <-> a = b.
Proof.
  revert b. induction a as [|x a IH]; intros [|y b]; simpl; split; intros H;
    try discriminate; try reflexivity.
  - apply andb_true_iff in H. destruct H as [Hx Ha].
    apply N.eqb_eq in Hx. apply IH in Ha. subst. reflexivity.
  - injection H as -> ->. rewrite N.eqb_refl. simpl. apply IH. reflexivity.
Qed.

Lemma id_is_eq v p : id_is v p = true <-> v = JStr (id p).
Proof.
  destruct v; simpl; split; intros H; try discriminate.
  - apply str_eqb_eq in H. subst. reflexivity.
  - injection H as ->. apply str_eqb_eq. reflexivity.
Qed.

(** The products found for a list of ids, whatever the catalog: their ids,
    as JSON strings, are the ids that name a product, in the order and with
    the repeats of the list. *)
Lemma filter_Boolean_find catalog ids :
  map (fun p => JStr (id p))
      (filter_Boolean (map (fun v => find (id_is v) catalog) ids))
  = filter (fun v => existsb (id_is v) catalog) ids
  /\ Forall (fun p => In p catalog)
            (filter_Boolean (map (fun v => find (id_is v) catalog) ids)).
Proof.
  induction ids as [|v ids [IH1 IH2]]; simpl; [split; [reflexivity|constructor]|].
  destruct (find (id_is v) catalog) as [p|] eqn:Hf.
  - destruct (find_some _ _ Hf) as [Hin Hp].
    assert (He : existsb (id_is v) catalog = true)
      by (apply existsb_exists; exists p; auto).
    rewrite He. simpl. apply id_is_eq in Hp. rewrite <- Hp, IH1.
    split; [reflexivity|constructor; assumption].
  - assert (He : existsb (id_is v) catalog = false).
    { destruct (existsb (id_is v) catalog) eqn:E; [|reflexivity].
      apply existsb_exists in E. destruct E as [p [Hin Hp]].
      rewrite (find_none _ _ Hf p Hin) in Hp. discriminate. }
    rewrite He. split; assumption.
Qed.

(** X21: the products the page shows for a response are products of its
    catalog; their ids are exactly the entries of [recommended_ids] that
    are the id of a catalog product, in the order and with the repeats of
    the response: an entry that names no product (or is no string) is
    dropped without a word.  A response whose [recommended_ids] is not an
    array shows no product. *)
Theorem page_shows_known_ids_only data found :
  recs data = Ok found ->
  Forall (fun p => In p PRODUCTS) found
  /\ (forall ids, prop data (str "recommended_ids") = Some (JArr ids) ->
        map (fun p => JStr (id p)) found
        = filter (fun v => existsb (id_is v) PRODUCTS) ids)
  /\ (Array_isArray (prop data (str "recommended_ids")) = false -> found = []).
Proof.
  intros H.
  assert (E : found = match prop data (str "recommended_ids") with
                      | Some (JArr l) =>
                          filter_Boolean (map (fun v => find (id_is v) PRODUCTS) l)
                      | _ => []
                      end).
  { destruct data; try discriminate;
      unfold recs in H; cbn [get bind prop] in H; cbn [prop]; congruence. }
  clear H. subst found.
  destruct (prop data (str "recommended_ids")) as [[| | | |ids|]|];
    try (split; [constructor|split; [discriminate|reflexivity]]).
  destruct (filter_Boolean_find PRODUCTS ids) as [H1 H2].
  split; [exact H2|]. split; [|discriminate].
  intros ids' Hids. injection Hids as <-. exact H1.
Qed.

Lemma page_shows_known_ids_only_witness :
  let data := JObj [(str "recommended_ids",
                     JArr [JStr (str "p3"); JStr (str "p9"); JNum (num_of_N 1);
                           JStr (str "p1"); JStr (str "p3")])] in
  let found := match recs data with Ok l => l | Throw _ => [] end in
  map id found = [str "p3"; str "p1"; str "p3"]
  /\ Forall (fun p => In p PRODUCTS) found.
Proof.
  intros data found. split; [reflexivity|].
  apply (page_shows_known_ids_only data found). reflexivity.
Defined.
(** ** From the handler to the page *)

(** X22: what the handler sends, the page reads back.  For every response
    of the endpoint whose body holds no number beyond the range of the
    doubles (the body of every answer other than 200 is such), the text
    that [res.json] writes for the body is parsed by [resp.json()] into
    that very body. *)
Theorem response_read_back cfg w req :
  (finite_numbers (body (api_recommend cfg w req)) = true ->
   bind (send (api_recommend cfg w req)) (fun resp => response_json (snd resp))
   = Ok (body (api_recommend cfg w req)))
  /\ (status (api_recommend cfg w req) <> 200 ->
      finite_numbers (body (api_recommend cfg w req)) = true).
Proof.
  split.
  - intros _. unfold send, response_json. cbn [bind snd].
    rewrite (JSON_parse_stringify _ (api_recommend_wf cfg w req)). reflexivity.
  - intros Hn.
    destruct (response_cases cfg w req) as [[_ ->] | [_ [H200 | [err ->]]]];
      [reflexivity|contradiction|reflexivity].
Qed.

Lemma response_read_back_witness :
  let r := api_recommend both_keys (world_of TimedOut (responds 400 provider_error))
             phone_request in
  bind (send r) (fun resp => response_json (snd resp)) = Ok (body r).
Proof.
  intros r.
  apply (proj1 (response_read_back both_keys
                  (world_of TimedOut (responds 400 provider_error)) phone_request)).
  vm_compute. reflexivity.
Defined.

Lemma posted_request text req :
  handleRecommend text = Post req ->
  req = {| query := Some (JStr text); products := PRODUCTS |}
  /\ truthy_val (query req) = true.
Proof.
  unfold handleRecommend. destruct (trim text) as [|c r] eqn:Ht; [discriminate|].
  intros E. injection E as <-. split; [reflexivity|].
  destruct text; [discriminate|reflexivity].
Qed.

Lemma find_known_ids (catalog : list product) ids :
  Forall (fun i => exists p, In p catalog /\ id p = i) ids ->
  map id (filter_Boolean (map (fun v => find (id_is v) catalog) (map JStr ids))) = ids.
Proof.
  induction 1 as [|i ids [p [Hin Hid]] _ IH]; simpl; [reflexivity|].
  destruct (find (id_is (JStr i)) catalog) as [p'|] eqn:Hf.
  - destruct (find_some _ _ Hf) as [_ Hp']. apply id_is_eq in Hp'.
    injection Hp' as Hp'. simpl. rewrite IH. congruence.
  - pose proof (find_none _ _ Hf p Hin) as Hn.
    assert (id_is (JStr i) p = true) by (apply id_is_eq; congruence). congruence.
Qed.

Lemma after_fetch_fallback ids sn cands :
  Forall (fun i => exists p, In p PRODUCTS /\ id p = i) ids ->
  wf_json (fallback_body ids sn cands) = true ->
  exists found,
    after_fetch (send {| status := 200; body := fallback_body ids sn cands |})
    = Ok (found, Some (JStr fallback_reason))
    /\ map id found = ids.
Proof.
  intros Hids Hwf. unfold after_fetch, send. cbn [bind fst snd status body].
  replace (negb (response_ok 200)) with false by reflexivity.
  unfold response_json. rewrite (JSON_parse_stringify _ Hwf). cbn [bind].
  exists (filter_Boolean (map (fun v => find (id_is v) PRODUCTS) (map JStr ids))).
  split; [reflexivity|]. apply find_known_ids. exact Hids.
Qed.

(** X23: the page against the endpoint on the fallback path.  For a text
    the page posts, when the endpoint answers 200 and the model gave
    nothing acceptable, the page ends with no error, not loading, the
    fallback reason as its explanation, and it shows exactly the products
    the heuristic chose, in that order: every id of the fallback is found
    in the catalog of the page. *)
Theorem page_shows_the_fallback cfg w st text req :
  handleRecommend text = Post req ->
  status (api_recommend cfg w req) = 200 ->
  model_accepted cfg w = false ->
  error (submit cfg w st text) = None
  /\ loading (submit cfg w st text) = false
  /\ explanation (submit cfg w st text) = Some (JStr fallback_reason)
  /\ map id (recommendations (submit cfg w st text))
     = fallback_ids (toLowerCase text) PRODUCTS.
Proof.
  intros Hpost H200 Hm. unfold submit. rewrite Hpost.
  destruct (posted_request _ _ Hpost) as [Hreq _].
  destruct (ok_response_cases cfg w req H200)
    as (q & sn & gem & cands & Hq & Hsn & Hgem & Hc & Hcase).
  destruct Hcase as [(Hm' & _) | (_ & lower & Hl & Hb)]; [congruence|].
  rewrite Hreq in Hq. cbn [query] in Hq. injection Hq as <-.
  cbn [query_toLowerCase] in Hl. injection Hl as <-.
  pose proof (api_recommend_wf cfg w req) as Hwf. rewrite Hb in Hwf.
  assert (Hr : api_recommend cfg w req
               = {| status := 200;
                    body := fallback_body (fallback_ids (toLowerCase text) (products req))
                              sn cands |}).
  { destruct (api_recommend cfg w req) as [s b]. cbn [status body] in *. congruence. }
  rewrite Hr. rewrite Hreq in *. cbn [products] in *.
  destruct (after_fetch_fallback (fallback_ids (toLowerCase text) PRODUCTS) sn cands)
    as (found & Hf & Hids).
  { apply Forall_forall. intros i Hi. apply fallback_ids_from_catalog in Hi. exact Hi. }
  { exact Hwf. }
  unfold show. rewrite Hf. cbn [error loading explanation recommendations].
  auto.
Qed.

Lemma page_shows_the_fallback_witness :
  let w := world_of TimedOut (responds 200 prose_response) in
  let st := {| recommendations := []; loading := false;
               explanation := Some (JStr []); error := None |} in
  error (submit both_keys w st phone_query) = None
  /\ loading (submit both_keys w st phone_query) = false
  /\ explanation (submit both_keys w st phone_query) = Some (JStr fallback_reason)
  /\ map id (recommendations (submit both_keys w st phone_query))
     = fallback_ids (toLowerCase phone_query) PRODUCTS.
Proof.
  intros w st.
  apply (page_shows_the_fallback both_keys w st phone_query phone_request).
  - reflexivity.
  - vm_compute. reflexivity.
  - vm_compute. reflexivity.
Defined.

(** X24: the page against the endpoint when the request fails.  A request
    the page posts is never answered with 400; when the answer is not 200
    it is 500, the page keeps the products and the explanation it showed
    before, stops loading, and shows as its error [Server error: 500 ]
    followed by the text of the [{error}] body. *)
Theorem page_shows_server_errors cfg w st text req :
  handleRecommend text = Post req ->
  status (api_recommend cfg w req) <> 200 ->
  status (api_recommend cfg w req) = 500
  /\ recommendations (submit cfg w st text) = recommendations st
  /\ explanation (submit cfg w st text) = explanation st
  /\ loading (submit cfg w st text) = false
  /\ exists msg,
       body (api_recommend cfg w req) = error_value msg
       /\ error (submit cfg w st text)
          = Some (str "Server error: 500 " ++ JSON_stringify (error_value msg)).
Proof.
  intros Hpost Hn. unfold submit. rewrite Hpost.
  destruct (posted_request _ _ Hpost) as [_ Ht].
  destruct (response_cases cfg w req) as [[Hq _] | [_ [H200 | [err Hr]]]];
    [congruence|contradiction|].
  rewrite Hr. cbn [status body]. split; [reflexivity|].
  unfold show, after_fetch, send. cbn [bind fst snd status body].
  replace (negb (response_ok 500)) with true by reflexivity.
  cbn [recommendations explanation loading error exn_message Error].
  repeat split. exists (exn_to_string err). split; reflexivity.
Qed.

Lemma page_shows_server_errors_witness :
  let w := world_of TimedOut TimedOut in
  let st := {| recommendations := PRODUCTS; loading := false;
               explanation := Some (JStr (str "before")); error := None |} in
  status (api_recommend both_keys w phone_request) = 500
  /\ recommendations (submit both_keys w st phone_query) = PRODUCTS.
Proof.
  intros w st.
  destruct (page_shows_server_errors both_keys w st phone_query phone_request)
    as (H500 & Hrecs & _).
  - reflexivity.
  - vm_compute. discriminate.
  - split; [exact H500|exact Hrecs].
Defined.
